(** * flagfig: command-line flags, environment variables and JSON
      configuration files merged into one set of typed settings.

    The development embeds package [flagfig] (flagfig.go) together with the
    part of Go's standard [flag] package it is written against, and proves
    the precedence properties of [Collate] and [Parse].

    Conventions.
    - A Go pointer returned by [new] is a location [loc] in a typed heap;
      the value a caller reads through [*p] is the heap cell at [p].
    - A Go function with side effects is a function [machine -> outcome],
      where an outcome is a normal return, a panic or a process exit.
    - The order in which [range] walks a Go map is unspecified: it is a
      parameter ([MapRange]) and every theorem holds for every order.
    - The string conversions of [strconv] and [time] that [flag] calls are a
      parameter too ([Strconv]); [go_strconv] implements them as Go 1.11
      does (the release the package was written for). *)

From Stdlib Require Import ZArith NArith String Ascii List Decimal DecimalString.
From Stdlib Require Import DecimalN DecimalPos DecimalFacts.
From Stdlib Require Import Floats.SpecFloat.
From stdpp Require Import gmap strings list fin_maps sorting.

Local Open Scope string_scope.

(** ** Go values *)

(** [float64]: IEEE 754 binary64, as the specification floats of the
    Standard Library with 53 bits of precision. *)
Definition float64 : Type := spec_float.

#[local] Set Warnings "-register-all".

(** The dynamic values an [interface{}] holds in this program.  Running
    [json.Unmarshal] into a [map[string]interface{}] produces only [VNil],
    [VBool], [VString], [VFloat64], [VSlice] and [VMap]. *)
Inductive value : Type :=
| VNil
| VBool (b : bool)
| VString (s : string)
| VInt (i : Z)
| VInt64 (i : Z)
| VUint (u : Z)
| VUint64 (u : Z)
| VFloat64 (x : float64)
| VSlice (l : list value)
| VMap (m : list (string * value)).

(** Go [error] values met in this program. *)
Inductive error : Type :=
| NumError (func num : string) (outOfRange : bool)  (* *strconv.NumError *)
| PathError (path : string)                         (* *os.PathError *)
| errorString (s : string)                          (* errors.New *)
| Errorf (msg : string) (cause : option error).     (* fmt.Errorf, with the error it prints *)

Inductive panicValue : Type :=
| PanicError (e : error)
| PanicString (s : string)
| PanicNilDereference.

(** ** The typed heap *)

Abbreviation loc := nat (only parsing).

(** One cell per variable a flag is bound to; the constructor is the
    dynamic type of the [flag.Value] wrapping the pointer. *)
Inductive cell : Type :=
| boolValue (b : bool)
| stringValue (s : string)
| intValue (i : Z)
| int64Value (i : Z)
| uintValue (u : Z)
| uint64Value (u : Z)
| float64Value (x : float64)
| durationValue (d : Z).

(** ** Parameters: conversions and map iteration order *)

(** Each conversion returns the value and the error, as in Go; the value is
    meaningful also when the error is not nil (zero, or the clamped bound). *)
Class Strconv : Type := {
  ParseBool : string → bool * option error;       (* strconv.ParseBool(s) *)
  ParseInt : string → Z * option error;           (* strconv.ParseInt(s, 0, 64) *)
  ParseUint : string → Z * option error;          (* strconv.ParseUint(s, 0, 64) *)
  ParseFloat : string → float64 * option error;   (* strconv.ParseFloat(s, 64) *)
  ParseDuration : string → Z * option error       (* time.ParseDuration(s) *)
}.

(** [range i m]: the entries of the map [m] in the order the [i]-th [range]
    loop of a run yields them. Each entry comes exactly once. *)
Class MapRange : Type := {
  range : nat → ∀ A : Type, gmap string A → list (string * A);
  range_perm : ∀ i A (m : gmap string A), range i A m ≡ₚ map_to_list m
}.
Arguments range {_} i {A} m.

(** ** Package flag: data *)

Inductive ErrorHandling : Type := ContinueOnError | ExitOnError | PanicOnError.

(** [flag.Flag]. [Value] is the pointer inside the [flag.Value] interface.
    [DefValue] (the default as text, for usage messages) is left out. *)
Record Flag : Type := mkFlag {
  Name : string;
  Usage : string;
  Value : loc
}.

Record FlagSet : Type := mkFlagSet {
  setName : string;             (* the field [name] *)
  parsed : bool;
  actual : gmap string Flag;
  formal : gmap string Flag;
  args : list string;
  errorHandling : ErrorHandling
}.

(** ** Package flagfig: data *)

(** The [const ( intType = iota ... )] block; [intType] is 0, the value a map
    lookup gives for a missing key. *)
Inductive flagType : Type :=
| intType | stringType | boolType | floatType
| int64Type | uintType | uint64Type | durationType.

Record FlagfigSet : Type := mkFlagfigSet {
  FlagSet_ : FlagSet;                 (* the embedded flag.FlagSet *)
  configFilePaths : list loc;         (* []*string *)
  flagTypes : gmap string flagType;
  envNames : gmap string string
}.

(** ** The world outside the process *)

(** The bytes of a file, seen through [json.Unmarshal] into a
    [map[string]interface{}]: either decoding fails, or it gives a map. *)
Inductive data : Type :=
| NotJSON
| JSONObject (jsonDat : gmap string value).

Record OS : Type := mkOS {
  environ : gmap string string;   (* the environment variables that are set *)
  files : gmap string data        (* the readable files, by path *)
}.

(** [os.Getenv]: empty when the variable is not set; no variable has the
    empty name. *)
Definition Getenv (os : OS) (key : string) : string :=
  if decide (key = "") then "" else default "" (environ os !! key).

(** [ioutil.ReadFile]. *)
Definition ReadFile (os : OS) (path : string) : data + error :=
  match files os !! path with
  | Some dat => inl dat
  | None => inr (PathError path)
  end.

(** [json.Unmarshal(dat, &jsonDat)] with [jsonDat] a nil map. *)
Definition json_Unmarshal (dat : data) : gmap string value + error :=
  match dat with
  | JSONObject m => inl m
  | NotJSON => inr (errorString "invalid JSON")
  end.

(** ** Machine state and outcomes *)

(** What package log wrote. *)
Inductive logline : Type :=
| LogUnableToDecode (path : string) (err : error)
    (* "Unable to JSON Decode file: '%s' because: %s" *)
| LogUnsupportedType (v : value).
    (* "Unsupported Config file type %t" *)

Record machine : Type := mkMachine {
  heap : list cell;
  this : FlagfigSet;        (* the receiver f *)
  logged : list logline
}.

Inductive outcome (A : Type) : Type :=
| Returned (a : A) (m : machine)
| Panicked (v : panicValue) (m : machine)
| Exited (code : Z) (m : machine).
Arguments Returned {A} a m.
Arguments Panicked {A} v m.
Arguments Exited {A} code m.

Definition M (A : Type) : Type := machine → outcome A.

Global Instance M_ret : MRet M := λ A a m, Returned a m.

Global Instance M_bind : MBind M := λ A B k c m,
  match c m with
  | Returned a m' => k a m'
  | Panicked v m' => Panicked v m'
  | Exited n m' => Exited n m'
  end.

Definition panic {A} (v : panicValue) : M A := λ m, Panicked v m.

(** [os.Exit]. *)
Definition os_Exit {A} (code : Z) : M A := λ m, Exited code m.

Definition get {A} (proj : machine → A) : M A := λ m, Returned (proj m) m.

Definition set_heap (h : list cell) (m : machine) : machine :=
  mkMachine h (this m) (logged m).
Definition set_this (f : FlagfigSet) (m : machine) : machine :=
  mkMachine (heap m) f (logged m).
Definition set_FlagSet (fs : FlagSet) (f : FlagfigSet) : FlagfigSet :=
  mkFlagfigSet fs (configFilePaths f) (flagTypes f) (envNames f).

Definition modify (g : machine → machine) : M unit := λ m, Returned tt (g m).
Definition modify_this (g : FlagfigSet → FlagfigSet) : M unit :=
  modify (λ m, set_this (g (this m)) m).
Definition modify_FlagSet (g : FlagSet → FlagSet) : M unit :=
  modify_this (λ f, set_FlagSet (g (FlagSet_ f)) f).

(** [new(T)]: a fresh variable holding [zero]. *)
Definition new (zero : cell) : M loc := λ m,
  Returned (length (heap m)) (set_heap (heap m ++ [zero]) m).

(** [*p]. *)
Definition load (p : loc) : M cell := λ m,
  match heap m !! p with
  | Some c => Returned c m
  | None => Panicked PanicNilDereference m
  end.

(** [*p = c]. *)
Definition store (p : loc) (c : cell) : M unit :=
  modify (λ m, set_heap (<[p := c]> (heap m)) m).

Definition log_Printf (l : logline) : M unit :=
  modify (λ m, mkMachine (heap m) (this m) (logged m ++ [l])).

(** [log.Fatalf]: Printf followed by [os.Exit(1)]. *)
Definition log_Fatalf {A} (l : logline) : M A :=
  log_Printf l;; os_Exit 1%Z.

(** ** Formatting: strconv, fmt, strings *)

(** [strconv.Itoa], [strconv.FormatInt(v, 10)]. *)
Definition strconv_FormatInt (i : Z) : string :=
  NilZero.string_of_int (Z.to_int i).

(** [strconv.FormatUint(v, 10)]. *)
Definition strconv_FormatUint (u : Z) : string :=
  NilZero.string_of_uint (N.to_uint (Z.to_N u)).

(** The number that the decimal digits [d] stand for, read after the
    digits of [n]. *)
Fixpoint digitsValue (d : Decimal.uint) (n : Z) : Z :=
  match d with
  | Decimal.Nil => n
  | Decimal.D0 d => digitsValue d (10 * n)
  | Decimal.D1 d => digitsValue d (10 * n + 1)
  | Decimal.D2 d => digitsValue d (10 * n + 2)
  | Decimal.D3 d => digitsValue d (10 * n + 3)
  | Decimal.D4 d => digitsValue d (10 * n + 4)
  | Decimal.D5 d => digitsValue d (10 * n + 5)
  | Decimal.D6 d => digitsValue d (10 * n + 6)
  | Decimal.D7 d => digitsValue d (10 * n + 7)
  | Decimal.D8 d => digitsValue d (10 * n + 8)
  | Decimal.D9 d => digitsValue d (10 * n + 9)
  end%Z.

Fixpoint repeat_char (c : ascii) (n : nat) : string :=
  match n with
  | O => ""
  | S n' => String c (repeat_char c n')
  end.

(** The quotient [num / den] rounded to the nearest integer, ties to even
    ([den] positive, [num] not negative). *)
Definition div_round_even (num den : Z) : Z :=
  let q := (num / den)%Z in
  let r := (num mod den)%Z in
  match (2 * r ?= den)%Z with
  | Lt => q
  | Gt => (q + 1)%Z
  | Eq => if Z.even q then q else (q + 1)%Z
  end.

(** [m * 2^e * 10^prec] rounded to an integer: the digits that [%.<prec>f]
    prints for the magnitude [m * 2^e]. *)
Definition scaled (prec : nat) (m : positive) (e : Z) : Z :=
  let n := (Z.pos m * 10 ^ Z.of_nat prec)%Z in
  if (0 <=? e)%Z then (n * 2 ^ e)%Z else div_round_even n (2 ^ (- e))%Z.

(** The integer nearest to a number, ties to even: the number that
    [%.0f] prints; 0 for an infinity and for what is not a number. *)
Definition nearest (x : float64) : Z :=
  match x with
  | S754_finite s m e => if s then (- scaled 0 m e)%Z else scaled 0 m e
  | _ => 0%Z
  end.

(** The integer [n] written with the decimal point [prec] digits from the
    right. *)
Definition fixed_point (prec : nat) (n : Z) : string :=
  let ds := strconv_FormatUint n in
  let ds := repeat_char "0" (S prec - String.length ds) ++ ds in
  let k := (String.length ds - prec)%nat in
  match prec with
  | O => ds
  | S _ => substring 0 k ds ++ "." ++ substring k prec ds
  end.

(** [fmt.Sprintf("%.<prec>f", x)]. *)
Definition fmt_f (prec : nat) (x : float64) : string :=
  match x with
  | S754_nan => "NaN"
  | S754_infinity false => "+Inf"
  | S754_infinity true => "-Inf"
  | S754_zero s => (if s then "-" else "") ++ fixed_point prec 0
  | S754_finite s m e => (if s then "-" else "") ++ fixed_point prec (scaled prec m e)
  end.

(** Width [wid] of a verb: spaces on the left. *)
Definition fmt_pad (wid : nat) (s : string) : string :=
  repeat_char " " (wid - String.length s) ++ s.

Definition isSpace (c : ascii) : bool :=
  match c with
  | " "%char | "009"%char | "010"%char | "011"%char | "012"%char | "013"%char => true
  | _ => false
  end.

Fixpoint trimLeft (s : string) : string :=
  match s with
  | String c s' => if isSpace c then trimLeft s' else s
  | EmptyString => s
  end.

Fixpoint trimRight (s : string) : string :=
  match s with
  | String c s' =>
      match trimRight s' with
      | EmptyString => if isSpace c then "" else String c ""
      | t => String c t
      end
  | EmptyString => s
  end.

(** [strings.TrimSpace], on ASCII white space (every string trimmed in this
    package is the ASCII output of [fmt.Sprintf] on a number). *)
Definition strings_TrimSpace (s : string) : string := trimRight (trimLeft s).


(** ** Conversions: strconv and time, as in Go 1.11 *)

Definition byte_of (c : ascii) : Z := Z.of_N (N_of_ascii c).

Definition isDigit (c : ascii) : bool :=
  (48 <=? byte_of c)%Z && (byte_of c <=? 57)%Z.

Definition lower (c : ascii) : ascii :=
  if ((65 <=? byte_of c)%Z && (byte_of c <=? 90)%Z)%bool
  then ascii_of_N (N_of_ascii c + 32) else c.

Fixpoint lowerString (s : string) : string :=
  match s with
  | String c s' => String (lower c) (lowerString s')
  | EmptyString => s
  end.

(** [strconv.ParseBool]. *)
Definition strconv_ParseBool (str : string) : bool * option error :=
  if decide (str ∈ ["1"; "t"; "T"; "true"; "TRUE"; "True"]) then (true, None)
  else if decide (str ∈ ["0"; "f"; "F"; "false"; "FALSE"; "False"]) then (false, None)
  else (false, Some (NumError "ParseBool" str false)).

Definition maxUint64 : Z := 2 ^ 64 - 1.

(** The digit a byte stands for in [ParseUint]. *)
Definition digitVal (c : ascii) : option Z :=
  let b := byte_of c in
  if isDigit c then Some (b - 48)%Z
  else if ((97 <=? b) && (b <=? 122))%Z then Some (b - 97 + 10)%Z
  else if ((65 <=? b) && (b <=? 90))%Z then Some (b - 65 + 10)%Z
  else None.

(** The digit loop of [ParseUint]: the number, or [inr false] for a syntax
    error and [inr true] for a range error. *)
Fixpoint uintLoop (base : Z) (s : string) (n : Z) : Z + bool :=
  match s with
  | EmptyString => inl n
  | String c s' =>
      match digitVal c with
      | None => inr false
      | Some d =>
          if (base <=? d)%Z then inr false
          else if (maxUint64 / base + 1 <=? n)%Z then inr true
          else
            let n1 := (n * base + d)%Z in
            if (maxUint64 <? n1)%Z then inr true else uintLoop base s' n1
      end
  end.

(** [strconv.ParseUint(s, 0, 64)], with the error as [uintLoop] gives it. *)
Definition parseUint0 (s : string) : Z * option bool :=
  match s with
  | EmptyString => (0%Z, Some false)
  | String c0 s1 =>
      let '(base, digits, short) :=
        match c0, s1 with
        | "0"%char, String c1 s2 =>
            if decide (c1 = "x"%char ∨ c1 = "X"%char)
            then (16%Z, s2, bool_decide (s2 = ""))
            else (8%Z, s1, false)
        | "0"%char, EmptyString => (8%Z, s1, false)
        | _, _ => (10%Z, s, false)
        end in
      if short : bool then (0%Z, Some false)
      else match uintLoop base digits 0 with
           | inl n => (n, None)
           | inr false => (0%Z, Some false)
           | inr true => (maxUint64, Some true)
           end
  end.

Definition strconv_ParseUint (s : string) : Z * option error :=
  let '(n, err) := parseUint0 s in
  (n, NumError "ParseUint" s <$> err).

(** [strconv.ParseInt(s, 0, 64)]. *)
Definition strconv_ParseInt (s : string) : Z * option error :=
  match s with
  | EmptyString => (0%Z, Some (NumError "ParseInt" s false))
  | String c0 s1 =>
      let '(neg, digits) :=
        if decide (c0 = "+"%char) then (false, s1)
        else if decide (c0 = "-"%char) then (true, s1)
        else (false, s) in
      let '(un, err) := parseUint0 digits in
      if decide (err = Some false) then (0%Z, Some (NumError "ParseInt" s false))
      else
        let cutoff := (2 ^ 63)%Z in
        if (negb neg && (cutoff <=? un)%Z)%bool
        then ((cutoff - 1)%Z, Some (NumError "ParseInt" s true))
        else if (neg && (cutoff <? un)%Z)%bool
        then ((- cutoff)%Z, Some (NumError "ParseInt" s true))
        else ((if neg then - un else un)%Z, None)
  end.

(** [float64(z)] for an integer [z]. *)
Definition float64_of_Z (z : Z) : float64 := binary_normalize 53 1024 z 0 false.

(** The float64 nearest to [d * 10^e] (ties to even), signed by [neg]. *)
Definition float64_of_decimal (neg : bool) (d e : Z) : float64 :=
  match d with
  | Zpos p =>
      if (0 <=? e)%Z
      then binary_normalize 53 1024 (if neg then - (d * 10 ^ e) else d * 10 ^ e)%Z 0 false
      else SFdiv 53 1024 (S754_finite neg p 0)
                         (S754_finite false (Z.to_pos (10 ^ (- e))) 0)
  | _ => S754_zero neg
  end.

(** The mantissa loop of [decimal.set]: digits with at most one point.
    [d] collects the digits after the leading zeros, [nd] counts them and
    [dp] is the position of the point. [None]: a second point. *)
Fixpoint scanMantissa (s : string) (d nd dp : Z) (sawdot sawdigits : bool)
    : option (string * Z * Z * Z * bool * bool) :=
  match s with
  | String c s' =>
      if decide (c = "."%char) then
        if sawdot then None else scanMantissa s' d nd nd true sawdigits
      else if isDigit c then
        if (bool_decide (c = "0"%char) && (nd =? 0)%Z)%bool
        then scanMantissa s' d nd (dp - 1)%Z sawdot true
        else scanMantissa s' (d * 10 + (byte_of c - 48))%Z (nd + 1)%Z dp sawdot true
      else Some (s, d, nd, dp, sawdot, sawdigits)
  | EmptyString => Some (s, d, nd, dp, sawdot, sawdigits)
  end.

(** The exponent digits; the exponent stops growing at 10000. *)
Fixpoint scanExponent (s : string) (e : Z) : string * Z :=
  match s with
  | String c s' =>
      if isDigit c
      then scanExponent s' (if (e <? 10000)%Z then e * 10 + (byte_of c - 48) else e)%Z
      else (s, e)
  | EmptyString => (s, e)
  end.

(** [decimal.set]: sign, digits [d] and decimal exponent [e] of a well
    formed number, which is [d * 10^e]. *)
Definition readDecimal (s : string) : option (bool * Z * Z) :=
  let '(neg, s1) :=
    match s with
    | String "+"%char s' => (false, s')
    | String "-"%char s' => (true, s')
    | _ => (false, s)
    end in
  match s, scanMantissa s1 0 0 0 false false with
  | EmptyString, _ | _, None => None
  | _, Some (s2, d, nd, dp, sawdot, sawdigits) =>
      if negb sawdigits then None
      else
        let dp := if sawdot then dp else nd in
        match s2 with
        | EmptyString => Some (neg, d, (dp - nd)%Z)
        | String c s3 =>
            if decide (c = "e"%char ∨ c = "E"%char) then
              let '(esign, s4) :=
                match s3 with
                | String "+"%char s' => (1%Z, s')
                | String "-"%char s' => ((-1)%Z, s')
                | _ => (1%Z, s3)
                end in
              match s4 with
              | String c4 _ =>
                  if isDigit c4 then
                    match scanExponent s4 0 with
                    | (EmptyString, e) => Some (neg, d, (dp + e * esign - nd)%Z)
                    | _ => None
                    end
                  else None
              | EmptyString => None
              end
            else None
        end
  end.

(** [special]: the names of the infinities and of NaN. *)
Definition special (s : string) : option float64 :=
  let l := lowerString s in
  if decide (l ∈ ["+inf"; "+infinity"; "inf"; "infinity"]) then Some (S754_infinity false)
  else if decide (l ∈ ["-inf"; "-infinity"]) then Some (S754_infinity true)
  else if decide (l = "nan") then Some S754_nan
  else None.

(** [strconv.ParseFloat(s, 64)]. *)
Definition strconv_ParseFloat (s : string) : float64 * option error :=
  match special s with
  | Some x => (x, None)
  | None =>
      match readDecimal s with
      | None => (S754_zero false, Some (NumError "ParseFloat" s false))
      | Some (neg, d, e) =>
          let x := float64_of_decimal neg d e in
          match x with
          | S754_infinity _ => (x, Some (NumError "ParseFloat" s true))
          | _ => (x, None)
          end
      end
  end.

(** Two's complement wrap-around of [int64] arithmetic. *)
Definition wrap64 (z : Z) : Z := ((z + 2 ^ 63) mod 2 ^ 64 - 2 ^ 63)%Z.

Definition maxInt64 : Z := 2 ^ 63 - 1.

(** [leadingInt] of package time: [None] is [errLeadingInt]. *)
Fixpoint leadingInt (s : string) (x : Z) : option (Z * string) :=
  match s with
  | String c s' =>
      if isDigit c then
        if (maxInt64 / 10 <? x)%Z then None
        else
          let x := wrap64 (x * 10 + byte_of c - 48) in
          if (x <? 0)%Z then None else leadingInt s' x
      else Some (x, s)
  | EmptyString => Some (x, s)
  end.

(** [leadingFraction]: the digits as an integer, the scale, the rest. *)
Fixpoint leadingFraction (s : string) (x : Z) (scale : float64) (overflow : bool)
    : Z * float64 * string :=
  match s with
  | String c s' =>
      if isDigit c then
        if overflow then leadingFraction s' x scale overflow
        else if (maxInt64 / 10 <? x)%Z then leadingFraction s' x scale true
        else
          let y := wrap64 (x * 10 + byte_of c - 48) in
          if (y <? 0)%Z then leadingFraction s' x scale true
          else leadingFraction s' y (SFmul 53 1024 scale (float64_of_Z 10)) overflow
      else (x, scale, s)
  | EmptyString => (x, scale, s)
  end.

(** The unit of a duration: the bytes up to the next '.' or digit. *)
Fixpoint leadingUnit (s : string) : string * string :=
  match s with
  | String c s' =>
      if (bool_decide (c = "."%char) || isDigit c)%bool then ("", s)
      else let '(u, r) := leadingUnit s' in (String c u, r)
  | EmptyString => ("", s)
  end.

Definition unitMap : list (string * Z) :=
  [("ns", 1); ("us", 1000); ("µs", 1000); ("μs", 1000); ("ms", 1000000);
   ("s", 1000000000); ("m", 60000000000); ("h", 3600000000000)]%Z.

(** [int64(x)] for a float64 within range: truncation towards zero. *)
Definition int64_of_float64 (x : float64) : Z :=
  match x with
  | S754_finite s m e =>
      let a := if (0 <=? e)%Z then (Z.pos m * 2 ^ e)%Z else (Z.pos m / 2 ^ (- e))%Z in
      if s then (- a)%Z else a
  | _ => 0%Z
  end.

(** The loop [for s != ""] of [time.ParseDuration], which reads one term
    (number and unit) per turn. [n] bounds the number of turns; a term has
    at least one byte, so the length of the string is enough. *)
Fixpoint durationLoop (orig : string) (n : nat) (s : string) (d : Z) : Z + error :=
  let invalid := inr (errorString ("time: invalid duration " ++ orig)) in
  match n, s with
  | _, EmptyString => inl d
  | O, _ => invalid
  | S n', String c _ =>
      (* The next character must be [0-9.] *)
      if negb (bool_decide (c = "."%char) || isDigit c) then invalid
      else
        match leadingInt s 0 with
        | None => invalid
        | Some (v, s1) =>
            let pre := negb (String.length s =? String.length s1)%nat in
            let '(f, scale, s2, post) :=
              match s1 with
              | String "."%char s' =>
                  let '(f, scale, s2) := leadingFraction s' 0 (float64_of_Z 1) false in
                  (f, scale, s2, negb (String.length s' =? String.length s2)%nat)
              | _ => (0%Z, float64_of_Z 1, s1, false)
              end in
            if (negb pre && negb post)%bool then invalid
            else
              let '(u, s3) := leadingUnit s2 in
              if decide (u = "")
              then inr (errorString ("time: missing unit in duration " ++ orig))
              else
                match (list_to_map unitMap : gmap string Z) !! u with
                | None =>
                    inr (errorString ("time: unknown unit " ++ u ++ " in duration " ++ orig))
                | Some unit =>
                    if (maxInt64 / unit <? v)%Z then invalid
                    else
                      let v := (v * unit)%Z in
                      let v :=
                        if (0 <? f)%Z
                        then wrap64 (v + int64_of_float64
                               (SFmul 53 1024 (float64_of_Z f)
                                  (SFdiv 53 1024 (float64_of_Z unit) scale)))
                        else v in
                      if (v <? 0)%Z then invalid
                      else
                        let d := wrap64 (d + v) in
                        if (d <? 0)%Z then invalid else durationLoop orig n' s3 d
                end
        end
  end.

(** [time.ParseDuration]. *)
Definition time_ParseDuration (s : string) : Z * option error :=
  let orig := s in
  let '(neg, s) :=
    match s with
    | String "-"%char s' => (true, s')
    | String "+"%char s' => (false, s')
    | _ => (false, s)
    end in
  if decide (s = "0") then (0%Z, None)
  else if decide (s = "") then (0%Z, Some (errorString ("time: invalid duration " ++ orig)))
  else
    match durationLoop orig (String.length s) s 0 with
    | inr err => (0%Z, Some err)
    | inl d => ((if neg then - d else d)%Z, None)
    end.

(** The conversions of Go 1.11. *)
Definition go_strconv : Strconv := {|
  ParseBool := strconv_ParseBool;
  ParseInt := strconv_ParseInt;
  ParseUint := strconv_ParseUint;
  ParseFloat := strconv_ParseFloat;
  ParseDuration := time_ParseDuration
|}.

(** A [range] that yields the entries of a map in the order of
    [map_to_list], for examples. *)
Definition go_range : MapRange := {|
  range := λ _ A m, map_to_list m;
  range_perm := λ _ A m, reflexivity (map_to_list m)
|}.

(** ** Package flag: operations *)

Section Program.
Context {sc : Strconv} {mr : MapRange}.

(** [fold f l s]: a [for] loop over [l] whose body [f] updates the local
    variables [s]. *)
Fixpoint fold {A S : Type} (f : S → A → M S) (l : list A) (s : S) : M S :=
  match l with
  | [] => mret s
  | x :: l' => s' ← f s x; fold f l' s'
  end.

(** The [Set] method of each value type: [stringValue] stores the string;
    every other type converts, stores the conversion's result
    unconditionally and returns the conversion's error. *)
Definition convert (c : cell) (s : string) : cell * option error :=
  match c with
  | boolValue _ => let '(v, err) := ParseBool s in (boolValue v, err)
  | stringValue _ => (stringValue s, None)
  | intValue _ => let '(v, err) := ParseInt s in (intValue v, err)
  | int64Value _ => let '(v, err) := ParseInt s in (int64Value v, err)
  | uintValue _ => let '(v, err) := ParseUint s in (uintValue v, err)
  | uint64Value _ => let '(v, err) := ParseUint s in (uint64Value v, err)
  | float64Value _ => let '(v, err) := ParseFloat s in (float64Value v, err)
  | durationValue _ => let '(v, err) := ParseDuration s in (durationValue v, err)
  end.

(** [value.Set(s)] for the [flag.Value] wrapping the pointer [v]. *)
Definition Value_Set (v : loc) (s : string) : M (option error) :=
  c ← load v;
  let '(c', err) := convert c s in
  store v c';;
  mret err.

Definition set_actual (a : gmap string Flag) (fs : FlagSet) : FlagSet :=
  mkFlagSet (setName fs) (parsed fs) a (formal fs) (args fs) (errorHandling fs).
Definition set_formal (fm : gmap string Flag) (fs : FlagSet) : FlagSet :=
  mkFlagSet (setName fs) (parsed fs) (actual fs) fm (args fs) (errorHandling fs).

(** [func (f *FlagSet) Set(name, value string) error]. *)
Definition FlagSet_Set (name value : string) : M (option error) :=
  fs ← get (λ m, FlagSet_ (this m));
  match formal fs !! name with
  | None => mret (Some (errorString ("no such flag -" ++ name)))
  | Some flag =>
      err ← Value_Set (Value flag) value;
      match err with
      | Some _ => mret err
      | None =>
          modify_FlagSet (λ fs, set_actual (<[name := flag]> (actual fs)) fs);;
          mret None
      end
  end.

(** [func (f *FlagSet) Lookup(name string) *Flag]; [None] is the nil
    pointer. *)
Definition FlagSet_Lookup (name : string) : M (option Flag) :=
  fs ← get (λ m, FlagSet_ (this m));
  mret (formal fs !! name).

(** [sortFlags]: the flags of a map in lexicographical order of name. *)
Definition sortFlags (flags : gmap string Flag) : list Flag :=
  let list := merge_sort (λ a b : string, String.leb a b)
                (Name <$> (map_to_list flags).*2) in
  omap (λ name, flags !! name) list.

(** [VisitAll] and [Visit]; the callback [fn] updates the variables [S] its
    closure captures. *)
Definition FlagSet_VisitAll {S : Type} (fn : Flag → S → S) (s : S) : M S :=
  fs ← get (λ m, FlagSet_ (this m));
  mret (foldl (λ s flag, fn flag s) s (sortFlags (formal fs))).

Definition FlagSet_Visit {S : Type} (fn : Flag → S → S) (s : S) : M S :=
  fs ← get (λ m, FlagSet_ (this m));
  mret (foldl (λ s flag, fn flag s) s (sortFlags (actual fs))).

(** The message [Var] panics with when the name is already defined. *)
Definition redefined (fs : FlagSet) (name : string) : string :=
  if decide (setName fs = "") then "flag redefined: " ++ name
  else setName fs ++ " flag redefined: " ++ name.

(** [func (f *FlagSet) Var(value Value, name string, usage string)]: panics
    when the name is already defined. *)
Definition FlagSet_Var (value : loc) (name usage : string) : M unit :=
  let flag := mkFlag name usage value in
  fs ← get (λ m, FlagSet_ (this m));
  match formal fs !! name with
  | Some _ => panic (PanicString (redefined fs name))
  | None => modify_FlagSet (λ fs, set_formal (<[name := flag]> (formal fs)) fs)
  end.

(** [BoolVar], [StringVar], ...: [newXValue(value, p)] stores the default
    through [p], then [Var] registers the flag. *)
Definition FlagSet_XVar (p : loc) (name : string) (value : cell) (usage : string) : M unit :=
  store p value;;
  FlagSet_Var p name usage.

(** [flag.ErrHelp]. *)
Definition ErrHelp : error := errorString "flag: help requested".

Definition set_args (l : list string) : M unit :=
  modify_FlagSet (λ fs, mkFlagSet (setName fs) (parsed fs) (actual fs) (formal fs) l
                          (errorHandling fs)).

(** The loop of [parseOne] that looks for '=' from index 1 on:
    [(name, hasValue, value)]. *)
Fixpoint splitEquals (name : string) (i : nat) : string * bool * string :=
  match i with
  | O => (name, false, "")
  | S i' =>
      let k := (String.length name - i)%nat in
      if decide (String.get k name = Some "="%char)
      then (substring 0 k name, true, substring (S k) (String.length name - S k) name)
      else splitEquals name i'
  end.

Definition isBoolFlag (c : cell) : bool :=
  match c with boolValue _ => true | _ => false end.

(** The end of [parseOne], once the flag and its value are known: set the
    value; on error fail with [msg]; otherwise record the flag in [actual]
    and go on with the next turn of the loop of [Parse]. *)
Definition setParsed (flag : Flag) (name value msg : string)
    (next : M (option error)) : M (option error) :=
  err ← Value_Set (Value flag) value;
  match err with
  | Some _ => mret (Some (Errorf msg err))
  | None =>
      modify_FlagSet (λ fs, set_actual (<[name := flag]> (actual fs)) fs);;
      next
  end.

(** [parseArgs args]: the loop [for { seen, err := f.parseOne() ... }] of
    [FlagSet.Parse] started with [f.args = args]; it returns the error of
    the [parseOne] that ended the loop. *)
Fixpoint parseArgs (args : list string) : M (option error) :=
  match args with
  | [] => mret None
  | s :: rest =>
      if decide (String.length s < 2 ∨ String.get 0 s ≠ Some "-"%char) then mret None
      else
        let numMinuses := if decide (String.get 1 s = Some "-"%char) then 2 else 1 in
        if decide (numMinuses = 2 ∧ String.length s = 2)   (* "--" terminates the flags *)
        then set_args rest;; mret None
        else
          let name := substring numMinuses (String.length s - numMinuses) s in
          if decide (String.length name = 0 ∨ String.get 0 name = Some "-"%char
                     ∨ String.get 0 name = Some "="%char)
          then mret (Some (Errorf ("bad flag syntax: " ++ s) None))
          else
            (* it's a flag. does it have an argument? *)
            set_args rest;;
            let '(name, hasValue, value) := splitEquals name (String.length name - 1) in
            fs ← get (λ m, FlagSet_ (this m));
            match formal fs !! name with
            | None =>
                if decide (name = "help" ∨ name = "h") then mret (Some ErrHelp)
                else mret (Some (Errorf ("flag provided but not defined: -" ++ name) None))
            | Some flag =>
                c ← load (Value flag);
                if isBoolFlag c then  (* special case: doesn't need an arg *)
                  setParsed flag name (if hasValue then value else "true")
                    ("invalid boolean value for -" ++ name) (parseArgs rest)
                else if hasValue then
                  setParsed flag name value ("invalid value for flag -" ++ name)
                    (parseArgs rest)
                else
                  (* It must have a value, which might be the next argument. *)
                  match rest with
                  | [] => mret (Some (Errorf ("flag needs an argument: -" ++ name) None))
                  | value :: rest' =>
                      set_args rest';;
                      setParsed flag name value ("invalid value for flag -" ++ name)
                        (parseArgs rest')
                  end
            end
  end.

(** [func (f *FlagSet) Parse(arguments []string) error]. *)
Definition FlagSet_Parse (arguments : list string) : M (option error) :=
  modify_FlagSet (λ fs, mkFlagSet (setName fs) true (actual fs) (formal fs) arguments
                          (errorHandling fs));;
  err ← parseArgs arguments;
  match err with
  | None => mret None
  | Some e =>
      fs ← get (λ m, FlagSet_ (this m));
      match errorHandling fs with
      | ContinueOnError => mret err
      | ExitOnError => os_Exit 2%Z
      | PanicOnError => panic (PanicError e)
      end
  end.

(** ** Package flagfig: operations *)

(** Registration. The eight methods [Bool], [String], [Int], [Float64],
    [Int64], [Uint], [Uint64] and [Duration] have one body:
<<
    p := new(T)
    f.envNames[name] = envName
    f.flagTypes[name] = xType
    f.FlagSet.XVar(p, name, defaultValue, usage)
    return p
>>
    [declare xType zero defaultValue] is that body. *)
Definition declare (xType : flagType) (zero defaultValue : cell)
    (name envName usage : string) : M loc :=
  p ← new zero;
  modify_this (λ f, mkFlagfigSet (FlagSet_ f) (configFilePaths f) (flagTypes f)
                      (<[name := envName]> (envNames f)));;
  modify_this (λ f, mkFlagfigSet (FlagSet_ f) (configFilePaths f)
                      (<[name := xType]> (flagTypes f)) (envNames f));;
  FlagSet_XVar p name defaultValue usage;;
  mret p.

Definition Bool (name : string) (defaultValue : bool) (envName usage : string) : M loc :=
  declare boolType (boolValue false) (boolValue defaultValue) name envName usage.

Definition String (name defaultValue envName usage : string) : M loc :=
  declare stringType (stringValue "") (stringValue defaultValue) name envName usage.

Definition Int (name : string) (defaultValue : Z) (envName usage : string) : M loc :=
  declare intType (intValue 0) (intValue defaultValue) name envName usage.

Definition Float64 (name : string) (defaultValue : float64) (envName usage : string) : M loc :=
  declare floatType (float64Value (S754_zero false)) (float64Value defaultValue)
    name envName usage.

Definition Int64 (name : string) (defaultValue : Z) (envName usage : string) : M loc :=
  declare int64Type (int64Value 0) (int64Value defaultValue) name envName usage.

Definition Uint (name : string) (defaultValue : Z) (envName usage : string) : M loc :=
  declare uintType (uintValue 0) (uintValue defaultValue) name envName usage.

Definition Uint64 (name : string) (defaultValue : Z) (envName usage : string) : M loc :=
  declare uint64Type (uint64Value 0) (uint64Value defaultValue) name envName usage.

Definition Duration (name : string) (defaultValue : Z) (envName usage : string) : M loc :=
  declare durationType (durationValue 0) (durationValue defaultValue) name envName usage.

(** [AddConfigFile]. *)
Definition AddConfigFile (name usage : string) : M loc :=
  p ← new (stringValue "");
  modify_this (λ f, mkFlagfigSet (FlagSet_ f) (configFilePaths f ++ [p])
                      (flagTypes f) (envNames f));;
  FlagSet_XVar p name (stringValue "") usage;;
  mret p.


(** [NewFlagfigSet]: the receiver of a machine that has allocated nothing. *)
Definition NewFlagfigSet (name : string) (errorHandling : ErrorHandling) : machine :=
  mkMachine []
    (mkFlagfigSet (mkFlagSet name false ∅ ∅ [] errorHandling) [] ∅ ∅)
    [].

(** The [switch v := val.(type)] of [readConfigurationFiles], for one
    [key, val] of a file whose key is in [unvisitedFlags]. The error of
    every [Set] is dropped ([_ = f.FlagSet.Set(...)]). *)
Definition setFromFile (key : string) (val : value) : M unit :=
  match val with
  | VBool v =>
      if v then FlagSet_Set key "true";; mret tt
      else FlagSet_Set key "false";; mret tt
  | VString v => FlagSet_Set key v;; mret tt
  | VInt v => FlagSet_Set key (strconv_FormatInt v);; mret tt
  | VInt64 v => FlagSet_Set key (strconv_FormatInt v);; mret tt
  | VUint v => FlagSet_Set key (strconv_FormatUint v);; mret tt
  | VUint64 v => FlagSet_Set key (strconv_FormatUint v);; mret tt
  | VFloat64 v =>
      (* So, every number in JSON is actually a float64... *)
      types ← get (λ m, flagTypes (this m));
      match default intType (types !! key) with
      | intType => FlagSet_Set key (fmt_f 0 v);; mret tt
      | uintType => FlagSet_Set key (fmt_f 0 v);; mret tt
      | int64Type => FlagSet_Set key (fmt_f 0 v);; mret tt
      | uint64Type => FlagSet_Set key (fmt_f 0 v);; mret tt
      | floatType => FlagSet_Set key (fmt_f 6 v);; mret tt
      | durationType =>
          let s := strings_TrimSpace (fmt_pad 18 (fmt_f 0 v) ++ "ns") in
          FlagSet_Set key s;; mret tt
      | stringType | boolType => mret tt
      end
  | VNil | VSlice _ | VMap _ => log_Fatalf (LogUnsupportedType val)
  end.

(** The body of the loop [for key, val := range jsonDat]. *)
Definition fileEntry (unvisitedFlags : gmap string (option Flag))
    (_ : unit) (entry : string * value) : M unit :=
  let '(key, val) := entry in
  match unvisitedFlags !! key with
  | Some _ => setFromFile key val
  | None => mret tt
  end.

(** The body of the loop over [f.configFilePaths], for the [i]-th file. *)
Definition readConfigurationFile (os : OS) (unvisitedFlags : gmap string (option Flag))
    (_ : unit) (file : nat * loc) : M unit :=
  let '(i, filePath) := file in
  path ← load filePath;
  match path with
  | stringValue path =>
      if decide (String.length path ≠ 0) then
        match ReadFile os path with
        | inr err => panic (PanicError err)
        | inl dat =>
            match json_Unmarshal dat with
            | inr err =>
                (* Skip this file *)
                log_Printf (LogUnableToDecode path err)
            | inl jsonDat =>
                (* Process file's contents *)
                fold (fileEntry unvisitedFlags) (range (2 + i) jsonDat) tt
            end
        end
      else mret tt
  | _ => panic PanicNilDereference
  end.

(** [readConfigurationFiles]: the result [err] is never assigned (the [err]
    of [ReadFile] and [Unmarshal] is a new variable of the loop body), so
    the function returns nil whenever it returns. *)
Definition readConfigurationFiles (os : OS) (unvisitedFlags : gmap string (option Flag))
    : M (option error) :=
  paths ← get (λ m, configFilePaths (this m));
  fold (readConfigurationFile os unvisitedFlags) (imap (λ i p, (i, p)) paths) tt;;
  mret None.

(** The body of the loop [for name, visited := range allFlags]. *)
Definition collectUnvisited (unVisitedFlags : gmap string (option Flag))
    (entry : string * bool) : M (gmap string (option Flag)) :=
  let '(name, visited) := entry in
  if negb visited then
    fl ← FlagSet_Lookup name;
    mret (<[name := fl]> unVisitedFlags)
  else mret unVisitedFlags.

(** The body of the loop [for _, fl := range unVisitedFlags]. *)
Definition envEntry (os : OS) (err : option error) (entry : string * option Flag)
    : M (option error) :=
  match entry.2 with
  | None => panic PanicNilDereference
  | Some fl =>
      (* Find the Env value *)
      envNames ← get (λ m, envNames (this m));
      (* Blank envName means skip ENV lookup, for safety *)
      match envNames !! Name fl with
      | Some envName =>
          let envVal := Getenv os envName in
          if decide (String.length envVal ≠ 0)
          then FlagSet_Set (Name fl) envVal
          else mret err
      | None => mret err
      end
  end.

(** [Collate]. *)
Definition Collate (os : OS) : M (option error) :=
  let unVisitedFlags : gmap string (option Flag) := ∅ in
  let allFlags : gmap string bool := ∅ in
  allFlags ← FlagSet_VisitAll (λ fl allFlags, <[Name fl := false]> allFlags) allFlags;
  allFlags ← FlagSet_Visit (λ fl allFlags, <[Name fl := true]> allFlags) allFlags;
  unVisitedFlags ← fold collectUnvisited (range 0 allFlags) unVisitedFlags;
  err ← readConfigurationFiles os unVisitedFlags;
  match err with
  | Some _ => mret err
  | None => fold (envEntry os) (range 1 unVisitedFlags) err
  end.

(** [func (f *FlagfigSet) Parse(arguments []string) (err error)]. *)
Definition Parse (os : OS) (arguments : list string) : M (option error) :=
  err ← FlagSet_Parse arguments;
  match err with
  | None => Collate os
  | Some _ => mret err
  end.

(** ** Specification vocabulary *)

(** The machine an outcome ends in. *)
Definition final {A} (o : outcome A) : machine :=
  match o with
  | Returned _ m | Panicked _ m | Exited _ m => m
  end.

Definition FS (m : machine) : FlagSet := FlagSet_ (this m).

(** The kind a cell is declared with. *)
Definition kindOf (c : cell) : flagType :=
  match c with
  | boolValue _ => boolType
  | stringValue _ => stringType
  | intValue _ => intType
  | int64Value _ => int64Type
  | uintValue _ => uintType
  | uint64Value _ => uint64Type
  | float64Value _ => floatType
  | durationValue _ => durationType
  end.

(** The declared kind [f.flagTypes[key]] the switch dispatches on. *)
Definition declaredKind (m : machine) (key : string) : flagType :=
  default intType (flagTypes (this m) !! key).

(** The states registration and parsing build: every flag is filed under
    its own name and owns one allocated variable, of the kind recorded for
    it; the flags that were set are defined; the configuration file paths
    are string variables. *)
Record wf (m : machine) : Prop := mk_wf {
  wf_name : ∀ n fl, formal (FS m) !! n = Some fl → Name fl = n;
  wf_actual : ∀ n fl, actual (FS m) !! n = Some fl → formal (FS m) !! n = Some fl;
  wf_alloc : ∀ n fl, formal (FS m) !! n = Some fl → is_Some (heap m !! Value fl);
  wf_inj : ∀ n1 n2 f1 f2,
    formal (FS m) !! n1 = Some f1 → formal (FS m) !! n2 = Some f2 →
    Value f1 = Value f2 → n1 = n2;
  wf_kind : ∀ n ty fl c,
    flagTypes (this m) !! n = Some ty → formal (FS m) !! n = Some fl →
    heap m !! Value fl = Some c → kindOf c = ty;
  wf_types : ∀ n ty, flagTypes (this m) !! n = Some ty → is_Some (formal (FS m) !! n);
  wf_paths : ∀ p, p ∈ configFilePaths (this m) → ∃ s, heap m !! p = Some (stringValue s)
}.

(** A setting that was not passed on the command line: defined, not set. *)
Definition unvisited (m : machine) (n : string) (fl : Flag) : Prop :=
  formal (FS m) !! n = Some fl ∧ actual (FS m) !! n = None.

(** The map [unVisitedFlags] that [Collate] builds. *)
Definition unvisitedFlags (m : machine) : gmap string (option Flag) :=
  Some <$> filter (λ kv, actual (FS m) !! kv.1 = None) (formal (FS m)).

(** The text the switch of [readConfigurationFiles] hands to [Set] for a
    value of a file, by declared kind; [None] when it sets nothing. *)
Definition render (ty : flagType) (val : value) : option string :=
  match val with
  | VBool v => Some (if v then "true" else "false")
  | VString v => Some v
  | VInt v | VInt64 v => Some (strconv_FormatInt v)
  | VUint v | VUint64 v => Some (strconv_FormatUint v)
  | VFloat64 v =>
      match ty with
      | intType | uintType | int64Type | uint64Type => Some (fmt_f 0 v)
      | floatType => Some (fmt_f 6 v)
      | durationType => Some (strings_TrimSpace (fmt_pad 18 (fmt_f 0 v) ++ "ns"))
      | stringType | boolType => None
      end
  | VNil | VSlice _ | VMap _ => None
  end.

(** The values the switch has a case for; the others end in [log.Fatalf]. *)
Definition supported (val : value) : bool :=
  match val with
  | VNil | VSlice _ | VMap _ => false
  | _ => true
  end.

(** What one value of a file makes of a cell. *)
Definition applyValue (ty : flagType) (c : cell) (val : value) : cell :=
  match render ty val with
  | Some s => (convert c s).1
  | None => c
  end.

(** The JSON object behind the path variable [p], if [p] holds the path of
    a readable file that decodes. *)
Definition fileAt (os : OS) (h : list cell) (p : loc) : option (gmap string value) :=
  match h !! p with
  | Some (stringValue path) =>
      match files os !! path with
      | Some (JSONObject obj) => if decide (path = "") then None else Some obj
      | _ => None
      end
  | _ => None
  end.

(** The values the configured files give for [n], in registration order of
    the files. *)
Definition fileValues (os : OS) (m : machine) (n : string) : list value :=
  omap (λ p, fileAt os (heap m) p ≫= (λ obj, obj !! n)) (configFilePaths (this m)).

(** The value of the environment variable registered for [n]; empty when
    none is registered, when the registered name is empty and when the
    variable is not set. *)
Definition envValue (os : OS) (m : machine) (n : string) : string :=
  match envNames (this m) !! n with
  | Some envName => Getenv os envName
  | None => ""
  end.

(** What the environment makes of the cell of [n]. *)
Definition applyEnv (os : OS) (m : machine) (n : string) (c : cell) : cell :=
  if decide (envValue os m n = "") then c else (convert c (envValue os m n)).1.

(** The resolved value of a setting that was not passed on the command
    line, from the value [c] it has before [Collate]. *)
Definition resolve (os : OS) (m : machine) (n : string) (c : cell) : cell :=
  applyEnv os m n (foldl (applyValue (declaredKind m n)) c (fileValues os m n)).

(** No file names, among its keys, a configuration-file flag that was not
    passed on the command line: the files do not redirect each other. *)
Definition keeps_paths (os : OS) (m : machine) : Prop :=
  ∀ path obj k fl,
    files os !! path = Some (JSONObject obj) → is_Some (obj !! k) →
    unvisited m k fl → Value fl ∉ configFilePaths (this m).

(** No configured file redirects the pass: the files behind the path
    variables, as they are when [Collate] starts, do not name a
    configuration-file flag that was not passed on the command line. *)
Definition no_redirection (os : OS) (m : machine) : Prop :=
  ∀ p obj k fl,
    p ∈ configFilePaths (this m) → fileAt os (heap m) p = Some obj →
    is_Some (obj !! k) → unvisited m k fl → Value fl ∉ configFilePaths (this m).

(** The file behind the path variable [p] does not stop the run: there is
    none (empty path), or it is readable and either fails to decode or
    holds supported values for the flags that were not passed. *)
Definition fileOK (os : OS) (m : machine) (p : loc) : Prop :=
  ∃ path, heap m !! p = Some (stringValue path) ∧
    (path = "" ∨ files os !! path = Some NotJSON ∨
     ∃ obj, files os !! path = Some (JSONObject obj) ∧
       ∀ k v, obj !! k = Some v → is_Some (unvisitedFlags m !! k) → supported v = true).

Definition filesOK (os : OS) (m : machine) : Prop :=
  ∀ p, p ∈ configFilePaths (this m) → fileOK os m p.

(** The registration phase: [registers m m'] when [m'] comes from [m] by
    declarations of settings and of configuration files that return. *)
Inductive registers : machine → machine → Prop :=
| registers_refl m : registers m m
| registers_declare m m1 m2 xType zero defaultValue name envName usage p :
    registers m m1 → kindOf defaultValue = xType →
    declare xType zero defaultValue name envName usage m1 = Returned p m2 →
    registers m m2
| registers_AddConfigFile m m1 m2 name usage p :
    registers m m1 →
    AddConfigFile name usage m1 = Returned p m2 →
    registers m m2.

(** [evolves m m']: [m'] has the declarations of [m], and its heap has the
    variables of [m] with their kinds. [Set], and so [Collate], only make
    such steps. *)
Record evolves (m m' : machine) : Prop := mk_evolves {
  ev_formal : formal (FS m') = formal (FS m);
  ev_flagTypes : flagTypes (this m') = flagTypes (this m);
  ev_envNames : envNames (this m') = envNames (this m);
  ev_configFilePaths : configFilePaths (this m') = configFilePaths (this m);
  ev_actual : ∀ n fl, actual (FS m') !! n = Some fl →
    actual (FS m) !! n = Some fl ∨ formal (FS m) !! n = Some fl;
  ev_kind : ∀ p c, heap m !! p = Some c →
    ∃ c', heap m' !! p = Some c' ∧ kindOf c' = kindOf c
}.

(** The variables that [Collate] may write: those of the flags that were
    not passed on the command line. *)
Definition writable (m : machine) (p : loc) : Prop :=
  ∃ n fl, unvisited m n fl ∧ Value fl = p.

(** [inv m0 m]: [m] is a state of a run of [Collate] started in [m0]; only
    variables of flags that were not passed on the command line differ. *)
Definition inv (m0 m : machine) : Prop :=
  evolves m0 m ∧ ∀ p, ¬ writable m0 p → heap m !! p = heap m0 !! p.

(** The path variables have the value they had in [m0]. *)
Definition paths_kept (m0 m : machine) : Prop :=
  ∀ p, p ∈ configFilePaths (this m0) → heap m !! p = heap m0 !! p.

(** [parses m m']: what parsing the command line may do. It sets flags
    and marks them in [actual]; a flag that is not marked in the end has
    its variable as before. *)
Definition parses (m m' : machine) : Prop :=
  evolves m m'
  ∧ (∀ n fl, actual (FS m) !! n = Some fl → actual (FS m') !! n = Some fl)
  ∧ (∀ n fl, formal (FS m) !! n = Some fl → actual (FS m') !! n = None →
       heap m' !! Value fl = heap m !! Value fl)
  ∧ logged m' = logged m.

(** [registering c]: a run of [c] that returns is a registration phase. *)
Definition registering {A} (c : M A) : Prop :=
  ∀ m a m', c m = Returned a m' → registers m m'.

(** Every configuration-file flag was passed on the command line. *)
Definition paths_visited (m : machine) : Prop :=
  Forall (λ p, ∃ n fl, actual (FS m) !! n = Some fl ∧ Value fl = p)
         (configFilePaths (this m)).

(** The cell [c] holds the value the text [v] stands for: the conversion
    of its kind accepts [v] and gives [c]. *)
Definition denotes (v : string) (c : cell) : Prop := convert c v = (c, None).

(** ** Nested configurations (nester.go) *)

(** [type Nester interface]: the two methods of a nested configuration, as
    programs over the machine; [RegisterFlags] runs on the receiver
    [flags], which is the [FlagfigSet] of the machine. *)
Record Nester : Type := mkNester {
  RegisterFlags : M unit;
  AfterParsed : M (option error)
}.

(** [func (n *NesterBase) AfterParsed() (err error)]. *)
Definition NesterBase_AfterParsed : M (option error) := mret None.

(** The second loop of [ParseNested]: [AfterParsed] of each nester in
    turn, up to the first error. *)
Fixpoint afterParsedAll (nestedConfigs : list Nester) : M (option error) :=
  match nestedConfigs with
  | [] => mret None
  | nc :: rest =>
      err ← AfterParsed nc;
      match err with
      | Some _ => mret err
      | None => afterParsedAll rest
      end
  end.

(** [ParseNested]: [flags := NewFlagfigSet("", handling)] is a new
    receiver; the variables allocated before stay. *)
Definition ParseNested (os : OS) (handling : ErrorHandling)
    (nestedConfigs : list Nester) (args : list string) : M (option error) :=
  modify (set_this (this (NewFlagfigSet "" handling)));;
  fold (λ _ nc, RegisterFlags nc) nestedConfigs tt;;
  err ← Parse os args;
  match err with
  | Some _ => mret err
  | None => afterParsedAll nestedConfigs
  end.

(** [MustParseNested]. *)
Definition MustParseNested (os : OS) (handling : ErrorHandling)
    (nestedConfigs : list Nester) (args : list string) : M unit :=
  err ← ParseNested os handling nestedConfigs args;
  match err with
  | Some e => panic (PanicError e)
  | None => mret tt
  end.

End Program.

(** * The first version of the package (flagfig/flagfig.go)

    It has String settings only, and keeps the values of the files in a
    map that is filled by the first look-up. *)

Module Legacy.

(** The flag package runs on the memory and on the embedded
    [flag.FlagSet]. *)
Definition flagMachine (h : list cell) (fs : FlagSet) : machine :=
  mkMachine h (mkFlagfigSet fs [] ∅ ∅) [].

Definition flagSetOf (m : machine) : FlagSet := FlagSet_ (this m).

(** [type FlagfigSet struct]; [fileConfigurations] is nil until the files
    are read. *)
Record FlagfigSet : Type := mkFlagfigSet {
  FlagSet_ : FlagSet;
  configFilePaths : list loc;
  fileConfigurations : option (gmap string string);
  envNames : gmap string string;
  stringValues : gmap string loc
}.

(** What package log wrote. *)
Inductive logline : Type :=
| LogUnableToDecode (path : string) (err : error)
| LogUnsupportedType (v : value) (key path : string).

Record state : Type := mkState {
  mem : list cell;
  self : FlagfigSet;
  log : list logline
}.

Inductive result (A : Type) : Type :=
| Ret (a : A) (s : state)
| Panic (v : panicValue) (s : state)
| Exit (code : Z) (s : state).
Arguments Ret {A} a s.
Arguments Panic {A} v s.
Arguments Exit {A} code s.

Definition L (A : Type) : Type := state → result A.

#[global] Instance L_ret : MRet L := λ A a s, Ret a s.

#[global] Instance L_bind : MBind L := λ A B k c s,
  match c s with
  | Ret a s' => k a s'
  | Panic v s' => Panic v s'
  | Exit n s' => Exit n s'
  end.

Definition panic {A} (v : panicValue) : L A := λ s, Panic v s.

Definition get {A} (proj : state → A) : L A := λ s, Ret (proj s) s.

Definition modify_self (g : FlagfigSet → FlagfigSet) : L unit := λ s,
  Ret tt (mkState (mem s) (g (self s)) (log s)).

Definition set_fileConfigurations (c : option (gmap string string)) (f : FlagfigSet)
    : FlagfigSet :=
  mkFlagfigSet (FlagSet_ f) (configFilePaths f) c (envNames f) (stringValues f).

Definition new (zero : cell) : L loc := λ s,
  Ret (length (mem s)) (mkState (mem s ++ [zero])%list (self s) (log s)).

Definition load (p : loc) : L cell := λ s,
  match mem s !! p with
  | Some c => Ret c s
  | None => Panic PanicNilDereference s
  end.

Definition store (p : loc) (c : cell) : L unit := λ s,
  Ret tt (mkState (<[p := c]> (mem s)) (self s) (log s)).

Definition log_Printf (l : logline) : L unit := λ s,
  Ret tt (mkState (mem s) (self s) (log s ++ [l])%list).

Fixpoint fold {A S : Type} (f : S → A → L S) (l : list A) (s : S) : L S :=
  match l with
  | [] => mret s
  | x :: l' => s' ← f s x; fold f l' s'
  end.

(** The final state of a run. *)
Definition final {A} (r : result A) : state :=
  match r with
  | Ret _ s | Panic _ s | Exit _ s => s
  end.

Section Program.
Context {sc : Strconv} {mr : MapRange}.

(** A call of a method of the embedded [flag.FlagSet]. *)
Definition flag {A} (c : M A) : L A := λ s,
  let put (m : machine) :=
    mkState (heap m)
      (mkFlagfigSet (flagSetOf m) (configFilePaths (self s)) (fileConfigurations (self s))
         (envNames (self s)) (stringValues (self s)))
      (log s) in
  match c (flagMachine (mem s) (FlagSet_ (self s))) with
  | Returned a m => Ret a (put m)
  | Panicked v m => Panic v (put m)
  | Exited n m => Exit n (put m)
  end.

Definition NewFlagfigSet (name : string) (errorHandling : ErrorHandling) : state :=
  mkState [] (mkFlagfigSet (mkFlagSet name false ∅ ∅ [] errorHandling) [] None ∅ ∅) [].

(** [AddConfigFile]. *)
Definition AddConfigFile (name usage : string) : L loc :=
  p ← new (stringValue "");
  modify_self (λ f, mkFlagfigSet (FlagSet_ f) (configFilePaths f ++ [p])
                      (fileConfigurations f) (envNames f) (stringValues f));;
  flag (FlagSet_XVar p name (stringValue "") usage);;
  mret p.

(** [String]: the variable and the environment-variable name are recorded
    for a name that has none; [StringVar] stores the default through the
    variable of the name and registers the flag. *)
Definition String (name defaultValue envName usage : string) : L loc :=
  values ← get (λ s, stringValues (self s));
  match values !! name with
  | Some _ => mret tt
  | None =>
      p ← new (stringValue "");
      modify_self (λ f, mkFlagfigSet (FlagSet_ f) (configFilePaths f)
                          (fileConfigurations f) (envNames f)
                          (<[name := p]> (stringValues f)));;
      modify_self (λ f, mkFlagfigSet (FlagSet_ f) (configFilePaths f)
                          (fileConfigurations f) (<[name := envName]> (envNames f))
                          (stringValues f))
  end;;
  (* Finally, nothing else is left, use the *)
  values ← get (λ s, stringValues (self s));
  match values !! name with
  | Some p => flag (FlagSet_XVar p name (stringValue defaultValue) usage);; mret p
  | None => panic PanicNilDereference
  end.

(** The [switch v := val.(type)] for one [key, val] of the file [path]. *)
Definition fileEntry (path : string) (_ : unit) (entry : string * value) : L unit :=
  let '(key, val) := entry in
  match val with
  | VString v =>
      modify_self (λ f, set_fileConfigurations
                          (Some (<[key := v]> (default ∅ (fileConfigurations f)))) f)
  | _ => log_Printf (LogUnsupportedType val key path)
  end.

(** The body of the loop over [f.configFilePaths]. *)
Definition readConfigurationFile (os : OS) (_ : unit) (file : nat * loc) : L unit :=
  let '(i, filePath) := file in
  path ← load filePath;
  match path with
  | stringValue path =>
      if decide (String.length path ≠ 0) then
        match ReadFile os path with
        | inr err => panic (PanicError err)
        | inl dat =>
            match json_Unmarshal dat with
            | inr err =>
                (* Skip this file *)
                log_Printf (LogUnableToDecode path err)
            | inl jsonDat =>
                (* Process file's contents *)
                fold (fileEntry path) (range (2 + i) jsonDat) tt
            end
        end
      else mret tt
  | _ => panic PanicNilDereference
  end.

(** [readConfigurationFiles]: the files are read just once. *)
Definition readConfigurationFiles (os : OS) : L unit :=
  confs ← get (λ s, fileConfigurations (self s));
  match confs with
  | Some _ => mret tt
  | None =>
      modify_self (set_fileConfigurations (Some ∅));;
      paths ← get (λ s, configFilePaths (self s));
      fold (readConfigurationFile os) (imap (λ i p, (i, p)) paths) tt
  end.

(** [ConfigFileStringValue]: [(val, ok)] as an option. *)
Definition ConfigFileStringValue (os : OS) (name : string) : L (option string) :=
  readConfigurationFiles os;;
  confs ← get (λ s, fileConfigurations (self s));
  mret (default ∅ confs !! name).

(** The body of the loop of [Collate] over [unVisitedFlags]. *)
Definition collateEntry (os : OS) (_ : unit) (fl : option Flag) : L unit :=
  match fl with
  | None => panic PanicNilDereference
  | Some fl =>
      (* No value read from flag *)
      strVal ← ConfigFileStringValue os (Name fl);
      (* Find the Env value *)
      envNames ← get (λ s, envNames (self s));
      (* Blank envName means skip ENV lookup, for safety *)
      let strVal :=
        match envNames !! Name fl with
        | Some envName =>
            let envVal := Getenv os envName in
            if decide (String.length envVal ≠ 0) then Some envVal else strVal
        | None => strVal
        end in
      match strVal with
      | Some v =>
          (* Val never set, fallback to default *)
          values ← get (λ s, stringValues (self s));
          match values !! Name fl with
          | Some p => store p (stringValue v)
          | None => panic PanicNilDereference
          end
      | None => mret tt
      end
  end.

(** [Collate]. *)
Definition Collate (os : OS) : L unit :=
  let unVisitedFlags : list (option Flag) := [] in
  let allFlags : gmap string bool := ∅ in
  allFlags ← flag (FlagSet_VisitAll (λ fl allFlags, <[Name fl := false]> allFlags) allFlags);
  allFlags ← flag (FlagSet_Visit (λ fl allFlags, <[Name fl := true]> allFlags) allFlags);
  unVisitedFlags ←
    fold (λ unVisitedFlags '(name, visited),
            if negb visited : bool then
              fl ← flag (FlagSet_Lookup name);
              mret (unVisitedFlags ++ [fl])%list
            else mret unVisitedFlags)
         (range 0 allFlags) unVisitedFlags;
  fold (collateEntry os) unVisitedFlags tt.

(** [func (f *FlagfigSet)Parse( arguments []string ) (err error)]. *)
Definition Parse (os : OS) (arguments : list string) : L (option error) :=
  err ← flag (FlagSet_Parse arguments);
  match err with
  | None => Collate os;; mret None
  | Some _ => mret err
  end.

(** ** Specification vocabulary *)

(** The strings of a decoded file; the other values are skipped. *)
Definition strings (obj : gmap string value) : gmap string string :=
  omap (λ v, match v with VString x => Some x | _ => None end) obj.

(** The map that [readConfigurationFiles] builds: the strings of the
    files that decode, a later file before an earlier one. *)
Definition fileStrings (os : OS) (h : list cell) (paths : list loc) : gmap string string :=
  foldl (λ acc p, match fileAt os h p with
                  | Some obj => strings obj ∪ acc
                  | None => acc
                  end) ∅ paths.

(** A flag that was not passed on the command line. *)
Definition unvisited (s : state) (n : string) (fl : Flag) : Prop :=
  formal (FlagSet_ (self s)) !! n = Some fl ∧ actual (FlagSet_ (self s)) !! n = None.

(** The value [strVal] that [Collate] finds for the flag [n]: that of the
    environment when it is not empty, else that of the files. *)
Definition strVal (os : OS) (s : state) (n : string) : option string :=
  let fileVal := fileStrings os (mem s) (configFilePaths (self s)) !! n in
  match envNames (self s) !! n with
  | Some envName => if decide (Getenv os envName = "") then fileVal else Some (Getenv os envName)
  | None => fileVal
  end.

(** What [Collate] writes for one flag of its list, on the memory [h]. *)
Definition collated (os : OS) (s : state) (h : list cell) (o : option Flag) : list cell :=
  match o with
  | Some fl =>
      match strVal os s (Name fl), stringValues (self s) !! Name fl with
      | Some v, Some p => <[p := stringValue v]> h
      | _, _ => h
      end
  | None => h
  end.

(** The states that registration and parsing build. *)
Record wf (s : state) : Prop := mk_wf {
  wf_name : ∀ n fl, formal (FlagSet_ (self s)) !! n = Some fl → Name fl = n;
  wf_actual : ∀ n fl, actual (FlagSet_ (self s)) !! n = Some fl →
    formal (FlagSet_ (self s)) !! n = Some fl;
  wf_alloc : ∀ n p, stringValues (self s) !! n = Some p → is_Some (mem s !! p);
  wf_inj : ∀ n1 n2 p, stringValues (self s) !! n1 = Some p →
    stringValues (self s) !! n2 = Some p → n1 = n2;
  wf_paths : ∀ p, p ∈ configFilePaths (self s) → ∃ path, mem s !! p = Some (stringValue path)
}.

(** Every configured file can be read. *)
Definition filesReadable (os : OS) (s : state) : Prop :=
  ∀ p path, p ∈ configFilePaths (self s) → mem s !! p = Some (stringValue path) →
    path ≠ "" → is_Some (files os !! path).

End Program.

End Legacy.

(** * An application, for examples *)

(** The value [json.Unmarshal] gives for a number written [lit]. *)
Definition json_number (lit : string) : value := VFloat64 (strconv_ParseFloat lit).1.

(** The declarations of an application: two configuration files and some
    settings. *)
Definition app_settings : M (list loc) :=
  config ← AddConfigFile "config" "file path to configuration JSON file";
  override ← AddConfigFile "override" "file path to a second JSON file";
  name ← String "name" "default" "" "name of the service";
  host ← String "host" "" "HOST_ENV" "host to connect to";
  count ← Int "count" 1 "COUNT_ENV" "number of workers";
  timeout ← Duration "timeout" 1 "" "time to wait";
  ratio ← Float64 "ratio" (strconv_ParseFloat "0.5").1 "" "sampling ratio";
  mode ← String "mode" "fast" "" "mode of operation";
  mret [config; override; name; host; count; timeout; ratio; mode].

Definition app_before_verbose : machine :=
  final (app_settings (NewFlagfigSet "app" ContinueOnError)).

Definition app_registered : machine :=
  final (Bool "verbose" true "VERBOSE_ENV" "log more" app_before_verbose).

Definition app_args : list string :=
  ["-config=/etc/app.json"; "-override=/etc/override.json"; "-name=explicit"].

(** The application after its command line is parsed. *)
Definition app_parsed : machine :=
  final (FlagSet_Parse (sc := go_strconv) app_args app_registered).

Definition app_json : gmap string value :=
  list_to_map [("name", VString "filevalue"); ("host", VString "filehost");
               ("count", json_number "1234"); ("timeout", json_number "30000000000");
               ("ratio", json_number "0.0000001"); ("mode", VBool true)].

Definition override_json : gmap string value :=
  list_to_map [("count", json_number "5678"); ("host", json_number "5")].

Definition app_files : gmap string data :=
  {[ "/etc/app.json" := JSONObject app_json;
     "/etc/override.json" := JSONObject override_json ]}.

(** Three environments for the same files. *)
Definition os_db : OS := mkOS {[ "HOST_ENV" := "db.local" ]} app_files.
Definition os_bad_count : OS := mkOS {[ "COUNT_ENV" := "abc" ]} app_files.
Definition os_no_env : OS := mkOS ∅ app_files.

(** The same files, with the first one damaged in three ways: it does not
    decode, it is missing, it holds a null. *)
Definition os_undecodable : OS := mkOS ∅ (<["/etc/app.json" := NotJSON]> app_files).
Definition os_missing : OS := mkOS ∅ (delete "/etc/app.json" app_files).
Definition os_null : OS :=
  mkOS ∅ (<["/etc/app.json" := JSONObject {[ "count" := VNil ]}]> app_files).

(** Two nested configurations, after the example in nester.go: the server
    configuration asks for both names after parsing; the inner one has
    the [AfterParsed] of [NesterBase]. On a machine that has allocated
    nothing, [firstName] and [lastName] are the variables 0 and 1. *)
Definition server_config : Nester :=
  mkNester
    (String "firstName" "Chris" "FIRST_NAME" "what do people call you?";;
     String "lastName" "" "LAST_NAME" "your last name?";;
     mret tt)
    (firstName ← load 0%nat;
     lastName ← load 1%nat;
     match firstName, lastName with
     | stringValue f, stringValue l =>
         if decide (String.length f = 0 ∨ String.length l = 0)%nat
         then mret (Some (errorString "you do not get in until you tell me your name"))
         else mret None
     | _, _ => panic PanicNilDereference
     end).

Definition inner_config : Nester :=
  mkNester
    (String "myCoolString" "ice cold, baby" "COOL_STRING" "a very groovy string";;
     Int "mySecretNumber" 42 "SECRET_NUMBER" "the answer to everything";;
     mret tt)
    NesterBase_AfterParsed.

(** An environment in which two settings of the application have a value,
    one of which does not convert. *)
Definition os_two : OS :=
  mkOS {[ "COUNT_ENV" := "abc"; "HOST_ENV" := "db.local" ]} app_files.

(** The two nested configurations registered on a new [FlagfigSet], and
    parsed on a command line that gives the first name only. *)
Definition nested_registered : machine :=
  final (fold (λ _ nc, RegisterFlags nc) [server_config; inner_config] tt
           (NewFlagfigSet "" ContinueOnError)).

Definition nested_parsed : machine :=
  final (Parse (sc := go_strconv) (mr := go_range) os_no_env ["-firstName=Ada"]
           nested_registered).

(** A registry with one Uint64 setting. *)
Definition pool_registered : machine :=
  final (Uint64 "size" 7 "" "size of the pool" (NewFlagfigSet "pool" ContinueOnError)).

(** The environment of a quiet run. *)
Definition os_quiet : OS := mkOS {[ "VERBOSE_ENV" := "false" ]} app_files.

(** An application with three configuration files, of which the command
    line gives the first two; the second file names the flag of the
    third. *)
Definition chain_settings : M (list loc) :=
  base ← AddConfigFile "base" "file path to the base JSON file";
  site ← AddConfigFile "site" "file path to the JSON file of the site";
  extra ← AddConfigFile "extra" "file path to one more JSON file";
  count ← Int "count" 1 "" "number of workers";
  verbose ← Bool "verbose" true "" "log more";
  mret [base; site; extra; count; verbose].

Definition chain_registered : machine :=
  final (chain_settings (NewFlagfigSet "chain" ContinueOnError)).

Definition chain_args : list string :=
  ["-base=/etc/base.json"; "-site=/etc/site.json"].

Definition chain_parsed : machine :=
  final (FlagSet_Parse (sc := go_strconv) chain_args chain_registered).

Definition base_json : gmap string value :=
  list_to_map [("count", json_number "1234")].

Definition site_json : gmap string value :=
  list_to_map [("count", json_number "5678"); ("extra", VString "/etc/extra.json")].

Definition extra_json : gmap string value :=
  list_to_map [("count", json_number "42"); ("verbose", VBool false)].

Definition os_chain : OS :=
  mkOS ∅ {[ "/etc/base.json" := JSONObject base_json;
            "/etc/site.json" := JSONObject site_json;
            "/etc/extra.json" := JSONObject extra_json ]}.

(** An application on the first version of the package: one
    configuration file and three settings; the command line gives the file
    and [name]. *)
Definition legacy_settings : Legacy.L unit :=
  Legacy.AddConfigFile "config" "file path to configuration JSON file";;
  Legacy.String "host" "localhost" "HOST_ENV" "host to connect to";;
  Legacy.String "name" "default" "" "name of the service";;
  Legacy.String "port" "80" "PORT_ENV" "port to connect to";;
  mret tt.

Definition legacy_registered : Legacy.state :=
  Legacy.final (legacy_settings (Legacy.NewFlagfigSet "old" ContinueOnError)).

Definition legacy_parsed : Legacy.state :=
  Legacy.final (Legacy.flag (FlagSet_Parse (sc := go_strconv)
                               ["-config=/etc/app.json"; "-name=explicit"])
                  legacy_registered).

(** An application on the first version of the package with two
    configuration files; the command line gives the first, whose file
    names the flag of the second. *)
Definition legacy_chain_settings : Legacy.L unit :=
  Legacy.AddConfigFile "site" "file path to the JSON file of the site";;
  Legacy.AddConfigFile "extra" "file path to one more JSON file";;
  Legacy.String "host" "localhost" "HOST_ENV" "host to connect to";;
  mret tt.

Definition legacy_chain_parsed : Legacy.state :=
  Legacy.final (Legacy.flag (FlagSet_Parse (sc := go_strconv) ["-site=/etc/site.json"])
                  (Legacy.final (legacy_chain_settings
                                   (Legacy.NewFlagfigSet "old" ContinueOnError)))).

(** * Proofs *)

Section Proofs.
Context {sc : Strconv} {mr : MapRange}.

(** ** The monad *)

Lemma bind_Returned {A B} (c : M A) (k : A → M B) m b m' :
  (c ≫= k) m = Returned b m' ↔ ∃ a m1, c m = Returned a m1 ∧ k a m1 = Returned b m'.
Proof.
  unfold mbind, M_bind. destruct (c m) as [a m1|v m1|n m1]; split.
  - eauto.
  - by intros (? & ? & [= <- <-] & ?).
  - done.
  - by intros (? & ? & ? & ?).
  - done.
  - by intros (? & ? & ? & ?).
Qed.

Lemma bind_eq_Returned {A B} (c : M A) (k : A → M B) m a m1 :
  c m = Returned a m1 → (c ≫= k) m = k a m1.
Proof. unfold mbind, M_bind. by intros ->. Qed.

Lemma final_bind {A B} (c : M A) (k : A → M B) m :
  final ((c ≫= k) m) = final (c m) ∨
  ∃ a m1, c m = Returned a m1 ∧ final ((c ≫= k) m) = final (k a m1).
Proof.
  unfold mbind, M_bind. destruct (c m) as [a m1|v m1|n m1]; eauto.
Qed.

Lemma fold_cons {A S} (f : S → A → M S) x l s :
  fold f (x :: l) s = f s x ≫= λ s', fold f l s'.
Proof. done. Qed.

(** A loop whose body always returns, writes no variable and only updates
    its local variables is a [foldl]. *)
Lemma fold_pure {A S} (f : S → A → M S) (g : S → A → S) l s m :
  (∀ s x, f s x m = Returned (g s x) m) →
  fold f l s m = Returned (foldl g s l) m.
Proof.
  intros Hf. revert s. induction l as [|x l IH]; intros s; simpl; [done|].
  rewrite (bind_eq_Returned _ _ _ _ _ (Hf s x)). apply IH.
Qed.

(** ** Kinds *)

Lemma convert_kind c s : kindOf (convert c s).1 = kindOf c.
Proof.
  destruct c; simpl; try done;
    match goal with |- context [let '(_, _) := ?p in _] => destruct p end; done.
Qed.

(** The conversion looks at the kind of the cell only. *)
Lemma convert_same_kind c c' s : kindOf c = kindOf c' → convert c s = convert c' s.
Proof. by destruct c, c'. Qed.

Lemma applyValue_kind ty c v : kindOf (applyValue ty c v) = kindOf c.
Proof. unfold applyValue. destruct (render ty v); [apply convert_kind|done]. Qed.

Lemma applyValue_same_kind ty c c' v s :
  render ty v = Some s → kindOf c = kindOf c' → applyValue ty c v = applyValue ty c' v.
Proof. unfold applyValue. intros -> Hk. by rewrite (convert_same_kind c c'). Qed.

(** ** [evolves] is a preorder that keeps [wf] *)

Lemma evolves_refl m : evolves m m.
Proof. split; eauto. Qed.

Lemma evolves_trans m1 m2 m3 : evolves m1 m2 → evolves m2 m3 → evolves m1 m3.
Proof.
  intros [] []. split; try congruence.
  - intros n fl H3. destruct (ev_actual1 n fl H3) as [H2|H2].
    + by apply ev_actual0.
    + right. congruence.
  - intros p c Hp. destruct (ev_kind0 p c Hp) as (c' & Hc' & Hk).
    destruct (ev_kind1 p c' Hc') as (c'' & Hc'' & Hk'). exists c''. split; congruence.
Qed.

Lemma evolves_wf m m' : wf m → evolves m m' → wf m'.
Proof.
  intros [] []. split.
  - intros n fl. rewrite ev_formal0. eauto.
  - intros n fl Ha. rewrite ev_formal0. destruct (ev_actual0 n fl Ha); eauto.
  - intros n fl. rewrite ev_formal0. intros Hf.
    destruct (wf_alloc0 n fl Hf) as [c Hc].
    destruct (ev_kind0 _ _ Hc) as (c' & -> & _). eauto.
  - intros n1 n2 f1 f2. rewrite ev_formal0. eauto.
  - intros n ty fl c'. rewrite ev_flagTypes0, ev_formal0. intros Ht Hf Hc'.
    destruct (wf_alloc0 n fl Hf) as [c Hc].
    destruct (ev_kind0 _ _ Hc) as (c'' & Hc'' & Hk).
    rewrite Hc' in Hc''. injection Hc'' as <-. rewrite Hk. eauto.
  - intros n ty. rewrite ev_flagTypes0, ev_formal0. eauto.
  - intros p. rewrite ev_configFilePaths0. intros Hp.
    destruct (wf_paths0 p Hp) as [s Hs].
    destruct (ev_kind0 _ _ Hs) as (c' & Hc' & Hk).
    destruct c'; try done. eauto.
Qed.

Lemma evolves_unvisited m m' n fl :
  evolves m m' → unvisited m' n fl → formal (FS m) !! n = Some fl.
Proof. intros [] [Hf _]. congruence. Qed.

(** ** [Set] *)

(** [Set] on a defined flag returns the error of the conversion, stores
    the conversion's value and, without error, marks the flag as set. *)
Lemma FlagSet_Set_spec m name v fl c :
  formal (FS m) !! name = Some fl → heap m !! Value fl = Some c →
  ∃ m', FlagSet_Set name v m = Returned (convert c v).2 m'
      ∧ heap m' = <[Value fl := (convert c v).1]> (heap m)
      ∧ logged m' = logged m
      ∧ evolves m m'
      ∧ actual (FS m') = match (convert c v).2 with
                         | None => <[name := fl]> (actual (FS m))
                         | Some _ => actual (FS m)
                         end.
Proof.
  intros Hf Hc. unfold FlagSet_Set, get, mbind, M_bind. fold (FS m). rewrite Hf.
  unfold Value_Set, load, mbind, M_bind. rewrite Hc.
  destruct (convert c v) as [c' err] eqn:Hcv. simpl.
  assert (Hk : kindOf c' = kindOf c) by (by rewrite <- (convert_kind c v), Hcv).
  assert (Hev : ∀ p c0, heap m !! p = Some c0 →
            ∃ c1, <[Value fl := c']> (heap m) !! p = Some c1 ∧ kindOf c1 = kindOf c0).
  { intros p c0 Hp. destruct (decide (p = Value fl)) as [->|Hne].
    - exists c'. rewrite list_lookup_insert_eq by (by eapply lookup_lt_Some).
      split; [done|]. congruence.
    - exists c0. by rewrite list_lookup_insert_ne. }
  destruct err as [e|]; simpl.
  - eexists. split; [done|]. simpl. split; [done|]. split; [done|].
    split; [|done]. split; simpl; eauto.
  - eexists. split; [done|]. simpl. split; [done|]. split; [done|].
    split; [|done]. split; simpl; eauto.
    intros n fl'. unfold FS. simpl. fold (FS m).
    destruct (decide (name = n)) as [->|Hne].
    + rewrite lookup_insert_eq. intros [= <-]. by right.
    + rewrite lookup_insert_ne by done. by left.
Qed.

(** ** Loops and invariants *)

Lemma fold_final_inv {A S} (I : machine → Prop) (f : S → A → M S) l :
  (∀ s x m, I m → I (final (f s x m))) →
  ∀ s m, I m → I (final (fold f l s m)).
Proof.
  intros Hf. induction l as [|x l IH]; intros s m Hm; simpl; [done|].
  destruct (final_bind (f s x) (λ s', fold f l s') m) as [->|(s' & m1 & H1 & ->)].
  - by apply Hf.
  - apply IH. specialize (Hf s x m Hm). by rewrite H1 in Hf.
Qed.

Lemma fold_Returned_inv {A S} (I : machine → Prop) (f : S → A → M S) l :
  (∀ s x m s' m', I m → f s x m = Returned s' m' → I m') →
  ∀ s m s' m', I m → fold f l s m = Returned s' m' → I m'.
Proof.
  intros Hf. induction l as [|x l IH]; intros s m s' m' Hm; simpl.
  - by intros [= _ <-].
  - intros (s1 & m1 & H1 & H2)%bind_Returned. eauto.
Qed.

(** ** The flags [Collate] may write *)

Lemma unvisitedFlags_lookup m n o :
  unvisitedFlags m !! n = Some o ↔ ∃ fl, o = Some fl ∧ unvisited m n fl.
Proof.
  unfold unvisitedFlags, unvisited. rewrite lookup_fmap, fmap_Some. split.
  - intros (fl & (Hf & Ha)%map_lookup_filter_Some & ->). eauto.
  - intros (fl & -> & Hf & Ha). exists fl. split; [|done].
    by apply map_lookup_filter_Some.
Qed.

Lemma unvisitedFlags_None m n :
  unvisitedFlags m !! n = None ↔ ∀ fl, ¬ unvisited m n fl.
Proof.
  split.
  - intros Hn fl Hu.
    assert (unvisitedFlags m !! n = Some (Some fl)) as Hs
      by (apply unvisitedFlags_lookup; eauto).
    congruence.
  - intros Hn. destruct (unvisitedFlags m !! n) as [o|] eqn:Ho; [|done].
    apply unvisitedFlags_lookup in Ho as (fl & _ & Hu). by destruct (Hn fl).
Qed.

Lemma inv_refl m0 : inv m0 m0.
Proof. split; [apply evolves_refl|done]. Qed.

Lemma inv_step m0 m m' :
  inv m0 m → evolves m m' →
  (∀ p, ¬ writable m0 p → heap m' !! p = heap m !! p) → inv m0 m'.
Proof.
  intros [Hev Hfr] Hev' Hfr'. split; [by eapply evolves_trans|].
  intros p Hp. rewrite Hfr' by done. by apply Hfr.
Qed.

(** The cell of a defined flag, in a state of the run. *)
Lemma inv_cell m0 m n fl :
  wf m0 → inv m0 m → formal (FS m0) !! n = Some fl →
  formal (FS m) !! n = Some fl ∧ ∃ c, heap m !! Value fl = Some c.
Proof.
  intros Hwf [Hev _] Hf. split; [by rewrite (ev_formal _ _ Hev)|].
  destruct (wf_alloc _ Hwf n fl Hf) as [c Hc].
  destruct (ev_kind _ _ Hev _ _ Hc) as (c' & Hc' & _). eauto.
Qed.

Lemma declaredKind_evolves m0 m n : evolves m0 m → declaredKind m n = declaredKind m0 n.
Proof. intros Hev. unfold declaredKind. by rewrite (ev_flagTypes _ _ Hev). Qed.

(** ** The switch on the type of a value *)

Lemma setFromFile_render key v m :
  setFromFile key v m =
  if supported v then
    match render (declaredKind m key) v with
    | Some s => (FlagSet_Set key s;; mret tt) m
    | None => Returned tt m
    end
  else log_Fatalf (LogUnsupportedType v) m.
Proof.
  destruct v as [|[]| | | | | | | |]; try reflexivity.
  simpl. unfold get, mbind at 1, M_bind at 1, declaredKind.
  by destruct (default intType _).
Qed.

(** One value of a file, for a flag that is defined. *)
Lemma setFromFile_spec m key v fl c :
  formal (FS m) !! key = Some fl → heap m !! Value fl = Some c →
  if supported v then
    ∃ m', setFromFile key v m = Returned tt m'
        ∧ heap m' = <[Value fl := applyValue (declaredKind m key) c v]> (heap m)
        ∧ logged m' = logged m
        ∧ evolves m m'
  else
    setFromFile key v m
    = Exited 1 (mkMachine (heap m) (this m) (logged m ++ [LogUnsupportedType v])).
Proof.
  intros Hf Hc. rewrite setFromFile_render. destruct (supported v); [|done].
  unfold applyValue. destruct (render _ v) as [s|].
  - destruct (FlagSet_Set_spec m key s fl c Hf Hc) as (m' & Hset & Hh & Hl & Hev & _).
    exists m'. by rewrite (bind_eq_Returned _ _ _ _ _ Hset).
  - exists m. rewrite list_insert_id by done. eauto using evolves_refl.
Qed.

(** ** One file: the loop over its entries *)

Section Run.
(** A run of [Collate] from the state [m0]. *)
Variable m0 : machine.
Hypothesis Hwf : wf m0.

Lemma writable_unvisited n fl : unvisited m0 n fl → writable m0 (Value fl).
Proof. intros Hu. by exists n, fl. Qed.

(** Two flags that were not passed share no variable. *)
Lemma unvisited_inj n1 n2 f1 f2 :
  unvisited m0 n1 f1 → unvisited m0 n2 f2 → Value f1 = Value f2 → n1 = n2.
Proof. intros [H1 _] [H2 _]. by apply (wf_inj _ Hwf). Qed.

Lemma fileEntry_cases m k v :
  inv m0 m →
  (unvisitedFlags m0 !! k = None ∧ fileEntry (unvisitedFlags m0) tt (k, v) m = Returned tt m) ∨
  (∃ fl c, unvisited m0 k fl ∧ heap m !! Value fl = Some c ∧
     if supported v then
       ∃ m', fileEntry (unvisitedFlags m0) tt (k, v) m = Returned tt m'
           ∧ heap m' = <[Value fl := applyValue (declaredKind m0 k) c v]> (heap m)
           ∧ logged m' = logged m
           ∧ inv m0 m'
     else
       fileEntry (unvisitedFlags m0) tt (k, v) m
       = Exited 1 (mkMachine (heap m) (this m) (logged m ++ [LogUnsupportedType v]))).
Proof.
  intros Hinv. unfold fileEntry.
  destruct (unvisitedFlags m0 !! k) as [o|] eqn:HU; [right|by left].
  apply unvisitedFlags_lookup in HU as (fl & -> & Hu).
  destruct (inv_cell m0 m k fl Hwf Hinv (proj1 Hu)) as (Hf & c & Hc).
  exists fl, c. split; [done|]. split; [done|].
  pose proof (setFromFile_spec m k v fl c Hf Hc) as Hspec.
  destruct (supported v); [|done].
  destruct Hspec as (m' & Hret & Hh & Hl & Hev).
  exists m'. rewrite <- (declaredKind_evolves m0 m k (proj1 Hinv)).
  split; [done|]. split; [done|]. split; [done|].
  apply (inv_step m0 m m' Hinv Hev). intros p Hp. rewrite Hh.
  apply list_lookup_insert_ne. intros <-. apply Hp. by eapply writable_unvisited.
Qed.

(** Whatever the outcome, the entries of a file write only variables of
    flags that were not passed. *)
Lemma fileEntry_final m k v o :
  inv m0 m → inv m0 (final (fileEntry (unvisitedFlags m0) o (k, v) m)).
Proof.
  intros Hinv. destruct o.
  destruct (fileEntry_cases m k v Hinv) as [[_ ->]|(fl & c & Hu & Hc & H)]; [done|].
  destruct (supported v).
  - by destruct H as (m' & -> & _ & _ & Hinv').
  - rewrite H. simpl. destruct Hinv as [Hev Hfr]. split; [|done].
    destruct Hev. by split.
Qed.

Lemma entries_final l m :
  inv m0 m → inv m0 (final (fold (fileEntry (unvisitedFlags m0)) l tt m)).
Proof.
  apply (fold_final_inv (inv m0)). intros s [k v] m1. apply fileEntry_final.
Qed.

(** When the loop over the entries returns: every value it met for a flag
    that was not passed is supported and was applied to the flag's cell;
    the other variables are as before; nothing was logged. *)
Lemma entries_Returned l : NoDup l.*1 →
  ∀ m m', inv m0 m →
  fold (fileEntry (unvisitedFlags m0)) l tt m = Returned tt m' →
  inv m0 m' ∧ logged m' = logged m
  ∧ (∀ p, (∀ k v fl, (k, v) ∈ l → unvisited m0 k fl → Value fl ≠ p) →
          heap m' !! p = heap m !! p)
  ∧ (∀ k v fl c, (k, v) ∈ l → unvisited m0 k fl → heap m !! Value fl = Some c →
          heap m' !! Value fl = Some (applyValue (declaredKind m0 k) c v)
          ∧ supported v = true).
Proof.
  induction l as [|[k v] l IH]; intros Hnd m m' Hinv; [simpl|rewrite fold_cons].
  - intros [= <-]. split; [done|]. split; [done|]. split; [done|].
    intros k v fl c Hin. by apply not_elem_of_nil in Hin.
  - apply NoDup_cons in Hnd as [Hk Hnd].
    intros (u & m1 & H1 & H2)%bind_Returned. destruct u.
    assert (Hstep : inv m0 m1 ∧ logged m1 = logged m ∧
              ((unvisitedFlags m0 !! k = None ∧ m1 = m) ∨
               (∃ fl c, unvisited m0 k fl ∧ heap m !! Value fl = Some c ∧
                  supported v = true ∧
                  heap m1 = <[Value fl := applyValue (declaredKind m0 k) c v]> (heap m)))).
    { destruct (fileEntry_cases m k v Hinv) as [[HU Hr]|(fl & c & Hu & Hc & H)].
      - rewrite Hr in H1. injection H1 as <-. eauto.
      - destruct (supported v) eqn:Hs.
        + destruct H as (m1' & Hr & Hh & Hl & Hinv'). rewrite Hr in H1.
          injection H1 as <-. split; [done|]. split; [done|]. right. eauto 10.
        + by rewrite H in H1. }
    destruct Hstep as (Hinv1 & Hl1 & Hstep).
    destruct (IH Hnd m1 m' Hinv1 H2) as (Hinv' & Hl' & Hfr & Htr).
    split; [done|]. split; [congruence|]. split.
    + intros p Hp. rewrite Hfr by (intros; eapply Hp; [by right|done]).
      destruct Hstep as [[_ ->]|(fl & c & Hu & Hc & _ & ->)]; [done|].
      apply list_lookup_insert_ne. eapply Hp; [by left|done].
    + intros k' v' fl' c' [[= -> ->]|Hin]%elem_of_cons Hu' Hc'.
      * destruct Hstep as [[HU _]|(fl & c & Hu & Hc & Hs & Hh)].
        { by destruct (proj1 (unvisitedFlags_None m0 k) HU fl'). }
        assert (fl = fl') as -> by (destruct Hu, Hu'; congruence).
        assert (c = c') as -> by congruence.
        split; [|done]. rewrite Hfr.
        -- rewrite Hh. apply list_lookup_insert_eq. by eapply lookup_lt_Some.
        -- intros k2 v2 fl2 Hin2 Hu2 Heq. apply Hk.
           rewrite <- (unvisited_inj k2 k fl2 fl' Hu2 Hu' Heq).
           apply list_elem_of_fmap. by exists (k2, v2).
      * assert (k ≠ k') as Hne.
        { intros ->. apply Hk. apply list_elem_of_fmap. by exists (k', v'). }
        apply (Htr k' v' fl' c' Hin Hu').
        destruct Hstep as [[_ ->]|(fl & c & Hu & Hc & _ & ->)]; [done|].
        rewrite list_lookup_insert_ne; [done|].
        intros Heq. by apply Hne, (unvisited_inj k k' fl fl' Hu Hu').
Qed.

(** The loop returns when every value for a flag that was not passed is
    supported. *)
Lemma entries_progress l m :
  inv m0 m →
  (∀ k v, (k, v) ∈ l → is_Some (unvisitedFlags m0 !! k) → supported v = true) →
  ∃ m', fold (fileEntry (unvisitedFlags m0)) l tt m = Returned tt m'.
Proof.
  revert m. induction l as [|[k v] l IH]; intros m Hinv Hsup; [by eexists|].
  rewrite fold_cons.
  destruct (fileEntry_cases m k v Hinv) as [[HU Hr]|(fl & c & Hu & Hc & H)].
  - rewrite (bind_eq_Returned _ _ _ _ _ Hr). apply IH; [done|].
    intros k' v' Hin. apply Hsup. by right.
  - rewrite (Hsup k v) in H.
    + destruct H as (m1 & Hr & _ & _ & Hinv1).
      rewrite (bind_eq_Returned _ _ _ _ _ Hr). apply IH; [done|].
      intros k' v' Hin. apply Hsup. by right.
    + by left.
    + exists (Some fl). apply unvisitedFlags_lookup. eauto.
Qed.

(** The loop ends in [log.Fatalf] when some value for a flag that was not
    passed is not supported. *)
Lemma entries_fatal l m k v :
  inv m0 m → (k, v) ∈ l → is_Some (unvisitedFlags m0 !! k) → supported v = false →
  ∃ m' v', fold (fileEntry (unvisitedFlags m0)) l tt m = Exited 1 m'
         ∧ supported v' = false
         ∧ logged m' = (logged m ++ [LogUnsupportedType v'])%list.
Proof.
  revert m. induction l as [|[k1 v1] l IH]; intros m Hinv Hin HU Hs.
  { by apply not_elem_of_nil in Hin. }
  rewrite fold_cons. destruct (fileEntry_cases m k1 v1 Hinv) as [[HU1 Hr]|(fl & c & Hu & Hc & H)].
  - rewrite (bind_eq_Returned _ _ _ _ _ Hr). apply IH; [done| |done|done].
    apply elem_of_cons in Hin as [[= -> ->]|Hin]; [|done].
    rewrite HU1 in HU. by destruct HU.
  - destruct (supported v1) eqn:Hs1.
    + destruct H as (m1 & Hr & _ & Hl & Hinv1).
      rewrite (bind_eq_Returned _ _ _ _ _ Hr).
      apply elem_of_cons in Hin as [[= -> ->]|Hin]; [congruence|].
      destruct (IH m1 Hinv1 Hin HU Hs) as (m' & v' & ? & ? & ?).
      exists m', v'. split; [done|]. split; [done|]. congruence.
    + exists (mkMachine (heap m) (this m) (logged m ++ [LogUnsupportedType v1])), v1.
      unfold mbind, M_bind. by rewrite H.
Qed.

(** ** The loop over the configuration files *)

Variable os : OS.

Lemma length_zero_iff_empty (s : string) : String.length s = 0 ↔ s = "".
Proof. by destruct s. Qed.

Lemma range_NoDup {A} i (m : gmap string A) : NoDup (range i m).*1.
Proof. rewrite range_perm. apply NoDup_fst_map_to_list. Qed.

Lemma elem_of_range {A} i (m : gmap string A) k x : (k, x) ∈ range i m ↔ m !! k = Some x.
Proof. rewrite range_perm. apply elem_of_map_to_list. Qed.

(** What the body of the loop does, by the file behind the path. *)
Lemma readConfigurationFile_cases U i p m path :
  heap m !! p = Some (stringValue path) →
  readConfigurationFile os U tt (i, p) m =
  if decide (path = "") then Returned tt m
  else match files os !! path with
       | None => Panicked (PanicError (PathError path)) m
       | Some NotJSON =>
           Returned tt (mkMachine (heap m) (this m)
             (logged m ++ [LogUnableToDecode path (errorString "invalid JSON")]))
       | Some (JSONObject jsonDat) => fold (fileEntry U) (range (2 + i) jsonDat) tt m
       end.
Proof.
  intros Hp. unfold readConfigurationFile, load, mbind, M_bind. rewrite Hp.
  destruct (decide (String.length path ≠ 0)) as [Hl|Hl];
    destruct (decide (path = "")) as [->|Hne]; try done.
  - unfold ReadFile. by destruct (files os !! path) as [[|obj]|].
  - destruct Hne. apply length_zero_iff_empty.
    destruct (decide (String.length path = 0)); [done|by destruct Hl].
Qed.

Lemma inv_path m p :
  inv m0 m → p ∈ configFilePaths (this m0) → ∃ path, heap m !! p = Some (stringValue path).
Proof.
  intros [Hev _] Hp. apply (wf_paths m (evolves_wf _ _ Hwf Hev)).
  by rewrite (ev_configFilePaths _ _ Hev).
Qed.

Lemma inv_log m l : inv m0 m → inv m0 (mkMachine (heap m) (this m) l).
Proof. intros [[] Hfr]. split; [by split|done]. Qed.

Lemma readConfigurationFile_final i p m o :
  inv m0 m → p ∈ configFilePaths (this m0) →
  inv m0 (final (readConfigurationFile os (unvisitedFlags m0) o (i, p) m)).
Proof.
  intros Hinv Hp. destruct o. destruct (inv_path m p Hinv Hp) as [path Hpath].
  rewrite (readConfigurationFile_cases _ i p m path Hpath).
  destruct (decide (path = "")); [done|].
  destruct (files os !! path) as [[|obj]|]; simpl; [by apply inv_log| |done].
  by apply entries_final.
Qed.

Lemma files_final ps m :
  inv m0 m → (∀ i p, (i, p) ∈ ps → p ∈ configFilePaths (this m0)) →
  inv m0 (final (fold (readConfigurationFile os (unvisitedFlags m0)) ps tt m)).
Proof.
  revert m. induction ps as [|[i p] ps IH]; intros m Hinv Hps; [done|].
  rewrite fold_cons.
  destruct (final_bind (readConfigurationFile os (unvisitedFlags m0) tt (i, p))
              (λ s', fold (readConfigurationFile os (unvisitedFlags m0)) ps s') m)
    as [->|([] & m1 & H1 & ->)].
  - apply readConfigurationFile_final; [done|]. apply (Hps i). by left.
  - apply IH.
    + pose proof (readConfigurationFile_final i p m tt Hinv) as Hf.
      rewrite H1 in Hf. apply Hf, (Hps i). by left.
    + intros i' p' Hin. apply (Hps i'). by right.
Qed.

Hypothesis Hkeeps : no_redirection os m0.

(** One file, when the body returns. [fileAt] is the object it applied. *)
Lemma readConfigurationFile_Returned i p m m' :
  inv m0 m → paths_kept m0 m → p ∈ configFilePaths (this m0) →
  readConfigurationFile os (unvisitedFlags m0) tt (i, p) m = Returned tt m' →
  inv m0 m' ∧ paths_kept m0 m' ∧ fileOK os m0 p
  ∧ (∀ n fl c, unvisited m0 n fl → heap m !! Value fl = Some c →
       heap m' !! Value fl
       = Some (match fileAt os (heap m0) p ≫= (λ obj, obj !! n) with
               | Some v => applyValue (declaredKind m0 n) c v
               | None => c
               end)).
Proof.
  intros Hinv Hkept Hp. destruct (inv_path m p Hinv Hp) as [path Hpath].
  rewrite (readConfigurationFile_cases _ i p m path Hpath).
  assert (Hpath0 : heap m0 !! p = Some (stringValue path)) by (by rewrite <- Hkept).
  unfold fileAt, fileOK. rewrite Hpath0.
  destruct (decide (path = "")) as [->|Hne].
  { intros [= <-]. split; [done|]. split; [done|]. split; [eauto|].
    intros n fl c _ ->. by destruct (files os !! "") as [[]|]. }
  destruct (files os !! path) as [[|obj]|] eqn:Hfile; [| |done].
  { intros [= <-]. split; [by apply inv_log|]. split; [done|]. split; [eauto|].
    intros n fl c _ Hc. simpl. by rewrite Hc. }
  intros Hret.
  destruct (entries_Returned _ (range_NoDup (2 + i) obj) m m' Hinv Hret)
    as (Hinv' & _ & Hfr & Htr).
  split; [done|]. split; [|split].
  - intros p' Hp'. rewrite <- (Hkept p' Hp'). apply Hfr.
    intros k v fl Hin Hu <-. apply elem_of_range in Hin.
    assert (Hat : fileAt os (heap m0) p = Some obj).
    { unfold fileAt. rewrite Hpath0, Hfile. by rewrite decide_False. }
    apply (Hkeeps p obj k fl Hp Hat); [by eexists|done|done].
  - exists path. split; [done|]. right. right. exists obj. split; [done|].
    intros k v Hk [o HU]. apply unvisitedFlags_lookup in HU as (fl & -> & Hu).
    destruct (inv_cell m0 m k fl Hwf Hinv (proj1 Hu)) as (_ & c & Hc).
    by eapply Htr; [apply elem_of_range|..].
  - intros n fl c Hu Hc. simpl. destruct (obj !! n) as [v|] eqn:Hn.
    + by eapply Htr; [apply elem_of_range|..].
    + rewrite <- Hc. apply Hfr. intros k v fl' Hin Hu' Heq.
      apply elem_of_range in Hin.
      rewrite (unvisited_inj k n fl' fl Hu' Hu Heq) in Hin. congruence.
Qed.

(** The loop over the files, when it returns: each flag that was not passed
    went through the values the files give for it, in order. *)
Lemma files_Returned ps : ∀ m m',
  inv m0 m → paths_kept m0 m → (∀ i p, (i, p) ∈ ps → p ∈ configFilePaths (this m0)) →
  fold (readConfigurationFile os (unvisitedFlags m0)) ps tt m = Returned tt m' →
  inv m0 m' ∧ paths_kept m0 m'
  ∧ (∀ i p, (i, p) ∈ ps → fileOK os m0 p)
  ∧ (∀ n fl c, unvisited m0 n fl → heap m !! Value fl = Some c →
       heap m' !! Value fl
       = Some (foldl (applyValue (declaredKind m0 n)) c
                 (omap (λ p, fileAt os (heap m0) p ≫= (λ obj, obj !! n)) ps.*2))).
Proof.
  induction ps as [|[i p] ps IH]; intros m m' Hinv Hkept Hps.
  - intros [= <-]. split; [done|]. split; [done|]. split; [|done].
    intros i p Hin. by apply not_elem_of_nil in Hin.
  - rewrite fold_cons. intros ([] & m1 & H1 & H2)%bind_Returned.
    assert (Hp : p ∈ configFilePaths (this m0)) by (apply (Hps i); by left).
    destruct (readConfigurationFile_Returned i p m m1 Hinv Hkept Hp H1)
      as (Hinv1 & Hkept1 & Hok & Htr1).
    destruct (IH m1 m' Hinv1 Hkept1) as (Hinv' & Hkept' & Hoks & Htr); [|done|].
    { intros i' p' Hin. apply (Hps i'). by right. }
    split; [done|]. split; [done|]. split.
    + intros i' p' [[= -> ->]|Hin]%elem_of_cons; eauto.
    + intros n fl c Hu Hc. rewrite (Htr n fl _ Hu (Htr1 n fl c Hu Hc)).
      simpl. by destruct (fileAt os (heap m0) p ≫= _).
Qed.

(** The loop returns when no file stops the run. *)
Lemma files_progress ps : ∀ m,
  inv m0 m → paths_kept m0 m → (∀ i p, (i, p) ∈ ps → p ∈ configFilePaths (this m0)) →
  (∀ i p, (i, p) ∈ ps → fileOK os m0 p) →
  ∃ m', fold (readConfigurationFile os (unvisitedFlags m0)) ps tt m = Returned tt m'.
Proof.
  induction ps as [|[i p] ps IH]; intros m Hinv Hkept Hps Hok; [by eexists|].
  rewrite fold_cons.
  assert (Hp : p ∈ configFilePaths (this m0)) by (apply (Hps i); by left).
  assert (∃ m1, readConfigurationFile os (unvisitedFlags m0) tt (i, p) m = Returned tt m1)
    as [m1 H1].
  { destruct (Hok i p) as (path & Hpath0 & Hcase); [by left|].
    assert (Hpath : heap m !! p = Some (stringValue path)) by (by rewrite Hkept).
    rewrite (readConfigurationFile_cases _ i p m path Hpath).
    destruct (decide (path = "")) as [->|Hne]; [by eexists|].
    destruct Hcase as [?|[->|(obj & -> & Hsup)]]; [done|by eexists|].
    apply entries_progress; [done|]. intros k v Hin. apply Hsup.
    by apply elem_of_range in Hin. }
  rewrite (bind_eq_Returned _ _ _ _ _ H1).
  destruct (readConfigurationFile_Returned i p m m1 Hinv Hkept Hp H1)
    as (Hinv1 & Hkept1 & _).
  apply IH; [done|done| |].
  - intros i' p' Hin. apply (Hps i'). by right.
  - intros i' p' Hin. apply (Hok i'). by right.
Qed.

(** ** The loop over the environment *)

Lemma envEntry_spec m err k fl c :
  inv m0 m → unvisited m0 k fl → heap m !! Value fl = Some c →
  ∃ m', envEntry os err (k, Some fl) m
        = Returned (if decide (envValue os m0 k = "") then err
                    else (convert c (envValue os m0 k)).2) m'
      ∧ heap m' = <[Value fl := applyEnv os m0 k c]> (heap m)
      ∧ logged m' = logged m
      ∧ inv m0 m'.
Proof.
  intros Hinv Hu Hc. unfold envEntry, applyEnv, envValue, get, mbind, M_bind. simpl.
  rewrite (ev_envNames _ _ (proj1 Hinv)), (wf_name _ Hwf k fl (proj1 Hu)).
  assert (Hid : ∃ m', Returned err m = Returned err m'
                  ∧ heap m' = <[Value fl := c]> (heap m)
                  ∧ logged m' = logged m ∧ inv m0 m').
  { exists m. by rewrite list_insert_id. }
  destruct (envNames (this m0) !! k) as [envName|]; [|by rewrite decide_True].
  destruct (decide (String.length (Getenv os envName) ≠ 0)) as [Hl|Hl];
    destruct (decide (Getenv os envName = "")) as [He|He]; try done.
  - by rewrite He in Hl.
  - destruct (inv_cell m0 m k fl Hwf Hinv (proj1 Hu)) as (Hf & _).
    destruct (FlagSet_Set_spec m k (Getenv os envName) fl c Hf Hc)
      as (m' & Hset & Hh & Hl' & Hev & _).
    exists m'. split; [done|]. split; [done|]. split; [done|].
    apply (inv_step m0 m m' Hinv Hev). intros p Hp. rewrite Hh.
    apply list_lookup_insert_ne. intros <-. apply Hp. by eapply writable_unvisited.
  - destruct He. apply length_zero_iff_empty.
    destruct (decide (String.length (Getenv os envName) = 0)); [done|by destruct Hl].
Qed.

(** The loop over the flags that were not passed always returns. Each flag
    with a value in the environment is set to it; the error returned is the
    one of the last [Set]. *)
Lemma env_loop l : NoDup l.*1 →
  (∀ k o, (k, o) ∈ l → ∃ fl, o = Some fl ∧ unvisited m0 k fl) →
  ∀ m err, inv m0 m →
  ∃ err' m', fold (envEntry os) l err m = Returned err' m'
    ∧ inv m0 m' ∧ logged m' = logged m
    ∧ (∀ p, (∀ k fl, (k, Some fl) ∈ l → Value fl ≠ p) → heap m' !! p = heap m !! p)
    ∧ (∀ k fl c, (k, Some fl) ∈ l → heap m !! Value fl = Some c →
         heap m' !! Value fl = Some (applyEnv os m0 k c))
    ∧ ((∀ k o, (k, o) ∈ l → envValue os m0 k = "") → err' = err)
    ∧ (∀ k fl c, (k, Some fl) ∈ l → envValue os m0 k ≠ "" →
         (∀ k' o', (k', o') ∈ l → k' ≠ k → envValue os m0 k' = "") →
         heap m !! Value fl = Some c →
         err' = (convert c (envValue os m0 k)).2).
Proof.
  induction l as [|[k1 o1] l IH]; intros Hnd Hl m err Hinv.
  { exists err, m. split; [done|]. split; [done|]. split; [done|]. split; [done|].
    split; [|split; [done|]]; intros k fl c Hin; by apply not_elem_of_nil in Hin. }
  apply NoDup_cons in Hnd as [Hk1 Hnd].
  destruct (Hl k1 o1) as (fl1 & -> & Hu1); [by left|].
  destruct (inv_cell m0 m k1 fl1 Hwf Hinv (proj1 Hu1)) as (_ & c1 & Hc1).
  destruct (envEntry_spec m err k1 fl1 c1 Hinv Hu1 Hc1) as (m1 & H1 & Hh1 & Hl1 & Hinv1).
  set (err1 := if decide (envValue os m0 k1 = "") then err
              else (convert c1 (envValue os m0 k1)).2) in H1.
  destruct (IH Hnd (λ k o Hin, Hl k o (list_elem_of_further _ _ _ Hin)) m1 err1 Hinv1)
    as (err' & m' & H2 & Hinv' & Hl' & Hfr & Htr & He1 & He2).
  exists err', m'. rewrite fold_cons, (bind_eq_Returned _ _ _ _ _ H1).
  split; [done|]. split; [done|]. split; [congruence|].
  assert (Hother : ∀ k fl, (k, Some fl) ∈ l → Value fl1 ≠ Value fl).
  { intros k fl Hin Heq. destruct (Hl k (Some fl)) as (? & [= <-] & Hu); [by right|].
    apply Hk1. rewrite (unvisited_inj k1 k fl1 fl Hu1 Hu Heq).
    apply list_elem_of_fmap. by exists (k, Some fl). }
  split; [|split; [|split]].
  - intros p Hp. rewrite Hfr by (intros; eapply Hp; by right).
    rewrite Hh1. apply list_lookup_insert_ne. apply (Hp k1). by left.
  - intros k fl c [[= -> ->]|Hin]%elem_of_cons Hc.
    + assert (c1 = c) as -> by congruence.
      rewrite Hfr by (intros k' fl' Hin' Heq; by apply (Hother k' fl')).
      rewrite Hh1. apply list_lookup_insert_eq. by eapply lookup_lt_Some.
    + apply (Htr k fl c Hin). rewrite Hh1, list_lookup_insert_ne; [done|]. eauto.
  - intros Hempty. rewrite He1 by (intros; eapply Hempty; by right).
    unfold err1. rewrite decide_True; [done|]. apply (Hempty k1 (Some fl1)). by left.
  - intros k fl c [[= -> ->]|Hin]%elem_of_cons Hne Hrest Hc.
    + assert (c1 = c) as -> by congruence.
      rewrite He1; [unfold err1; by rewrite decide_False|].
      intros k' o' Hin'. apply (Hrest k' o'); [by right|].
      intros ->. apply Hk1, list_elem_of_fmap. by exists (k1, o').
    + assert (k1 ≠ k) as Hne1.
      { intros ->. apply Hk1, list_elem_of_fmap. by exists (k, Some fl). }
      apply (He2 k fl c Hin Hne).
      * intros k' o' Hin'. apply (Hrest k' o'). by right.
      * rewrite Hh1, list_lookup_insert_ne; [done|]. eauto.
Qed.

(** ** The flags [Collate] finds not to be set *)

Lemma elem_of_sortFlags (flags : gmap string Flag) fl :
  (∀ n f, flags !! n = Some f → Name f = n) →
  fl ∈ sortFlags flags ↔ flags !! Name fl = Some fl.
Proof.
  intros Hname. unfold sortFlags. rewrite list_elem_of_omap. split.
  - intros (x & _ & Hx). by rewrite (Hname x fl Hx).
  - intros Hfl. exists (Name fl). split; [|done].
    rewrite merge_sort_Permutation. apply list_elem_of_fmap. exists fl. split; [done|].
    apply list_elem_of_fmap. exists (Name fl, fl). split; [done|].
    by apply elem_of_map_to_list.
Qed.

Lemma sortFlags_names (flags : gmap string Flag) n :
  (∀ n f, flags !! n = Some f → Name f = n) →
  n ∈ Name <$> sortFlags flags ↔ is_Some (flags !! n).
Proof.
  intros Hname. rewrite list_elem_of_fmap. split.
  - intros (fl & -> & Hin). apply elem_of_sortFlags in Hin; [eauto|done].
  - intros [fl Hfl]. exists fl. pose proof (Hname n fl Hfl) as <-.
    split; [done|]. by apply elem_of_sortFlags.
Qed.

Lemma foldl_insert_const (b : bool) (l : list Flag) (s : gmap string bool) n :
  foldl (λ s fl, <[Name fl := b]> s) s l !! n
  = if decide (n ∈ Name <$> l) then Some b else s !! n.
Proof.
  revert s. induction l as [|fl l IH]; intros s; cbn [foldl].
  - rewrite decide_False; [done|]. rewrite fmap_nil. apply not_elem_of_nil.
  - rewrite IH, fmap_cons. destruct (decide (n ∈ Name <$> l)) as [Hin|Hin].
    + rewrite decide_True; [done|]. by right.
    + destruct (decide (n = Name fl)) as [->|Hne].
      * rewrite lookup_insert_eq, decide_True; [done|by left].
      * rewrite lookup_insert_ne by done. rewrite decide_False; [done|].
        by intros [?|?]%elem_of_cons.
Qed.

Lemma foldl_collect (fm : gmap string Flag) (l : list (string * bool))
    (U : gmap string (option Flag)) n :
  foldl (λ U e, if negb e.2 then <[e.1 := fm !! e.1]> U else U) U l !! n
  = if decide ((n, false) ∈ l) then Some (fm !! n) else U !! n.
Proof.
  revert U. induction l as [|[k b] l IH]; intros U; cbn [foldl].
  - rewrite decide_False; [done|]. apply not_elem_of_nil.
  - rewrite IH. destruct (decide ((n, false) ∈ l)) as [Hin|Hin].
    + rewrite decide_True; [done|]. by right.
    + destruct b; simpl.
      * rewrite decide_False; [done|]. by intros [?|?]%elem_of_cons.
      * destruct (decide (n = k)) as [->|Hne].
        -- rewrite lookup_insert_eq, decide_True; [done|by left].
        -- rewrite lookup_insert_ne by done. rewrite decide_False; [done|].
           intros [?|?]%elem_of_cons; [congruence|done].
Qed.

(** The first three loops of [Collate] build [unvisitedFlags] and leave the
    machine as it is. *)
Lemma Collate_unvisited m :
  wf m →
  Collate os m
  = (err ← readConfigurationFiles os (unvisitedFlags m);
     match err with
     | Some _ => mret err
     | None => fold (envEntry os) (range 1 (unvisitedFlags m)) err
     end) m.
Proof.
  intros Hm. unfold Collate.
  set (A1 := foldl (λ s fl, <[Name fl := false]> s) (∅ : gmap string bool)
               (sortFlags (formal (FS m)))).
  set (A2 := foldl (λ s fl, <[Name fl := true]> s) A1 (sortFlags (actual (FS m)))).
  rewrite (bind_eq_Returned _ _ m A1 m) by done.
  rewrite (bind_eq_Returned _ _ m A2 m) by done.
  set (g := λ (U : gmap string (option Flag)) (e : string * bool),
              if negb e.2 then <[e.1 := formal (FS m) !! e.1]> U else U).
  rewrite (bind_eq_Returned _ _ m (foldl g ∅ (range 0 A2)) m).
  2:{ apply fold_pure. intros U [k b]. unfold collectUnvisited, g. simpl.
      by destruct b. }
  assert (foldl g ∅ (range 0 A2) = unvisitedFlags m) as ->; [|done].
  apply map_eq. intros n. unfold g. rewrite foldl_collect.
  assert (HA2 : A2 !! n = Some false ↔ is_Some (formal (FS m) !! n) ∧ actual (FS m) !! n = None).
  { unfold A2, A1. rewrite !foldl_insert_const, lookup_empty.
    pose proof (sortFlags_names (formal (FS m)) n (wf_name m Hm)) as Hf.
    assert (Hnamea : ∀ n f, actual (FS m) !! n = Some f → Name f = n).
    { intros n' f Ha. apply (wf_name m Hm), (wf_actual m Hm), Ha. }
    pose proof (sortFlags_names (actual (FS m)) n Hnamea) as Ha.
    destruct (decide (n ∈ Name <$> sortFlags (actual (FS m)))) as [Hina|Hina].
    - apply Ha in Hina as [f Hina]. rewrite Hina. split; [done|by intros [_ ?]].
    - destruct (decide (n ∈ Name <$> sortFlags (formal (FS m)))) as [Hinf|Hinf].
      + split; [|done]. intros _. split; [by apply Hf|].
        apply eq_None_not_Some. intros H. destruct Hina. by apply Ha.
      + split; [done|]. intros [H _]. destruct Hinf. by apply Hf. }
  destruct (decide ((n, false) ∈ range 0 A2)) as [Hin|Hin].
  - apply elem_of_range, HA2 in Hin as [[fl Hf] Ha]. rewrite Hf. symmetry.
    apply unvisitedFlags_lookup. exists fl. by split.
  - rewrite lookup_empty. symmetry. apply unvisitedFlags_None. intros fl [Hf Ha].
    destruct Hin. apply elem_of_range, HA2. eauto.
Qed.

(** ** [readConfigurationFiles] and [Collate] *)

Lemma imap_pair_snd (l : list nat) : (imap (λ i p, (i, p)) l).*2 = l.
Proof.
  apply list_eq. intros i. rewrite list_lookup_fmap, list_lookup_imap.
  by destruct (l !! i).
Qed.

Lemma elem_of_imap_pair (l : list nat) i p : (i, p) ∈ imap (λ i p, (i, p)) l → p ∈ l.
Proof.
  intros Hin. rewrite <- (imap_pair_snd l). apply list_elem_of_fmap. by exists (i, p).
Qed.

Lemma readConfigurationFiles_eq U m :
  readConfigurationFiles os U m
  = match fold (readConfigurationFile os U)
            (imap (λ i p, (i, p)) (configFilePaths (this m))) tt m with
    | Returned _ m1 => Returned None m1
    | Panicked v m1 => Panicked v m1
    | Exited n m1 => Exited n m1
    end.
Proof.
  unfold readConfigurationFiles, get, mbind, M_bind.
  by destruct (fold _ _ tt m).
Qed.

Lemma foldl_applyValue_kind ty c vs : kindOf (foldl (applyValue ty) c vs) = kindOf c.
Proof.
  revert c. induction vs as [|v vs IH]; intros c; [done|].
  cbn [foldl]. by rewrite IH, applyValue_kind.
Qed.

Lemma unvisited_range k o :
  (k, o) ∈ range 1 (unvisitedFlags m0) → ∃ fl, o = Some fl ∧ unvisited m0 k fl.
Proof. intros Hin. by apply elem_of_range, unvisitedFlags_lookup in Hin. Qed.

(** Whatever its outcome, [Collate] writes only variables of flags that
    were not passed on the command line. *)
Lemma Collate_final : inv m0 (final (Collate os m0)).
Proof.
  rewrite Collate_unvisited by done. unfold mbind, M_bind.
  rewrite readConfigurationFiles_eq.
  pose proof (files_final (imap (λ i p, (i, p)) (configFilePaths (this m0))) m0
                (inv_refl m0) (λ i p, elem_of_imap_pair _ i p)) as Hf.
  destruct (fold _ _ tt m0) as [[] m1|v m1|n m1]; [|done|done].
  destruct (env_loop _ (range_NoDup 1 _) unvisited_range m1 None Hf)
    as (err' & m' & -> & Hinv & _). done.
Qed.

(** When [Collate] returns, whatever the files did: each flag that was not
    passed went through the environment last; the error is nil when no
    such flag has a value in the environment, and is the error of the
    conversion when exactly one has. *)
Lemma Collate_Returned_env err m' :
  Collate os m0 = Returned err m' →
  inv m0 m'
  ∧ (∀ n fl c, unvisited m0 n fl → heap m0 !! Value fl = Some c →
       ∃ c1, kindOf c1 = kindOf c ∧ heap m' !! Value fl = Some (applyEnv os m0 n c1))
  ∧ ((∀ n fl, unvisited m0 n fl → envValue os m0 n = "") → err = None)
  ∧ (∀ n fl c, unvisited m0 n fl → envValue os m0 n ≠ "" →
       (∀ n' fl', unvisited m0 n' fl' → n' ≠ n → envValue os m0 n' = "") →
       heap m0 !! Value fl = Some c →
       err = (convert c (envValue os m0 n)).2).
Proof.
  rewrite Collate_unvisited by done. unfold mbind, M_bind.
  rewrite readConfigurationFiles_eq.
  pose proof (files_final (imap (λ i p, (i, p)) (configFilePaths (this m0))) m0
                (inv_refl m0) (λ i p, elem_of_imap_pair _ i p)) as Hinv1.
  destruct (fold _ _ tt m0) as [[] m1|v m1|n m1]; [|done|done]. simpl in Hinv1.
  destruct (env_loop _ (range_NoDup 1 _) unvisited_range m1 None Hinv1)
    as (err' & m'' & -> & Hinv & _ & _ & Htr & He1 & He2).
  intros [= <- <-]. split; [done|].
  assert (Hcell : ∀ n fl c, unvisited m0 n fl → heap m0 !! Value fl = Some c →
            ∃ c1, kindOf c1 = kindOf c ∧ heap m1 !! Value fl = Some c1).
  { intros n fl c Hu Hc.
    destruct (ev_kind _ _ (proj1 Hinv1) _ _ Hc) as (c1 & Hc1 & Hk). eauto. }
  assert (Hin : ∀ n fl, unvisited m0 n fl → (n, Some fl) ∈ range 1 (unvisitedFlags m0)).
  { intros n fl Hu. apply elem_of_range, unvisitedFlags_lookup. eauto. }
  split; [|split].
  - intros n fl c Hu Hc. destruct (Hcell n fl c Hu Hc) as (c1 & Hk & Hc1).
    exists c1. split; [done|]. by apply (Htr n fl c1 (Hin n fl Hu)).
  - intros Hempty. apply He1. intros k o (fl & _ & Hu)%unvisited_range. eauto.
  - intros n fl c Hu Hne Hrest Hc. destruct (Hcell n fl c Hu Hc) as (c1 & Hk & Hc1).
    rewrite (He2 n fl c1 (Hin n fl Hu) Hne); [|
      intros k' o' (fl' & _ & Hu')%unvisited_range; eauto | done].
    f_equal. by apply convert_same_kind.
Qed.

(** When [Collate] returns: no file stopped the run; each flag that was not
    passed holds its resolved value; the error is nil when no such flag has
    a value in the environment, and is the error of the conversion when
    exactly one has. *)
Lemma Collate_Returned err m' :
  Collate os m0 = Returned err m' →
  inv m0 m' ∧ filesOK os m0
  ∧ (∀ n fl c, unvisited m0 n fl → heap m0 !! Value fl = Some c →
       heap m' !! Value fl = Some (resolve os m0 n c))
  ∧ ((∀ n fl, unvisited m0 n fl → envValue os m0 n = "") → err = None)
  ∧ (∀ n fl c, unvisited m0 n fl → envValue os m0 n ≠ "" →
       (∀ n' fl', unvisited m0 n' fl' → n' ≠ n → envValue os m0 n' = "") →
       heap m0 !! Value fl = Some c →
       err = (convert c (envValue os m0 n)).2).
Proof.
  rewrite Collate_unvisited by done. unfold mbind, M_bind.
  rewrite readConfigurationFiles_eq.
  destruct (fold _ _ tt m0) as [[] m1|v m1|n m1] eqn:Hfiles; [|done|done].
  destruct (files_Returned _ m0 m1 (inv_refl m0) (λ p _, eq_refl)
              (λ i p, elem_of_imap_pair _ i p) Hfiles) as (Hinv1 & _ & Hok & Htr1).
  destruct (env_loop _ (range_NoDup 1 _) unvisited_range m1 None Hinv1)
    as (err' & m'' & -> & Hinv & _ & _ & Htr & He1 & He2).
  intros [= <- <-]. split; [done|]. split; [|split; [|split]].
  - intros p Hp. apply list_elem_of_lookup in Hp as [i Hi].
    apply (Hok i), list_elem_of_lookup. exists i.
    by rewrite list_lookup_imap, Hi.
  - intros n fl c Hu Hc. unfold resolve, fileValues.
    apply (Htr n fl).
    + apply elem_of_range, unvisitedFlags_lookup. eauto.
    + rewrite (Htr1 n fl c Hu Hc). by rewrite imap_pair_snd.
  - intros Hempty. apply He1. intros k o (fl & _ & Hu)%unvisited_range. eauto.
  - intros n fl c Hu Hne Hrest Hc.
    rewrite (He2 n fl _ (proj2 (elem_of_range 1 _ n (Some fl))
                           (proj2 (unvisitedFlags_lookup m0 n (Some fl))
                              (ex_intro _ fl (conj eq_refl Hu))))
               Hne
               (λ k' o' Hin Hk, let '(ex_intro _ fl' (conj _ Hu')) := unvisited_range k' o' Hin
                                in Hrest k' fl' Hu' Hk)
               (Htr1 n fl c Hu Hc)).
    f_equal. apply convert_same_kind, foldl_applyValue_kind.
Qed.

(** [Collate] returns when no file stops the run. *)
Lemma Collate_progress : filesOK os m0 → ∃ err m', Collate os m0 = Returned err m'.
Proof.
  intros Hok. rewrite Collate_unvisited by done. unfold mbind, M_bind.
  rewrite readConfigurationFiles_eq.
  destruct (files_progress (imap (λ i p, (i, p)) (configFilePaths (this m0))) m0
              (inv_refl m0) (λ p _, eq_refl) (λ i p, elem_of_imap_pair _ i p))
    as [m1 Hfiles].
  { intros i p Hin. by apply Hok, (elem_of_imap_pair _ i). }
  rewrite Hfiles.
  destruct (files_Returned _ m0 m1 (inv_refl m0) (λ p _, eq_refl)
              (λ i p, elem_of_imap_pair _ i p) Hfiles) as (Hinv1 & _).
  destruct (env_loop _ (range_NoDup 1 _) unvisited_range m1 None Hinv1)
    as (err' & m'' & -> & _). eauto.
Qed.

End Run.

Local Open Scope list_scope.

(** ** Registration *)

Lemma wf_NewFlagfigSet name errorHandling : wf (NewFlagfigSet name errorHandling).
Proof. split; simpl; try done. intros p Hp. by apply not_elem_of_nil in Hp. Qed.

Lemma insert_new_cell (h : list cell) zero c : <[length h := c]> (h ++ [zero]) = h ++ [c].
Proof. rewrite insert_app_r_alt by done. by rewrite Nat.sub_diag. Qed.

(** A declaration, in one step: the metadata is recorded first; then [Var]
    panics on a name that is defined, and defines the flag otherwise. *)
Lemma declare_eq xType zero defaultValue name envName usage m :
  declare xType zero defaultValue name envName usage m =
  let p := length (heap m) in
  let f' := mkFlagfigSet (FS m) (configFilePaths (this m))
              (<[name := xType]> (flagTypes (this m)))
              (<[name := envName]> (envNames (this m))) in
  match formal (FS m) !! name with
  | Some _ =>
      Panicked (PanicString (redefined (FS m) name))
               (mkMachine (heap m ++ [defaultValue]) f' (logged m))
  | None =>
      Returned p
        (mkMachine (heap m ++ [defaultValue])
           (set_FlagSet (set_formal (<[name := mkFlag name usage p]> (formal (FS m))) (FS m)) f')
           (logged m))
  end.
Proof.
  unfold declare, new, FlagSet_XVar, store, FlagSet_Var, modify_this, modify, get, panic,
    mbind, M_bind, mret, M_ret, FS. simpl.
  rewrite insert_new_cell. by destruct (formal (FlagSet_ (this m)) !! name).
Qed.

Lemma AddConfigFile_eq name usage m :
  AddConfigFile name usage m =
  let p := length (heap m) in
  let f' := mkFlagfigSet (FS m) (configFilePaths (this m) ++ [p])
              (flagTypes (this m)) (envNames (this m)) in
  match formal (FS m) !! name with
  | Some _ =>
      Panicked (PanicString (redefined (FS m) name))
               (mkMachine (heap m ++ [stringValue ""]) f' (logged m))
  | None =>
      Returned p
        (mkMachine (heap m ++ [stringValue ""])
           (set_FlagSet (set_formal (<[name := mkFlag name usage p]> (formal (FS m))) (FS m)) f')
           (logged m))
  end.
Proof.
  unfold AddConfigFile, new, FlagSet_XVar, store, FlagSet_Var, modify_this, modify, get,
    panic, mbind, M_bind, mret, M_ret, FS. simpl.
  rewrite insert_new_cell. by destruct (formal (FlagSet_ (this m)) !! name).
Qed.

(** Defining a new flag on a fresh variable keeps the state well formed. *)
Lemma wf_new_flag m name usage c paths' types' envNames' :
  wf m → formal (FS m) !! name = None →
  (∀ n ty, types' !! n = Some ty →
     (n = name ∧ kindOf c = ty) ∨ (n ≠ name ∧ flagTypes (this m) !! n = Some ty)) →
  (∀ p, p ∈ paths' →
     p ∈ configFilePaths (this m) ∨ (p = length (heap m) ∧ kindOf c = stringType)) →
  wf (mkMachine (heap m ++ [c])
        (mkFlagfigSet
           (set_formal (<[name := mkFlag name usage (length (heap m))]> (formal (FS m))) (FS m))
           paths' types' envNames')
        (logged m)).
Proof.
  intros Hwf Hnew Htypes Hpaths.
  assert (Hold : ∀ n fl, formal (FS m) !! n = Some fl →
            n ≠ name ∧ (heap m ++ [c]) !! Value fl = heap m !! Value fl).
  { intros n fl Hf. split; [congruence|].
    destruct (wf_alloc m Hwf n fl Hf) as [c' Hc'].
    apply lookup_app_l. by eapply lookup_lt_Some. }
  assert (Hfresh : (heap m ++ [c]) !! length (heap m) = Some c).
  { by rewrite list_lookup_middle. }
  split; unfold FS; simpl; fold (FS m).
  - intros n fl. destruct (decide (name = n)) as [<-|Hne].
    + rewrite lookup_insert_eq. by intros [= <-].
    + rewrite lookup_insert_ne by done. apply (wf_name m Hwf).
  - intros n fl Ha. pose proof (wf_actual m Hwf n fl Ha) as Hf.
    destruct (Hold n fl Hf) as [Hne _]. by rewrite lookup_insert_ne.
  - intros n fl. destruct (decide (name = n)) as [<-|Hne].
    + rewrite lookup_insert_eq. intros [= <-]. simpl. by rewrite Hfresh.
    + rewrite lookup_insert_ne by done. intros Hf.
      destruct (Hold n fl Hf) as [_ ->]. by apply (wf_alloc m Hwf n).
  - intros n1 n2 f1 f2.
    destruct (decide (name = n1)) as [<-|Hne1]; destruct (decide (name = n2)) as [<-|Hne2];
      rewrite ?lookup_insert_eq, ?lookup_insert_ne by done; try done.
    + intros [= <-] Hf2 Heq. simpl in Heq.
      destruct (wf_alloc m Hwf n2 f2 Hf2) as [c' Hc']. apply lookup_lt_Some in Hc'. lia.
    + intros Hf1 [= <-] Heq. simpl in Heq.
      destruct (wf_alloc m Hwf n1 f1 Hf1) as [c' Hc']. apply lookup_lt_Some in Hc'. lia.
    + apply (wf_inj m Hwf).
  - intros n ty fl c' Hty. destruct (Htypes n ty Hty) as [[-> Hk]|[Hne Hty']].
    + rewrite lookup_insert_eq. intros [= <-]. simpl. rewrite Hfresh. by intros [= <-].
    + rewrite lookup_insert_ne by done. intros Hf. destruct (Hold n fl Hf) as [_ ->].
      by apply (wf_kind m Hwf n).
  - intros n ty Hty. destruct (Htypes n ty Hty) as [[-> Hk]|[Hne Hty']].
    + by rewrite lookup_insert_eq.
    + rewrite lookup_insert_ne by done. by apply (wf_types m Hwf n ty).
  - intros p Hp. destruct (Hpaths p Hp) as [Hold'|[-> Hk]].
    + destruct (wf_paths m Hwf p Hold') as [s Hs]. exists s.
      rewrite lookup_app_l; [done|]. by eapply lookup_lt_Some.
    + rewrite Hfresh. destruct c; try done. eauto.
Qed.

(** What a declaration that returns has done. *)
Lemma declare_Returned xType zero defaultValue name envName usage m p m' :
  wf m → kindOf defaultValue = xType →
  declare xType zero defaultValue name envName usage m = Returned p m' →
  wf m' ∧ p = length (heap m) ∧ formal (FS m) !! name = None
  ∧ heap m' = heap m ++ [defaultValue]
  ∧ formal (FS m') = <[name := mkFlag name usage p]> (formal (FS m))
  ∧ actual (FS m') = actual (FS m)
  ∧ configFilePaths (this m') = configFilePaths (this m)
  ∧ flagTypes (this m') = <[name := xType]> (flagTypes (this m))
  ∧ envNames (this m') = <[name := envName]> (envNames (this m)).
Proof.
  intros Hwf Hk. rewrite declare_eq. cbv zeta.
  destruct (formal (FS m) !! name) eqn:Hnew; [done|]. intros [= <- <-].
  split; [|done]. apply wf_new_flag; [done|done| |by left].
  intros n ty. simpl. destruct (decide (name = n)) as [<-|Hne].
  - rewrite lookup_insert_eq. intros [= <-]. by left.
  - rewrite lookup_insert_ne by done. by right.
Qed.

Lemma AddConfigFile_Returned name usage m p m' :
  wf m → AddConfigFile name usage m = Returned p m' →
  wf m' ∧ p = length (heap m) ∧ formal (FS m) !! name = None
  ∧ heap m' = heap m ++ [stringValue ""]
  ∧ formal (FS m') = <[name := mkFlag name usage p]> (formal (FS m))
  ∧ actual (FS m') = actual (FS m)
  ∧ configFilePaths (this m') = configFilePaths (this m) ++ [p]
  ∧ flagTypes (this m') = flagTypes (this m)
  ∧ envNames (this m') = envNames (this m).
Proof.
  intros Hwf. rewrite AddConfigFile_eq. cbv zeta.
  destruct (formal (FS m) !! name) eqn:Hnew; [done|]. intros [= <- <-].
  split; [|done]. apply wf_new_flag; [done|done| |].
  - intros n ty Hty. simpl in Hty. right. split; [|done]. intros ->.
    destruct (wf_types m Hwf name ty Hty) as [fl Hfl]. congruence.
  - intros p. simpl. intros [Hp| ->%list_elem_of_singleton]%elem_of_app; [by left|by right].
Qed.

(** The registration phase keeps the state well formed, the flags that are
    defined and the variables that are allocated. *)
Lemma registers_spec m m' :
  registers m m' → wf m →
  wf m'
  ∧ (∀ n fl, formal (FS m) !! n = Some fl → formal (FS m') !! n = Some fl)
  ∧ (∀ p c, heap m !! p = Some c → heap m' !! p = Some c)
  ∧ actual (FS m') = actual (FS m).
Proof.
  induction 1 as [m|m m1 m2 xType zero defaultValue name envName usage p _ IH Hk Hd
                  |m m1 m2 name usage p _ IH Ha]; intros Hwf.
  - done.
  - destruct (IH Hwf) as (Hwf1 & Hf1 & Hh1 & Ha1).
    destruct (declare_Returned _ _ _ _ _ _ _ _ _ Hwf1 Hk Hd)
      as (Hwf2 & _ & Hnew & Hh2 & Hf2 & Ha2 & _).
    split; [done|]. split; [|split; [|congruence]].
    + intros n fl Hf. specialize (Hf1 n fl Hf). rewrite Hf2, lookup_insert_ne; [done|].
      intros ->. congruence.
    + intros q c Hq. rewrite Hh2. apply lookup_app_l_Some. eauto.
  - destruct (IH Hwf) as (Hwf1 & Hf1 & Hh1 & Ha1).
    destruct (AddConfigFile_Returned _ _ _ _ _ Hwf1 Ha)
      as (Hwf2 & _ & Hnew & Hh2 & Hf2 & Ha2 & _).
    split; [done|]. split; [|split; [|congruence]].
    + intros n fl Hf. specialize (Hf1 n fl Hf). rewrite Hf2, lookup_insert_ne; [done|].
      intros ->. congruence.
    + intros q c Hq. rewrite Hh2. apply lookup_app_l_Some. eauto.
Qed.

(** ** Parsing the command line *)

Lemma parses_refl m : parses m m.
Proof. split; [apply evolves_refl|done]. Qed.

Lemma parses_trans m1 m2 m3 : parses m1 m2 → parses m2 m3 → parses m1 m3.
Proof.
  intros (Hev1 & Ha1 & Hh1 & Hl1) (Hev2 & Ha2 & Hh2 & Hl2).
  split; [by eapply evolves_trans|]. split; [eauto|]. split; [|congruence].
  intros n fl Hf Hn. rewrite (Hh2 n fl); [|by rewrite (ev_formal _ _ Hev1)|done].
  apply (Hh1 n fl); [done|]. destruct (actual (FS m2) !! n) as [fl'|] eqn:Ha; [|done].
  apply Ha2 in Ha. congruence.
Qed.

Lemma parses_set_FlagSet m fs :
  formal fs = formal (FS m) → actual fs = actual (FS m) →
  parses m (set_this (set_FlagSet fs (this m)) m).
Proof.
  intros Hf Ha. split; [|split; [|split]]; unfold FS; simpl; fold (FS m).
  - split; unfold FS; simpl; fold (FS m); try done; [|eauto].
    intros n fl. rewrite Ha. by left.
  - by rewrite Ha.
  - done.
  - done.
Qed.

Lemma set_args_parses l m : ∃ m1, set_args l m = Returned tt m1 ∧ parses m m1.
Proof. eexists. split; [done|]. by apply parses_set_FlagSet. Qed.

(** Setting a parsed flag is [Set] of that flag. *)
Lemma setParsed_Returned m flag name value msg next m' :
  wf m → formal (FS m) !! name = Some flag →
  setParsed flag name value msg next m = Returned None m' →
  ∃ m1, parses m m1 ∧ next m1 = Returned None m'.
Proof.
  intros Hwf Hf. destruct (wf_alloc m Hwf name flag Hf) as [c Hc].
  destruct (FlagSet_Set_spec m name value flag c Hf Hc) as (m1 & Hset & Hh & Hl & Hev & Ha).
  revert Hset. unfold setParsed, FlagSet_Set, get, mbind, M_bind. fold (FS m).
  rewrite Hf. destruct (Value_Set (Value flag) value m) as [[e|] m2|v m2|n m2]; try done.
  simpl. intros [= Herr <-]. rewrite <- Herr in Ha. intros Hnext.
  eexists. split; [|done]. split; [done|]. split; [|split; [|done]].
  - intros n fl Hn. rewrite Ha. destruct (decide (name = n)) as [<-|Hne].
    + rewrite lookup_insert_eq. pose proof (wf_actual m Hwf name fl Hn). congruence.
    + by rewrite lookup_insert_ne.
  - intros n fl Hn. rewrite Ha. intros Hnone.
    rewrite Hh. apply list_lookup_insert_ne. intros Heq.
    rewrite (wf_inj m Hwf name n flag fl Hf Hn Heq), lookup_insert_eq in Hnone. done.
Qed.

Lemma parses_wf m m' : wf m → parses m m' → wf m'.
Proof. intros Hwf [Hev _]. by eapply evolves_wf. Qed.

Lemma parseArgs_cons s rest :
  parseArgs (s :: rest) =
  if decide (String.length s < 2 ∨ String.get 0 s ≠ Some "-"%char) then mret None
  else
    let numMinuses := if decide (String.get 1 s = Some "-"%char) then 2 else 1 in
    if decide (numMinuses = 2 ∧ String.length s = 2)
    then set_args rest;; mret None
    else
      let name := substring numMinuses (String.length s - numMinuses) s in
      if decide (String.length name = 0 ∨ String.get 0 name = Some "-"%char
                 ∨ String.get 0 name = Some "="%char)
      then mret (Some (Errorf ("bad flag syntax: " ++ s)%string None))
      else
        set_args rest;;
        let '(name, hasValue, value) := splitEquals name (String.length name - 1) in
        fs ← get (λ m, FlagSet_ (this m));
        match formal fs !! name with
        | None =>
            if decide (name = "help" ∨ name = "h") then mret (Some ErrHelp)
            else mret (Some (Errorf ("flag provided but not defined: -" ++ name)%string None))
        | Some flag =>
            c ← load (Value flag);
            if isBoolFlag c then
              setParsed flag name (if hasValue then value else "true")
                ("invalid boolean value for -" ++ name)%string (parseArgs rest)
            else if hasValue then
              setParsed flag name value ("invalid value for flag -" ++ name)%string
                (parseArgs rest)
            else
              match rest with
              | [] => mret (Some (Errorf ("flag needs an argument: -" ++ name)%string None))
              | value :: rest' =>
                  set_args rest';;
                  setParsed flag name value ("invalid value for flag -" ++ name)%string
                    (parseArgs rest')
              end
        end.
Proof. done. Qed.

(** A command line parsed without error: the flags it set are marked; the
    others keep their variables. *)
Lemma parseArgs_Returned (n : nat) : ∀ (args : list string) m m',
  (List.length args ≤ n)%nat → wf m → parseArgs args m = Returned None m' → parses m m'.
Proof.
  induction n as [|n IH]; intros [|s rest] m m' Hlen Hwf;
    try (intros [= <-]; apply parses_refl); [simpl in Hlen; lia|].
  rewrite parseArgs_cons. simpl in Hlen.
  destruct (decide (_ ∨ _)); [intros [= <-]; apply parses_refl|].
  cbv zeta. destruct (decide (_ ∧ _)).
  { destruct (set_args_parses rest m) as (m1 & H1 & Hp).
    rewrite (bind_eq_Returned _ _ _ _ _ H1). by intros [= <-]. }
  destruct (decide (_ ∨ _)); [by unfold mret, M_ret|].
  destruct (set_args_parses rest m) as (m1 & H1 & Hp1).
  rewrite (bind_eq_Returned _ _ _ _ _ H1).
  pose proof (parses_wf m m1 Hwf Hp1) as Hwf1.
  destruct (splitEquals _ _) as [[name hasValue] value]. unfold mret, M_ret.
  unfold get, mbind at 1, M_bind at 1. fold (FS m1).
  destruct (formal (FS m1) !! name) as [flag|] eqn:Hflag; [|by destruct (decide (name = "help" ∨ name = "h"))].
  unfold load, mbind at 1, M_bind at 1.
  destruct (heap m1 !! Value flag) as [c|]; [|done].
  assert (Hnext : ∀ value' (args' : list string), (List.length args' ≤ n)%nat → ∀ msg,
            setParsed flag name value' msg (parseArgs args') m1 = Returned None m' →
            parses m m').
  { intros value' args' Hlen' msg (m2 & Hp2 & Hrest)%setParsed_Returned; [|done|done].
    eapply parses_trans; [done|]. eapply parses_trans; [done|].
    eapply (IH args'); [done| |done]. by eapply parses_wf. }
  destruct (isBoolFlag c); [apply Hnext; lia|].
  destruct hasValue; [apply Hnext; lia|].
  destruct rest as [|value' rest']; [done|].
  destruct (set_args_parses rest' m1) as (m2 & H2 & Hp2).
  rewrite (bind_eq_Returned _ _ _ _ _ H2).
  intros (m3 & Hp3 & Hrest)%setParsed_Returned.
  - eapply parses_trans; [done|]. eapply parses_trans; [done|].
    eapply parses_trans; [done|]. eapply (IH rest'); [simpl in Hlen; lia| |done].
    eapply parses_wf; [|done]. by eapply parses_wf.
  - by eapply parses_wf.
  - by rewrite (ev_formal _ _ (proj1 Hp2)).
Qed.

Lemma FlagSet_Parse_Returned args m m' :
  wf m → FlagSet_Parse args m = Returned None m' → parses m m' ∧ wf m'.
Proof.
  intros Hwf. unfold FlagSet_Parse.
  set (m1 := set_this (set_FlagSet (mkFlagSet (setName (FS m)) true (actual (FS m))
               (formal (FS m)) args (errorHandling (FS m))) (this m)) m).
  assert (Hp1 : parses m m1) by (by apply parses_set_FlagSet).
  rewrite (bind_eq_Returned _ _ m tt m1) by done.
  unfold mbind, M_bind.
  destruct (parseArgs args m1) as [[e|] m2|v m2|k m2] eqn:Hargs; try done.
  - unfold get, mbind, M_bind, mret, M_ret, os_Exit, panic.
    by destruct (errorHandling (FlagSet_ (this m2))).
  - intros [= <-].
    assert (parses m m2).
    { eapply parses_trans; [done|].
      eapply (parseArgs_Returned (List.length args)); [done| |done]. by eapply parses_wf. }
    split; [done|]. by eapply parses_wf.
Qed.

(** [Parse] is [Collate] from the state the command line leaves, when the
    command line parses. *)
Lemma Parse_Collate os args m m1 :
  FlagSet_Parse args m = Returned None m1 → Parse os args m = Collate os m1.
Proof. intros H. unfold Parse. by rewrite (bind_eq_Returned _ _ _ _ _ H). Qed.

(** ** Registration phases of programs *)

Lemma registers_trans m1 m2 m3 : registers m1 m2 → registers m2 m3 → registers m1 m3.
Proof.
  intros H12 H23. induction H23 as [m|m ma mb ? ? ? ? ? ? ? _ IH Hk Hd|m ma mb ? ? ? _ IH Ha].
  - done.
  - eapply registers_declare; [by apply IH|done|done].
  - eapply registers_AddConfigFile; [by apply IH|done].
Qed.

Lemma registering_ret {A} (a : A) : registering (mret a).
Proof. intros m a' m' [= _ <-]. apply registers_refl. Qed.

Lemma registering_bind {A B} (c : M A) (k : A → M B) :
  registering c → (∀ a, registering (k a)) → registering (c ≫= k).
Proof.
  intros Hc Hk m b m' Hret. apply bind_Returned in Hret as (a & m1 & H1 & H2).
  eapply registers_trans; [by eapply Hc|by eapply Hk].
Qed.

Lemma registering_declare xType zero defaultValue name envName usage :
  kindOf defaultValue = xType →
  registering (declare xType zero defaultValue name envName usage).
Proof. intros Hk m p m' Hret. eapply registers_declare; [apply registers_refl|done|done]. Qed.

Lemma registering_AddConfigFile name usage : registering (AddConfigFile name usage).
Proof. intros m p m' Hret. eapply registers_AddConfigFile; [apply registers_refl|done]. Qed.

(** When every configuration-file flag was passed on the command line, no
    file can redirect another. *)
Lemma keeps_paths_visited os m : wf m → paths_visited m → keeps_paths os m.
Proof.
  intros Hwf Hv path obj k fl _ _ [Hf Ha] Hin.
  apply (proj1 (Forall_forall _ _) Hv) in Hin as (n' & fl' & Ha' & Heq).
  pose proof (wf_actual m Hwf n' fl' Ha') as Hf'.
  rewrite (wf_inj m Hwf n' k fl' fl Hf' Hf Heq) in Ha'. congruence.
Qed.

Lemma keeps_paths_no_redirection os m : keeps_paths os m → no_redirection os m.
Proof.
  intros Hkeeps p obj k fl _ Hfile. unfold fileAt in Hfile.
  destruct (heap m !! p) as [[]|]; try done.
  destruct (files os !! _) as [[]|] eqn:Hf; try done.
  destruct (decide _); [done|]. injection Hfile as <-. by apply (Hkeeps _ _ k fl Hf).
Qed.

(** ** The first version of the package: a second declaration *)

(** [String] on a name that is defined panics in [StringVar]; when the
    name has a variable, nothing is recorded or allocated and the default
    is stored through that variable. *)
Lemma Legacy_String_defined name defaultValue envName usage s fl :
  formal (Legacy.FlagSet_ (Legacy.self s)) !! name = Some fl →
  ∃ s', Legacy.String name defaultValue envName usage s
        = Legacy.Panic (PanicString (redefined (Legacy.FlagSet_ (Legacy.self s)) name)) s'
      ∧ Legacy.FlagSet_ (Legacy.self s') = Legacy.FlagSet_ (Legacy.self s)
      ∧ ∀ p, Legacy.stringValues (Legacy.self s) !! name = Some p →
          s' = Legacy.mkState (<[p := stringValue defaultValue]> (Legacy.mem s))
                 (Legacy.self s) (Legacy.log s).
Proof.
  intros Hf. destruct s as [h [fs cps fc en sv] l]. simpl in *.
  unfold Legacy.String, Legacy.get, mbind, Legacy.L_bind. simpl.
  destruct (sv !! name) as [p|] eqn:Hp; simpl.
  - rewrite Hp. unfold Legacy.flag. simpl.
    unfold FlagSet_XVar, store, modify, FlagSet_Var, get, mbind, M_bind. simpl.
    rewrite Hf. eexists. split; [done|]. split; [done|]. by intros p' [= <-].
  - rewrite lookup_insert_eq. unfold Legacy.flag. simpl.
    unfold FlagSet_XVar, store, modify, FlagSet_Var, get, mbind, M_bind. simpl.
    rewrite Hf. eexists. split; [done|]. split; [done|]. done.
Qed.

(** * The claims *)

Lemma envValue_set os m n envName v :
  envNames (this m) !! n = Some envName → envName ≠ "" →
  environ os !! envName = Some v → envValue os m n = v.
Proof.
  intros Hn Hne Hv. unfold envValue, Getenv. rewrite Hn, Hv. by rewrite decide_False.
Qed.

Lemma omap_all_None {A B} (f : A → option B) (l : list A) :
  (∀ x, x ∈ l → f x = None) → omap f l = [].
Proof.
  induction l as [|x l IH]; intros Hf; [done|]. simpl.
  rewrite (Hf x) by (by left). apply IH. intros y Hy. apply Hf. by right.
Qed.

(** C1. A setting that was passed on the command line is not touched by
    [Collate]: whatever the files and the environment hold, and whatever
    the outcome of [Collate], its variable holds what command-line parsing
    stored; and [Parse] is command-line parsing followed by [Collate]. *)
Theorem C1_explicit_flag_kept os m n fl :
  wf m → actual (FS m) !! n = Some fl →
  heap (final (Collate os m)) !! Value fl = heap m !! Value fl
  ∧ ∀ args m0, FlagSet_Parse args m0 = Returned None m → Parse os args m0 = Collate os m.
Proof.
  intros Hwf Ha. split; [|intros args m0; apply Parse_Collate].
  destruct (Collate_final m Hwf os) as [_ Hfr]. apply Hfr.
  intros (n' & fl' & [Hf' Ha'] & Heq).
  pose proof (wf_actual m Hwf n fl Ha) as Hf.
  rewrite (wf_inj m Hwf n' n fl' fl Hf' Hf Heq) in Ha'. congruence.
Qed.

(** C2 (amended). For a setting that was not passed on the command line,
    registered with a non-empty environment-variable name whose variable
    holds a non-empty value: when [Collate] returns, the setting holds what
    the conversion of its kind makes of that value, whatever the files
    gave; for a String setting this is the environment value itself.
    [Collate] returns when no file stops the run. *)
Theorem C2_environment_overrides os m n fl c envName v :
  wf m → unvisited m n fl → heap m !! Value fl = Some c →
  envNames (this m) !! n = Some envName → envName ≠ "" →
  environ os !! envName = Some v → v ≠ "" →
  (∀ err m', Collate os m = Returned err m' →
     heap m' !! Value fl = Some (convert c v).1
     ∧ (∀ s, c = stringValue s → heap m' !! Value fl = Some (stringValue v)))
  ∧ (keeps_paths os m → filesOK os m → ∃ err m', Collate os m = Returned err m').
Proof.
  intros Hwf Hu Hc Hn Hne Hv Hv'.
  split; [|intros Hkeeps Hok;
            exact (Collate_progress m Hwf os (keeps_paths_no_redirection os m Hkeeps) Hok)].
  intros err m' Hret.
  destruct (Collate_Returned_env m Hwf os err m' Hret) as (_ & Hcell & _).
  destruct (Hcell n fl c Hu Hc) as (c1 & Hk & Hc1).
  unfold applyEnv in Hc1. rewrite (envValue_set os m n envName v Hn Hne Hv) in Hc1.
  rewrite decide_False in Hc1 by done.
  rewrite (convert_same_kind c1 c v Hk) in Hc1. split; [done|].
  intros s ->. by rewrite Hc1.
Qed.

(** C3 (amended). Configuration files are applied in the registration
    order of their path flags. When no configured file names a
    configuration-file flag that was not passed on the command line, so
    that no file redirects the pass: for a setting that was not passed on
    the command line and has no value in the environment, when the last
    configured file that names the setting gives it a value the switch
    passes on for the setting's kind (a JSON number for a Float64 setting
    apart), the setting holds what the conversion makes of that value,
    whatever the earlier files gave; the later files, which do not name the
    setting, leave it untouched. *)
Theorem C3_last_file_wins os m n fl c l1 pB l2 objB vB sB :
  wf m → no_redirection os m → unvisited m n fl → heap m !! Value fl = Some c →
  configFilePaths (this m) = l1 ++ pB :: l2 →
  fileAt os (heap m) pB = Some objB → objB !! n = Some vB →
  render (declaredKind m n) vB = Some sB →
  (∀ x, vB = VFloat64 x → declaredKind m n ≠ floatType) →
  (∀ p obj, p ∈ l2 → fileAt os (heap m) p = Some obj → obj !! n = None) →
  envValue os m n = "" →
  (∀ err m', Collate os m = Returned err m' → heap m' !! Value fl = Some (convert c sB).1)
  ∧ (filesOK os m → ∃ err m', Collate os m = Returned err m')
  ∧ (∀ name usage p m2, AddConfigFile name usage m = Returned p m2 →
       configFilePaths (this m2) = configFilePaths (this m) ++ [p]).
Proof.
  intros Hwf Hkeeps Hu Hc Hpaths HB HvB Hrender _ Hlater Henv.
  split; [|split; [by apply Collate_progress|]].
  - intros err m' Hret.
    destruct (Collate_Returned m Hwf os Hkeeps err m' Hret) as (_ & _ & Hres & _).
    rewrite (Hres n fl c Hu Hc). f_equal.
    unfold resolve, applyEnv, fileValues. rewrite Henv, decide_True by done.
    rewrite Hpaths, omap_app. simpl. rewrite HB. simpl. rewrite HvB.
    rewrite (omap_all_None _ l2).
    + rewrite foldl_app. simpl. unfold applyValue at 1. rewrite Hrender.
      f_equal. apply convert_same_kind, foldl_applyValue_kind.
    + intros p Hp. destruct (fileAt os (heap m) p) as [obj|] eqn:Hobj; [|done].
      simpl. by apply (Hlater p obj).
  - intros name usage p m2 Hadd.
    by destruct (AddConfigFile_Returned name usage m p m2 Hwf Hadd)
      as (_ & _ & _ & _ & _ & _ & -> & _).
Qed.

(** C4 (amended). When no configured file names a configuration-file flag
    that was not passed on the command line, so that no file redirects the
    pass: a setting declared with a default, not passed on the command
    line, named by no configured file and without a value in the
    environment, holds its declared default after [Parse]; and [Parse]
    returns when no file stops the run. *)
Theorem C4_default_kept os xType zero defaultValue name envName usage m0 p m1 m2 args m3 :
  wf m0 → kindOf defaultValue = xType →
  declare xType zero defaultValue name envName usage m0 = Returned p m1 →
  registers m1 m2 →
  FlagSet_Parse args m2 = Returned None m3 →
  actual (FS m3) !! name = None →
  no_redirection os m3 → fileValues os m3 name = [] → envValue os m3 name = "" →
  (∀ err m', Parse os args m2 = Returned err m' → heap m' !! p = Some defaultValue)
  ∧ (filesOK os m3 → ∃ err m', Parse os args m2 = Returned err m').
Proof.
  intros Hwf0 Hk Hdecl Hreg Hparse Hnot Hkeeps Hfiles Henv.
  destruct (declare_Returned _ _ _ _ _ _ _ _ _ Hwf0 Hk Hdecl)
    as (Hwf1 & -> & _ & Hh1 & Hf1 & _).
  destruct (registers_spec m1 m2 Hreg Hwf1) as (Hwf2 & Hf2 & Hh2 & _).
  destruct (FlagSet_Parse_Returned args m2 m3 Hwf2 Hparse) as ((Hev & _ & Hh3 & _) & Hwf3).
  set (fl := mkFlag name usage (length (heap m0))).
  assert (Hfl : formal (FS m2) !! name = Some fl).
  { apply Hf2. by rewrite Hf1, lookup_insert_eq. }
  assert (Hcell : heap m3 !! Value fl = Some defaultValue).
  { rewrite (Hh3 name fl Hfl Hnot). apply Hh2. rewrite Hh1. by apply list_lookup_middle. }
  assert (Hu : unvisited m3 name fl).
  { split; [|done]. by rewrite (ev_formal _ _ Hev). }
  rewrite (Parse_Collate os args m2 m3 Hparse).
  split; [|by apply Collate_progress].
  intros err m' Hret.
  destruct (Collate_Returned m3 Hwf3 os Hkeeps err m' Hret) as (_ & _ & Hres & _).
  pose proof (Hres name fl defaultValue Hu Hcell) as Hfin. simpl in Hfin.
  rewrite Hfin. unfold resolve, applyEnv. by rewrite Hfiles, Henv, decide_True.
Qed.

(** C5 (amended). For a value a file gives to a setting that was not
    passed on the command line: a JSON number for a String- or Bool-declared
    setting is skipped, without a log line, and the machine is as before;
    every other supported value is handed as text to the conversion of the
    setting, whatever the declared kind, without a log line; so a JSON bool
    sets a String-declared setting to "true" or "false". *)
Theorem C5_mismatched_values m k fl c :
  wf m → unvisited m k fl → heap m !! Value fl = Some c →
  (∀ x, declaredKind m k = stringType ∨ declaredKind m k = boolType →
     fileEntry (unvisitedFlags m) tt (k, VFloat64 x) m = Returned tt m)
  ∧ (∀ v s, render (declaredKind m k) v = Some s →
       ∃ m', fileEntry (unvisitedFlags m) tt (k, v) m = Returned tt m'
           ∧ heap m' !! Value fl = Some (convert c s).1
           ∧ logged m' = logged m)
  ∧ (∀ b s, c = stringValue s →
       ∃ m', fileEntry (unvisitedFlags m) tt (k, VBool b) m = Returned tt m'
           ∧ heap m' !! Value fl = Some (stringValue (if b then "true" else "false"))
           ∧ logged m' = logged m).
Proof.
  intros Hwf Hu Hc.
  assert (Hpass : ∀ v s, render (declaredKind m k) v = Some s →
            ∃ m', fileEntry (unvisitedFlags m) tt (k, v) m = Returned tt m'
                ∧ heap m' !! Value fl = Some (convert c s).1
                ∧ logged m' = logged m).
  { intros v s Hr.
    destruct (fileEntry_cases m Hwf m k v (inv_refl m)) as [[HU _]|(fl' & c' & Hu' & Hc' & H)].
    { by destruct (proj1 (unvisitedFlags_None m k) HU fl). }
    assert (fl' = fl) as -> by (destruct Hu, Hu'; congruence).
    assert (c' = c) as -> by congruence.
    assert (supported v = true) as Hs by (by destruct v).
    rewrite Hs in H. destruct H as (m' & Hret & Hh & Hl & _).
    exists m'. split; [done|]. split; [|done].
    rewrite Hh. unfold applyValue. rewrite Hr.
    apply list_lookup_insert_eq. by eapply lookup_lt_Some. }
  split; [|split; [done|]].
  - intros x Hkind. unfold fileEntry.
    assert (unvisitedFlags m !! k = Some (Some fl)) as ->
      by (apply unvisitedFlags_lookup; eauto).
    rewrite setFromFile_render. simpl. by destruct Hkind as [-> | ->].
  - intros b s ->. destruct (Hpass (VBool b) (if b then "true" else "false") eq_refl)
      as (m' & ? & ? & ?). eauto.
Qed.

(** C6. In one pass over the configuration files: a file that does not
    decode is skipped with one log line, nothing else changes, and the loop
    goes on with the remaining files; a non-empty path that cannot be read
    makes the pass panic; a value of unsupported type (null, array, object)
    for a setting that was not passed ends the pass in [log.Fatalf], exit
    code 1. In the last two cases [Collate] does not return. *)
Theorem C6_file_failures os m i p path :
  wf m → p ∈ configFilePaths (this m) →
  heap m !! p = Some (stringValue path) → path ≠ "" →
  (files os !! path = Some NotJSON →
     ∃ m1, readConfigurationFile os (unvisitedFlags m) tt (i, p) m = Returned tt m1
         ∧ heap m1 = heap m ∧ this m1 = this m
         ∧ logged m1 = logged m ++ [LogUnableToDecode path (errorString "invalid JSON")]
         ∧ ∀ rest, fold (readConfigurationFile os (unvisitedFlags m)) ((i, p) :: rest) tt m
                   = fold (readConfigurationFile os (unvisitedFlags m)) rest tt m1)
  ∧ (files os !! path = None →
       readConfigurationFile os (unvisitedFlags m) tt (i, p) m
       = Panicked (PanicError (PathError path)) m
       ∧ (keeps_paths os m → ∀ err m', Collate os m ≠ Returned err m'))
  ∧ (∀ obj k v, files os !! path = Some (JSONObject obj) → obj !! k = Some v →
       is_Some (unvisitedFlags m !! k) → supported v = false →
       (∃ m1 v', readConfigurationFile os (unvisitedFlags m) tt (i, p) m = Exited 1 m1
               ∧ supported v' = false
               ∧ logged m1 = logged m ++ [LogUnsupportedType v'])
       ∧ (keeps_paths os m → ∀ err m', Collate os m ≠ Returned err m')).
Proof.
  intros Hwf Hp Hpath Hne.
  pose proof (readConfigurationFile_cases os (unvisitedFlags m) i p m path Hpath) as Hcases.
  rewrite decide_False in Hcases by done.
  assert (Hstop : keeps_paths os m → ¬ fileOK os m p → ∀ err m', Collate os m ≠ Returned err m').
  { intros Hkeeps%keeps_paths_no_redirection Hnok err m' Hret.
    destruct (Collate_Returned m Hwf os Hkeeps err m' Hret) as (_ & Hok & _).
    by apply Hnok, Hok. }
  split; [|split].
  - intros Hfile. rewrite Hfile in Hcases. eexists. split; [done|].
    split; [done|]. split; [done|]. split; [done|].
    intros rest. by rewrite fold_cons, (bind_eq_Returned _ _ _ _ _ Hcases).
  - intros Hfile. rewrite Hfile in Hcases. split; [done|].
    intros Hkeeps. apply Hstop; [done|].
    intros (path' & Hpath' & Hcase). assert (path' = path) as -> by congruence.
    destruct Hcase as [?|[?|(obj & ? & _)]]; congruence.
  - intros obj k v Hfile Hk HU Hs. rewrite Hfile in Hcases. split.
    + rewrite Hcases. apply (entries_fatal m Hwf _ m k v (inv_refl m)); [|done|done].
      by apply elem_of_range.
    + intros Hkeeps. apply Hstop; [done|].
      intros (path' & Hpath' & Hcase). assert (path' = path) as -> by congruence.
      destruct Hcase as [?|[?|(obj' & Hfile' & Hsup)]]; [done|congruence|].
      assert (obj' = obj) as -> by congruence.
      rewrite (Hsup k v Hk HU) in Hs. done.
Qed.

(** C9 (amended). Declaring a setting under a name that is already defined
    does not complete, in either version of the package: the flag package
    panics ("flag redefined") and the flag stays that of the earlier
    declaration. In flagfig.go the environment-variable name and the kind
    recorded for the name are replaced by those of the later declaration
    before the panic, and the variables allocated before keep their
    values. In flagfig/flagfig.go, when the name has a variable, the
    environment-variable name and the variable of the earlier declaration
    are kept, nothing is allocated, and the later default is written
    through the earlier variable before the panic. *)
Theorem C9_duplicate_declaration xType zero defaultValue name envName usage m fl :
  formal (FS m) !! name = Some fl →
  (∃ m', declare xType zero defaultValue name envName usage m
         = Panicked (PanicString (redefined (FS m) name)) m'
       ∧ envNames (this m') !! name = Some envName
       ∧ flagTypes (this m') !! name = Some xType
       ∧ formal (FS m') = formal (FS m)
       ∧ actual (FS m') = actual (FS m)
       ∧ ∀ q c, heap m !! q = Some c → heap m' !! q = Some c)
  ∧ (∀ (d : string) (s : Legacy.state) fl',
       formal (Legacy.FlagSet_ (Legacy.self s)) !! name = Some fl' →
       ∃ s', Legacy.String name d envName usage s
             = Legacy.Panic
                 (PanicString (redefined (Legacy.FlagSet_ (Legacy.self s)) name)) s'
           ∧ Legacy.FlagSet_ (Legacy.self s') = Legacy.FlagSet_ (Legacy.self s)
           ∧ ∀ p, Legacy.stringValues (Legacy.self s) !! name = Some p →
               Legacy.envNames (Legacy.self s') = Legacy.envNames (Legacy.self s)
               ∧ Legacy.stringValues (Legacy.self s') = Legacy.stringValues (Legacy.self s)
               ∧ Legacy.mem s' = <[p := stringValue d]> (Legacy.mem s)).
Proof.
  intros Hf. split.
  - rewrite declare_eq. cbv zeta. rewrite Hf.
    eexists. split; [done|]. simpl. rewrite !lookup_insert_eq.
    split; [done|]. split; [done|]. split; [done|]. split; [done|].
    intros q c Hq. by apply lookup_app_l_Some.
  - intros d s fl' Hf'.
    destruct (Legacy_String_defined name d envName usage s fl' Hf') as (s' & Hs & Hfs & Hvar).
    exists s'. split; [done|]. split; [done|].
    intros p Hp. by rewrite (Hvar p Hp).
Qed.

(** C10. When exactly one setting that was not passed on the command line
    has a non-empty value in the environment and the conversion of its
    kind rejects that value, [Collate], and so [Parse], returns that error
    when it returns, and it returns when no file stops the run. A value of
    a file never makes them return an error: [readConfigurationFiles]
    returns nil whenever it returns, and so does [Collate] when no setting
    has a value in the environment. *)
Theorem C10_conversion_errors os m n fl c :
  wf m → unvisited m n fl → heap m !! Value fl = Some c →
  envValue os m n ≠ "" →
  (∀ n' fl', unvisited m n' fl' → n' ≠ n → envValue os m n' = "") →
  (convert c (envValue os m n)).2 ≠ None →
  (∀ err m', Collate os m = Returned err m' →
     err = (convert c (envValue os m n)).2 ∧ err ≠ None)
  ∧ (∀ args m0 err m', FlagSet_Parse args m0 = Returned None m →
       Parse os args m0 = Returned err m' → err ≠ None)
  ∧ (keeps_paths os m → filesOK os m → ∃ e m', Collate os m = Returned (Some e) m')
  ∧ (∀ U m1 err m2, readConfigurationFiles os U m1 = Returned err m2 → err = None)
  ∧ (∀ m1 err m2, wf m1 → (∀ n1 fl1, unvisited m1 n1 fl1 → envValue os m1 n1 = "") →
       Collate os m1 = Returned err m2 → err = None).
Proof.
  intros Hwf Hu Hc Hne Hrest Hfail.
  assert (Herr : ∀ err m', Collate os m = Returned err m' →
            err = (convert c (envValue os m n)).2 ∧ err ≠ None).
  { intros err m' Hret.
    destruct (Collate_Returned_env m Hwf os err m' Hret) as (_ & _ & _ & He).
    rewrite (He n fl c Hu Hne Hrest Hc). done. }
  split; [done|]. split; [|split; [|split]].
  - intros args m0 err m' Hparse. rewrite (Parse_Collate os args m0 m Hparse).
    intros Hret. by apply (Herr err m').
  - intros Hkeeps%keeps_paths_no_redirection Hok.
    destruct (Collate_progress m Hwf os Hkeeps Hok) as (err & m' & Hret).
    destruct (Herr err m' Hret) as [_ Hsome]. destruct err as [e|]; [eauto|done].
  - intros U m1 err m2. rewrite readConfigurationFiles_eq.
    destruct (fold _ _ tt m1); [|done|done]. by intros [= <- _].
  - intros m1 err m2 Hwf1 Hempty Hret.
    destruct (Collate_Returned_env m1 Hwf1 os err m2 Hret) as (_ & _ & He & _). auto.
Qed.

End Proofs.

(** * The application of the examples *)

#[global] Existing Instance go_strconv.
#[global] Existing Instance go_range.

Lemma app_settings_registering : registering app_settings.
Proof.
  unfold app_settings, String, Int, Duration, Float64.
  repeat match goal with
  | |- registering (AddConfigFile _ _) => apply registering_AddConfigFile
  | |- registering (declare _ _ _ _ _ _) => apply registering_declare; reflexivity
  | |- registering (mret _) => apply registering_ret
  | |- registering (_ ≫= _) => apply registering_bind; [|intros ?]
  end.
Qed.

Lemma app_settings_Returned :
  app_settings (NewFlagfigSet "app" ContinueOnError)
  = Returned [0; 1; 2; 3; 4; 5; 6; 7] app_before_verbose.
Proof. vm_compute. reflexivity. Qed.

Lemma app_before_verbose_wf : wf app_before_verbose.
Proof.
  eapply registers_spec; [|apply wf_NewFlagfigSet].
  eapply app_settings_registering, app_settings_Returned.
Qed.

Lemma app_verbose_Returned :
  Bool "verbose" true "VERBOSE_ENV" "log more" app_before_verbose = Returned 8 app_registered.
Proof. vm_compute. reflexivity. Qed.

Lemma app_registered_wf : wf app_registered.
Proof.
  exact (proj1 (declare_Returned boolType (boolValue false) (boolValue true) "verbose"
                  "VERBOSE_ENV" "log more" app_before_verbose 8 app_registered
                  app_before_verbose_wf eq_refl app_verbose_Returned)).
Qed.

Lemma app_Parse_Returned : FlagSet_Parse app_args app_registered = Returned None app_parsed.
Proof. vm_compute. reflexivity. Qed.

Lemma app_parsed_wf : wf app_parsed.
Proof. eapply FlagSet_Parse_Returned; [apply app_registered_wf|apply app_Parse_Returned]. Qed.

Lemma app_parsed_keeps_paths os : keeps_paths os app_parsed.
Proof.
  apply keeps_paths_visited; [apply app_parsed_wf|].
  repeat constructor.
  - exists "config". eexists. split; [vm_compute; reflexivity|reflexivity].
  - exists "override". eexists. split; [vm_compute; reflexivity|reflexivity].
Qed.

(** The files of the application hold supported values only. *)
Lemma app_filesOK env : filesOK (mkOS env app_files) app_parsed.
Proof.
  assert (Hsup : ∀ obj : gmap string value,
            map_Forall (λ _ v, supported v = true) obj →
            ∀ k v, obj !! k = Some v → is_Some (unvisitedFlags app_parsed !! k) →
                   supported v = true).
  { intros obj Hall k v Hk _. by apply (Hall k v). }
  intros p Hp. change (configFilePaths (this app_parsed)) with [0; 1]%nat in Hp.
  apply elem_of_cons in Hp as [->|Hp]; [|apply list_elem_of_singleton in Hp as ->].
  - exists "/etc/app.json". split; [vm_compute; reflexivity|].
    right. right. exists app_json. split; [vm_compute; reflexivity|].
    apply Hsup, map_Forall_to_list. vm_compute. repeat constructor.
  - exists "/etc/override.json". split; [vm_compute; reflexivity|].
    right. right. exists override_json. split; [vm_compute; reflexivity|].
    apply Hsup, map_Forall_to_list. vm_compute. repeat constructor.
Qed.

Lemma app_parsed_no_redirection os : no_redirection os app_parsed.
Proof. apply keeps_paths_no_redirection, app_parsed_keeps_paths. Qed.

(** The application with three configuration files. *)
Lemma chain_settings_registering : registering chain_settings.
Proof.
  unfold chain_settings, Int, Bool.
  repeat match goal with
  | |- registering (AddConfigFile _ _) => apply registering_AddConfigFile
  | |- registering (declare _ _ _ _ _ _) => apply registering_declare; reflexivity
  | |- registering (mret _) => apply registering_ret
  | |- registering (_ ≫= _) => apply registering_bind; [|intros ?]
  end.
Qed.

Lemma chain_settings_Returned :
  chain_settings (NewFlagfigSet "chain" ContinueOnError)
  = Returned [0; 1; 2; 3; 4] chain_registered.
Proof. vm_compute. reflexivity. Qed.

Lemma chain_registered_wf : wf chain_registered.
Proof.
  eapply registers_spec; [|apply wf_NewFlagfigSet].
  eapply chain_settings_registering, chain_settings_Returned.
Qed.

Lemma chain_Parse_Returned :
  FlagSet_Parse chain_args chain_registered = Returned None chain_parsed.
Proof. vm_compute. reflexivity. Qed.

Lemma chain_parsed_wf : wf chain_parsed.
Proof.
  eapply FlagSet_Parse_Returned; [apply chain_registered_wf|apply chain_Parse_Returned].
Qed.

Lemma chain_Collate :
  Collate os_chain chain_parsed = Returned None (final (Collate os_chain chain_parsed)).
Proof. vm_compute. reflexivity. Qed.

Lemma chain_Parse :
  Parse os_chain chain_args chain_registered
  = Returned None (final (Parse os_chain chain_args chain_registered)).
Proof. vm_compute. reflexivity. Qed.

(** The second file redirects the pass: it names [extra], which was not
    passed on the command line. *)
Lemma chain_redirection : ¬ no_redirection os_chain chain_parsed.
Proof.
  intros Hno.
  apply (Hno 1%nat site_json "extra"
           (mkFlag "extra" "file path to one more JSON file" 2)).
  - vm_compute. right. left.
  - vm_compute. reflexivity.
  - eexists. vm_compute. reflexivity.
  - split; vm_compute; reflexivity.
  - vm_compute. right. right. left.
Qed.

(** [Collate] returns on the application, in each environment. *)
Lemma app_Collate_os_db :
  Collate os_db app_parsed = Returned None (final (Collate os_db app_parsed)).
Proof. vm_compute. reflexivity. Qed.

Lemma app_Collate_os_no_env :
  Collate os_no_env app_parsed = Returned None (final (Collate os_no_env app_parsed)).
Proof. vm_compute. reflexivity. Qed.

Lemma app_Collate_os_bad_count :
  Collate os_bad_count app_parsed
  = Returned (Some (NumError "ParseInt" "abc" false))
             (final (Collate os_bad_count app_parsed)).
Proof. vm_compute. reflexivity. Qed.

(** C1 on the application: [-name=explicit] stays, though the file has
    ["name": "filevalue"]. *)
Lemma C1_explicit_flag_kept_witness :
  heap (final (Collate os_db app_parsed)) !! 2%nat = Some (stringValue "explicit")
  ∧ Parse os_db app_args app_registered = Collate os_db app_parsed.
Proof.
  destruct (C1_explicit_flag_kept os_db app_parsed "name"
              (mkFlag "name" "name of the service" 2)) as [Hkept Hparse].
  - exact app_parsed_wf.
  - vm_compute. reflexivity.
  - split.
    + etrans; [exact Hkept|]. vm_compute. reflexivity.
    + apply Hparse. exact app_Parse_Returned.
Defined.

(** C2 on the application: [HOST_ENV=db.local] overrides the "filehost" of
    the file. *)
Lemma C2_environment_overrides_witness :
  app_json !! "host" = Some (VString "filehost")
  ∧ heap (final (Collate os_db app_parsed)) !! 3%nat = Some (stringValue "db.local")
  ∧ ∃ err m', Collate os_db app_parsed = Returned err m'.
Proof.
  destruct (C2_environment_overrides os_db app_parsed "host"
              (mkFlag "host" "host to connect to" 3) (stringValue "") "HOST_ENV" "db.local")
    as [Hvalue Hreturns].
  - exact app_parsed_wf.
  - split; vm_compute; reflexivity.
  - vm_compute. reflexivity.
  - vm_compute. reflexivity.
  - discriminate.
  - vm_compute. reflexivity.
  - discriminate.
  - split; [vm_compute; reflexivity|]. split.
    + exact (proj2 (Hvalue _ _ app_Collate_os_db) "" eq_refl).
    + apply Hreturns; [apply app_parsed_keeps_paths|apply app_filesOK].
Defined.

(** C2 as stated fails on the application: with [COUNT_ENV=abc] the Int
    setting [count], not passed on the command line, is 0 when [Collate]
    returns, which is not what "abc" stands for. *)
Lemma C2_counterexample :
  unvisited app_parsed "count" (mkFlag "count" "number of workers" 4)
  ∧ envNames (this app_parsed) !! "count" = Some "COUNT_ENV"
  ∧ environ os_bad_count !! "COUNT_ENV" = Some "abc"
  ∧ ∃ err m', Collate os_bad_count app_parsed = Returned err m'
      ∧ heap m' !! 4%nat = Some (intValue 0)
      ∧ ¬ denotes "abc" (intValue 0).
Proof.
  split; [split; vm_compute; reflexivity|].
  split; [vm_compute; reflexivity|]. split; [vm_compute; reflexivity|].
  eexists _, _. split; [exact app_Collate_os_bad_count|].
  split; [vm_compute; reflexivity|]. vm_compute. discriminate.
Qed.

(** C3 on the application: [count] is 1234 in the first file and 5678 in
    the second, which wins. *)
Lemma C3_last_file_wins_witness :
  app_json !! "count" = Some (json_number "1234")
  ∧ heap (final (Collate os_no_env app_parsed)) !! 4%nat = Some (intValue 5678).
Proof.
  destruct (C3_last_file_wins os_no_env app_parsed "count"
              (mkFlag "count" "number of workers" 4) (intValue 1)
              [0%nat] 1%nat [] override_json (json_number "5678") "5678")
    as (Hvalue & _ & _).
  - exact app_parsed_wf.
  - apply app_parsed_no_redirection.
  - split; vm_compute; reflexivity.
  - vm_compute. reflexivity.
  - vm_compute. reflexivity.
  - vm_compute. reflexivity.
  - vm_compute. reflexivity.
  - vm_compute. reflexivity.
  - intros x _. vm_compute. discriminate.
  - intros p obj Hp. destruct (not_elem_of_nil p Hp).
  - vm_compute. reflexivity.
  - split; [vm_compute; reflexivity|].
    etrans; [exact (Hvalue _ _ app_Collate_os_no_env)|]. vm_compute. reflexivity.
Defined.

(** C3 as stated fails on the application with three configuration files.
    The command line gives the first two and leaves the flag of the third
    empty; [count], an Int that was not passed and has no environment
    variable, is 1234 in the first file and 5678 in the second. The second
    file also names the flag of the third file, which [Collate] then reads:
    [count] holds the 42 of that file, not the value of the second. *)
Lemma C3_counterexample :
  wf chain_parsed
  ∧ unvisited chain_parsed "count" (mkFlag "count" "number of workers" 3)
  ∧ configFilePaths (this chain_parsed) = [0; 1; 2]%nat
  ∧ heap chain_parsed !! 2%nat = Some (stringValue "")
  ∧ fileAt os_chain (heap chain_parsed) 0 = Some base_json
  ∧ base_json !! "count" = Some (json_number "1234")
  ∧ fileAt os_chain (heap chain_parsed) 1 = Some site_json
  ∧ site_json !! "count" = Some (json_number "5678")
  ∧ render (declaredKind chain_parsed "count") (json_number "5678") = Some "5678"
  ∧ fileAt os_chain (heap chain_parsed) 2 = None
  ∧ envValue os_chain chain_parsed "count" = ""
  ∧ ¬ no_redirection os_chain chain_parsed
  ∧ ∃ err m', Collate os_chain chain_parsed = Returned err m'
      ∧ heap m' !! 3%nat = Some (intValue 42)
      ∧ heap m' !! 3%nat ≠ Some (convert (intValue 1) "5678").1.
Proof.
  split; [exact chain_parsed_wf|].
  split; [split; vm_compute; reflexivity|].
  do 9 (split; [vm_compute; reflexivity|]).
  split; [exact chain_redirection|].
  eexists _, _. split; [exact chain_Collate|].
  split; [vm_compute; reflexivity|]. vm_compute. discriminate.
Qed.

(** C4 on the application: [verbose], declared with the default [true],
    is in no file and [VERBOSE_ENV] is not set. *)
Lemma C4_default_kept_witness :
  ∃ err m', Parse os_no_env app_args app_registered = Returned err m'
    ∧ heap m' !! 8%nat = Some (boolValue true).
Proof.
  destruct (C4_default_kept os_no_env boolType (boolValue false) (boolValue true)
              "verbose" "VERBOSE_ENV" "log more" app_before_verbose 8%nat
              app_registered app_registered app_args app_parsed)
    as [Hvalue Hreturns].
  - exact app_before_verbose_wf.
  - reflexivity.
  - exact app_verbose_Returned.
  - apply registers_refl.
  - exact app_Parse_Returned.
  - vm_compute. reflexivity.
  - apply app_parsed_no_redirection.
  - vm_compute. reflexivity.
  - vm_compute. reflexivity.
  - destruct (Hreturns (app_filesOK ∅)) as (err & m' & Hret).
    exists err, m'. split; [exact Hret|exact (Hvalue err m' Hret)].
Defined.

(** C4 as stated fails on the application with three configuration files.
    [verbose] is declared with the default [true], is not passed on the
    command line and has no environment variable; neither file given on
    the command line names it. The second file names the flag of a third
    file, which [Parse] then reads: [verbose] is [false] when [Parse]
    returns. *)
Lemma C4_counterexample :
  wf chain_parsed
  ∧ heap chain_registered !! 4%nat = Some (boolValue true)
  ∧ FlagSet_Parse chain_args chain_registered = Returned None chain_parsed
  ∧ unvisited chain_parsed "verbose" (mkFlag "verbose" "log more" 4)
  ∧ configFilePaths (this chain_parsed) = [0; 1; 2]%nat
  ∧ heap chain_parsed !! 2%nat = Some (stringValue "")
  ∧ fileAt os_chain (heap chain_parsed) 0 = Some base_json
  ∧ base_json !! "verbose" = None
  ∧ fileAt os_chain (heap chain_parsed) 1 = Some site_json
  ∧ site_json !! "verbose" = None
  ∧ fileValues os_chain chain_parsed "verbose" = []
  ∧ envValue os_chain chain_parsed "verbose" = ""
  ∧ ¬ no_redirection os_chain chain_parsed
  ∧ ∃ err m', Parse os_chain chain_args chain_registered = Returned err m'
      ∧ heap m' !! 4%nat = Some (boolValue false)
      ∧ heap m' !! 4%nat ≠ Some (boolValue true).
Proof.
  split; [exact chain_parsed_wf|].
  split; [vm_compute; reflexivity|].
  split; [exact chain_Parse_Returned|].
  split; [split; vm_compute; reflexivity|].
  do 8 (split; [vm_compute; reflexivity|]).
  split; [exact chain_redirection|].
  eexists _, _. split; [exact chain_Parse|].
  split; [vm_compute; reflexivity|]. vm_compute. discriminate.
Qed.

(** C5 on the application: for [mode], declared a String with the default
    "fast", a JSON number is skipped and leaves the machine as it is, and
    a JSON [true] is stored as "true"; neither logs. *)
Lemma C5_mismatched_values_witness :
  (∀ x, fileEntry (unvisitedFlags app_parsed) tt ("mode", VFloat64 x) app_parsed
        = Returned tt app_parsed)
  ∧ ∃ m', fileEntry (unvisitedFlags app_parsed) tt ("mode", VBool true) app_parsed
          = Returned tt m'
        ∧ heap m' !! 7%nat = Some (stringValue "true")
        ∧ logged m' = [].
Proof.
  destruct (C5_mismatched_values app_parsed "mode"
              (mkFlag "mode" "mode of operation" 7) (stringValue "fast"))
    as (Hnumber & _ & Hbool).
  - exact app_parsed_wf.
  - split; vm_compute; reflexivity.
  - vm_compute. reflexivity.
  - split.
    + intros x. apply Hnumber. left. vm_compute. reflexivity.
    + exact (Hbool true "fast" eq_refl).
Defined.

(** C5 as stated fails on the application: the file gives [true] to
    [mode], declared a String with the default "fast", and the number 5 to
    [host], declared a String; after [Collate], [mode] is "true" and
    nothing was logged. *)
Lemma C5_counterexample :
  declaredKind app_parsed "mode" = stringType
  ∧ app_json !! "mode" = Some (VBool true)
  ∧ override_json !! "host" = Some (json_number "5")
  ∧ heap app_parsed !! 7%nat = Some (stringValue "fast")
  ∧ ∃ err m', Collate os_no_env app_parsed = Returned err m'
      ∧ heap m' !! 7%nat = Some (stringValue "true")
      ∧ logged m' = [].
Proof.
  do 4 (split; [vm_compute; reflexivity|]).
  eexists _, _. split; [exact app_Collate_os_no_env|].
  split; vm_compute; reflexivity.
Qed.

(** C6 on the application, with its first file damaged in three ways. *)
Lemma C6_file_failures_witness :
  (∃ m1, readConfigurationFile os_undecodable (unvisitedFlags app_parsed) tt (0, 0)%nat
           app_parsed = Returned tt m1
       ∧ heap m1 = heap app_parsed
       ∧ logged m1 = [LogUnableToDecode "/etc/app.json" (errorString "invalid JSON")])
  ∧ (∀ err m', Collate os_missing app_parsed ≠ Returned err m')
  ∧ (∀ err m', Collate os_null app_parsed ≠ Returned err m').
Proof.
  assert (Hin : (0%nat : loc) ∈ configFilePaths (this app_parsed)) by (by left).
  assert (Hpath : heap app_parsed !! 0%nat = Some (stringValue "/etc/app.json"))
    by (vm_compute; reflexivity).
  assert (Hne : "/etc/app.json" ≠ "") by discriminate.
  split; [|split].
  - destruct (C6_file_failures os_undecodable app_parsed 0 0 "/etc/app.json"
                app_parsed_wf Hin Hpath Hne) as (Hskip & _ & _).
    destruct Hskip as (m1 & Hret & Hheap & _ & Hlog & _); [vm_compute; reflexivity|].
    exists m1. split; [exact Hret|]. split; [exact Hheap|exact Hlog].
  - destruct (C6_file_failures os_missing app_parsed 0 0 "/etc/app.json"
                app_parsed_wf Hin Hpath Hne) as (_ & Hunreadable & _).
    destruct Hunreadable as [_ Hstop]; [vm_compute; reflexivity|].
    apply Hstop, app_parsed_keeps_paths.
  - destruct (C6_file_failures os_null app_parsed 0 0 "/etc/app.json"
                app_parsed_wf Hin Hpath Hne) as (_ & _ & Hfatal).
    destruct (Hfatal {[ "count" := VNil ]} "count" VNil) as [_ Hstop].
    + vm_compute. reflexivity.
    + vm_compute. reflexivity.
    + vm_compute. eexists. reflexivity.
    + reflexivity.
    + apply Hstop, app_parsed_keeps_paths.
Defined.

(** C9 on the two applications: declaring [name] a second time panics.
    In flagfig.go the environment-variable name was replaced before; in
    flagfig/flagfig.go it is kept, and the variable of [name] holds the
    later default. *)
Lemma C9_duplicate_declaration_witness :
  (∃ m', String "name" "other" "NAME_ENV" "again" app_registered
         = Panicked (PanicString "app flag redefined: name") m'
       ∧ envNames (this app_registered) !! "name" = Some ""
       ∧ envNames (this m') !! "name" = Some "NAME_ENV"
       ∧ formal (FS m') = formal (FS app_registered))
  ∧ (∃ s', Legacy.String "name" "other" "NAME_ENV" "again" legacy_registered
           = Legacy.Panic (PanicString "old flag redefined: name") s'
         ∧ Legacy.envNames (Legacy.self s') !! "name" = Some ""
         ∧ length (Legacy.mem s') = length (Legacy.mem legacy_registered)
         ∧ Legacy.mem legacy_registered !! 2%nat = Some (stringValue "default")
         ∧ Legacy.mem s' !! 2%nat = Some (stringValue "other")).
Proof.
  destruct (C9_duplicate_declaration stringType (stringValue "") (stringValue "other")
              "name" "NAME_ENV" "again" app_registered
              (mkFlag "name" "name of the service" 2))
    as [(m' & Hpanic & Henv & _ & Hformal & _) Hlegacy].
  - vm_compute. reflexivity.
  - split.
    + exists m'. split; [exact Hpanic|]. split; [vm_compute; reflexivity|].
      split; [exact Henv|exact Hformal].
    + destruct (Hlegacy "other" legacy_registered
                  (mkFlag "name" "name of the service" 2))
        as (s' & Hpanic' & _ & Hvar); [vm_compute; reflexivity|].
      destruct (Hvar 2%nat) as (Henv' & _ & Hmem); [vm_compute; reflexivity|].
      exists s'. split; [exact Hpanic'|].
      split; [rewrite Henv'; vm_compute; reflexivity|].
      rewrite Hmem. vm_compute. repeat split.
Defined.

(** C9 as stated fails on the two applications: the second declaration of
    [name] does not complete, and in flagfig/flagfig.go it does not
    replace the environment-variable name. *)
Lemma C9_counterexample :
  is_Some (formal (FS app_registered) !! "name")
  ∧ (∀ p m', String "name" "other" "NAME_ENV" "again" app_registered ≠ Returned p m')
  ∧ is_Some (formal (Legacy.FlagSet_ (Legacy.self legacy_registered)) !! "name")
  ∧ (∀ p s', Legacy.String "name" "other" "NAME_ENV" "again" legacy_registered
             ≠ Legacy.Ret p s')
  ∧ Legacy.envNames
      (Legacy.self
         (Legacy.final (Legacy.String "name" "other" "NAME_ENV" "again" legacy_registered)))
      !! "name" = Some "".
Proof.
  split; [vm_compute; eexists; reflexivity|].
  split; [|split; [vm_compute; eexists; reflexivity|split; [|vm_compute; reflexivity]]].
  2:{ assert (Hpanic : Legacy.String "name" "other" "NAME_ENV" "again" legacy_registered
                       = Legacy.Panic (PanicString "old flag redefined: name")
                           (Legacy.final (Legacy.String "name" "other" "NAME_ENV" "again"
                                            legacy_registered)))
        by (vm_compute; reflexivity).
      intros p s' Hret. rewrite Hpanic in Hret. discriminate Hret. }
  assert (Hpanic : String "name" "other" "NAME_ENV" "again" app_registered
                   = Panicked (PanicString "app flag redefined: name")
                       (final (String "name" "other" "NAME_ENV" "again" app_registered)))
    by (vm_compute; reflexivity).
  intros p m' Hret. rewrite Hpanic in Hret. discriminate Hret.
Qed.

(** In [os_bad_count] only [count] has a value in the environment. *)
Lemma app_env_only_count n :
  n ≠ "count" → envValue os_bad_count app_parsed n = "".
Proof.
  intros Hne. unfold envValue.
  destruct (envNames (this app_parsed) !! n) as [envName|] eqn:Hn; [|reflexivity].
  revert n envName Hn Hne.
  change (map_Forall (λ n envName, n ≠ "count" → Getenv os_bad_count envName = "")
            (envNames (this app_parsed))).
  apply map_Forall_to_list.
  set (l := map_to_list (envNames (this app_parsed))). vm_compute in l. subst l.
  repeat constructor; simpl; intros H; try reflexivity; by destruct H.
Qed.

(** C10 on the application: [COUNT_ENV=abc] for the Int setting [count]. *)
Lemma C10_conversion_errors_witness :
  (∃ e m', Collate os_bad_count app_parsed = Returned (Some e) m')
  ∧ ∀ err m', Collate os_bad_count app_parsed = Returned err m' →
      err = Some (NumError "ParseInt" "abc" false).
Proof.
  destruct (C10_conversion_errors os_bad_count app_parsed "count"
              (mkFlag "count" "number of workers" 4) (intValue 1))
    as (Herr & _ & Hreturns & _).
  - exact app_parsed_wf.
  - split; vm_compute; reflexivity.
  - vm_compute. reflexivity.
  - vm_compute. discriminate.
  - intros n' fl' _. apply app_env_only_count.
  - vm_compute. discriminate.
  - split.
    + apply Hreturns; [apply app_parsed_keeps_paths|apply app_filesOK].
    + intros err m' Hret. etrans; [exact (proj1 (Herr err m' Hret))|].
      vm_compute. reflexivity.
Defined.

(** ** Numbers of a file for Duration and Float64 settings *)

Lemma trimRight_ns s : trimRight (s ++ "ns") = s ++ "ns".
Proof.
  induction s as [|c s IH]; [reflexivity|].
  change (String.String c s ++ "ns") with (String.String c (s ++ "ns")). cbn [trimRight].
  rewrite IH. by destruct s.
Qed.

Lemma trimLeft_ns s : trimLeft (s ++ "ns") = trimLeft s ++ "ns".
Proof.
  induction s as [|c s IH]; [reflexivity|].
  change (String.String c s ++ "ns") with (String.String c (s ++ "ns")). cbn [trimLeft].
  by destruct (isSpace c).
Qed.

(** The text that the Duration case of the switch hands to [Set]: the
    number printed without decimals, then the unit. *)
Lemma duration_text x :
  strings_TrimSpace (fmt_pad 18 (fmt_f 0 x) ++ "ns")
  = trimLeft (fmt_pad 18 (fmt_f 0 x)) ++ "ns".
Proof. unfold strings_TrimSpace. by rewrite trimLeft_ns, trimRight_ns. Qed.

(** C7. For a Duration-declared setting that was not passed on the command
    line, a JSON number of a file is printed without decimals, the unit
    "ns" is appended, and the setting takes what [time.ParseDuration]
    makes of that text: the number counts nanoseconds. The number
    30000000000 is handed over as "30000000000ns", which parses to 30
    seconds. *)
Theorem C7_duration_nanoseconds m k fl d x :
  wf m → unvisited m k fl → heap m !! Value fl = Some (durationValue d) →
  declaredKind m k = durationType →
  let text := trimLeft (fmt_pad 18 (fmt_f 0 x)) ++ "ns" in
  (∃ m', fileEntry (unvisitedFlags m) tt (k, VFloat64 x) m = Returned tt m'
       ∧ heap m' !! Value fl = Some (durationValue (time_ParseDuration text).1)
       ∧ logged m' = logged m)
  ∧ (x = (strconv_ParseFloat "30000000000").1 →
       text = "30000000000ns"
       ∧ time_ParseDuration text = ((30 * 1000000000)%Z, None)).
Proof.
  intros Hwf Hu Hc Hkind text. split.
  - destruct (fileEntry_cases m Hwf m k (VFloat64 x) (inv_refl m))
      as [[HU _]|(fl' & c' & Hu' & Hc' & H)].
    { by destruct (proj1 (unvisitedFlags_None m k) HU fl). }
    assert (fl' = fl) as -> by (destruct Hu, Hu'; congruence).
    assert (c' = durationValue d) as -> by congruence.
    simpl in H. destruct H as (m' & Hret & Hheap & Hlog & _).
    exists m'. split; [done|]. split; [|done].
    rewrite Hheap. unfold applyValue, render. rewrite Hkind, duration_text.
    fold text. simpl. destruct (time_ParseDuration text) as [v err]. simpl.
    apply list_lookup_insert_eq. by eapply lookup_lt_Some.
  - intros ->. subst text. split; vm_compute; reflexivity.
Qed.

(** C7 on the application: the file gives 30000000000 to [timeout], which
    is 30 seconds after [Collate]. *)
Lemma C7_duration_nanoseconds_witness :
  app_json !! "timeout" = Some (json_number "30000000000")
  ∧ (∃ m', fileEntry (unvisitedFlags app_parsed) tt
             ("timeout", json_number "30000000000") app_parsed = Returned tt m'
         ∧ heap m' !! 5%nat = Some (durationValue (30 * 1000000000)))
  ∧ heap (final (Collate os_no_env app_parsed)) !! 5%nat
    = Some (durationValue (30 * 1000000000)).
Proof.
  destruct (C7_duration_nanoseconds app_parsed "timeout"
              (mkFlag "timeout" "time to wait" 5) 1
              (strconv_ParseFloat "30000000000").1)
    as [(m' & Hret & Hheap & _) Hthirty].
  - exact app_parsed_wf.
  - split; vm_compute; reflexivity.
  - vm_compute. reflexivity.
  - vm_compute. reflexivity.
  - destruct (Hthirty eq_refl) as [_ Hparse].
    split; [vm_compute; reflexivity|]. split.
    + exists m'. split; [exact Hret|]. etrans; [exact Hheap|].
      exact (f_equal (λ r, Some (durationValue r.1)) Hparse).
    + vm_compute. reflexivity.
Defined.

(** C8 fails on the application: the file gives 0.0000001 to [ratio],
    declared a Float64, named by no other file, not passed on the command
    line and without a value in the environment; the switch prints it
    with six decimals, as "0.000000", and [ratio] is 0 after [Collate]. *)
Theorem C8_float_precision_lost :
  unvisited app_parsed "ratio" (mkFlag "ratio" "sampling ratio" 6)
  ∧ declaredKind app_parsed "ratio" = floatType
  ∧ fileValues os_no_env app_parsed "ratio" = [json_number "0.0000001"]
  ∧ envValue os_no_env app_parsed "ratio" = ""
  ∧ render floatType (json_number "0.0000001") = Some "0.000000"
  ∧ ∃ err m', Collate os_no_env app_parsed = Returned err m'
      ∧ heap m' !! 6%nat = Some (float64Value (S754_zero false))
      ∧ (strconv_ParseFloat "0.0000001").1 ≠ S754_zero false.
Proof.
  split; [split; vm_compute; reflexivity|].
  do 4 (split; [vm_compute; reflexivity|]).
  eexists _, _. split; [exact app_Collate_os_no_env|].
  split; [vm_compute; reflexivity|]. vm_compute. discriminate.
Qed.

(** * Further properties of the resolution *)

Section Resolution.
Context {sc : Strconv} {mr : MapRange}.
Local Open Scope list_scope.

Lemma fold_app {A S} (f : S → A → M S) l1 l2 s m :
  fold f (l1 ++ l2) s m = (fold f l1 s ≫= λ s', fold f l2 s') m.
Proof.
  revert s m. induction l1 as [|x l1 IH]; intros s m; [done|].
  simpl. unfold mbind, M_bind. destruct (f s x m) as [s1 m1| |]; [|done|done].
  apply IH.
Qed.

(** A path variable that holds the empty string names no file. *)
Lemma files_skipped os U ps m :
  (∀ i p, (i, p) ∈ ps → heap m !! p = Some (stringValue "")) →
  fold (readConfigurationFile os U) ps tt m = Returned tt m.
Proof.
  induction ps as [|[i p] ps IH]; intros Hps; [done|].
  rewrite fold_cons.
  rewrite (bind_eq_Returned _ _ m tt m).
  - apply IH. intros i' p' Hin. apply (Hps i'). by right.
  - rewrite (readConfigurationFile_cases os U i p m ""); [done|]. apply (Hps i). by left.
Qed.

(** X1. The resolution formula. When no configured file names a
    configuration-file flag that was not passed on the command line and
    [Collate] returns, every setting that was not passed holds the value
    it had,
    updated by the value of each configured file that names it, in
    registration order of the files, and then by the value of its
    environment variable; every setting that was passed holds what it
    held; and the state is well formed again. *)
Theorem Collate_resolves os m err m' :
  wf m → no_redirection os m → Collate os m = Returned err m' →
  wf m'
  ∧ (∀ n fl c, unvisited m n fl → heap m !! Value fl = Some c →
       heap m' !! Value fl
       = Some (applyEnv os m n
                 (foldl (applyValue (declaredKind m n)) c (fileValues os m n))))
  ∧ (∀ n fl, actual (FS m) !! n = Some fl → heap m' !! Value fl = heap m !! Value fl).
Proof.
  intros Hwf Hkeeps Hret.
  destruct (Collate_Returned m Hwf os Hkeeps err m' Hret) as ([Hev Hframe] & _ & Hres & _).
  split; [by eapply evolves_wf|]. split; [exact Hres|].
  intros n fl Ha. apply Hframe. intros (n' & fl' & [Hf' Ha'] & Heq).
  pose proof (wf_actual m Hwf n fl Ha) as Hf.
  rewrite (wf_inj m Hwf n' n fl' fl Hf' Hf Heq) in Ha'. congruence.
Qed.

(** X2. When no configured file names a configuration-file flag that was
    not passed on the command line, [Collate] returns exactly when no
    configured file stops it: each path variable holds the empty string,
    or the path of a readable file
    that either does not decode or gives supported values (bool, string,
    number) to the settings that were not passed on the command line.
    Unknown names and names of settings that were passed do not count. *)
Theorem Collate_returns_iff os m :
  wf m → no_redirection os m →
  (∃ err m', Collate os m = Returned err m') ↔ filesOK os m.
Proof.
  intros Hwf Hkeeps. split.
  - intros (err & m' & Hret).
    by destruct (Collate_Returned m Hwf os Hkeeps err m' Hret) as (_ & Hok & _).
  - by apply Collate_progress.
Qed.

(** X3. Whatever its outcome (return, panic or exit), [Collate] leaves
    the registry as it is: the defined flags, the recorded kinds, the
    environment-variable names and the list of configuration files are
    those of before, every variable is still allocated with a value of the
    kind it had, and the state is well formed. *)
Theorem Collate_keeps_registry os m :
  wf m →
  let m' := final (Collate os m) in
  wf m'
  ∧ formal (FS m') = formal (FS m)
  ∧ flagTypes (this m') = flagTypes (this m)
  ∧ envNames (this m') = envNames (this m)
  ∧ configFilePaths (this m') = configFilePaths (this m)
  ∧ (∀ p c, heap m !! p = Some c → ∃ c', heap m' !! p = Some c' ∧ kindOf c' = kindOf c).
Proof.
  intros Hwf m'. destruct (Collate_final m Hwf os) as [Hev _]. fold m' in Hev.
  split; [by eapply evolves_wf|]. by destruct Hev.
Qed.

(** X4. The environment is not consulted for a setting registered with
    the empty environment-variable name, and a variable that is not set,
    or set to the empty string, gives nothing: when no configured file
    names a configuration-file flag that was not passed on the command
    line, such a setting, when it was not passed either, holds what the
    configured files made of it when [Collate] returns. *)
Theorem Collate_blank_environment os m n fl c err m' :
  wf m → no_redirection os m → unvisited m n fl → heap m !! Value fl = Some c →
  (∀ envName, envNames (this m) !! n = Some envName →
     envName = "" ∨ environ os !! envName = None ∨ environ os !! envName = Some "") →
  Collate os m = Returned err m' →
  heap m' !! Value fl
  = Some (foldl (applyValue (declaredKind m n)) c (fileValues os m n)).
Proof.
  intros Hwf Hkeeps Hu Hc Henv Hret.
  destruct (Collate_Returned m Hwf os Hkeeps err m' Hret) as (_ & _ & Hres & _).
  rewrite (Hres n fl c Hu Hc). f_equal. unfold resolve, applyEnv.
  rewrite decide_True; [done|]. unfold envValue, Getenv.
  destruct (envNames (this m) !! n) as [envName|]; [|done].
  destruct (Henv envName eq_refl) as [->|[->| ->]]; [done| |]; by destruct (decide _).
Qed.

(** X5. Without a configuration file on the command line (every path
    variable holds the empty string), [Collate] reads no file, whatever
    exists on disk: it returns, logs nothing, and every setting that was
    not passed holds what the environment makes of the value it had. *)
Theorem Collate_without_config_paths os m :
  wf m → (∀ p, p ∈ configFilePaths (this m) → heap m !! p = Some (stringValue "")) →
  ∃ err m', Collate os m = Returned err m'
    ∧ logged m' = logged m
    ∧ (∀ n fl c, unvisited m n fl → heap m !! Value fl = Some c →
         heap m' !! Value fl = Some (applyEnv os m n c)).
Proof.
  intros Hwf Hpaths. rewrite Collate_unvisited by done. unfold mbind, M_bind.
  rewrite readConfigurationFiles_eq, files_skipped.
  - destruct (env_loop m Hwf os (range 1 (unvisitedFlags m)) (range_NoDup 1 _)
                (unvisited_range m) m None (inv_refl m))
      as (err & m' & Hret & _ & Hlog & _ & Hcell & _).
    exists err, m'. split; [done|]. split; [done|].
    intros n fl c Hu Hc. apply (Hcell n); [|done].
    apply elem_of_range, unvisitedFlags_lookup. eauto.
  - intros i p Hin. by apply Hpaths, (elem_of_imap_pair _ i).
Qed.

(** X6. Declaring a setting under a name that is not defined returns a
    new variable that holds the default; the flag is defined with that
    variable, its kind and environment-variable name are recorded, the
    other flags and variables are as before, and the setting does not
    count as passed on the command line. *)
Theorem declare_fresh_name xType zero defaultValue name envName usage m :
  wf m → kindOf defaultValue = xType → formal (FS m) !! name = None →
  ∃ m', declare xType zero defaultValue name envName usage m
        = Returned (length (heap m)) m'
    ∧ wf m'
    ∧ heap m' = heap m ++ [defaultValue]
    ∧ formal (FS m') = <[name := mkFlag name usage (length (heap m))]> (formal (FS m))
    ∧ actual (FS m') = actual (FS m)
    ∧ unvisited m' name (mkFlag name usage (length (heap m)))
    ∧ envNames (this m') !! name = Some envName
    ∧ flagTypes (this m') !! name = Some xType
    ∧ configFilePaths (this m') = configFilePaths (this m).
Proof.
  intros Hwf Hk Hnew.
  destruct (declare xType zero defaultValue name envName usage m) as [p m'|v m'|k m'] eqn:Hd;
    rewrite declare_eq in Hd; cbv zeta in Hd; rewrite Hnew in Hd; [|done|done].
  assert (Hret : declare xType zero defaultValue name envName usage m = Returned p m').
  { rewrite declare_eq. cbv zeta. by rewrite Hnew. }
  destruct (declare_Returned _ _ _ _ _ _ _ _ _ Hwf Hk Hret)
    as (Hwf' & -> & _ & Hh & Hf & Ha & Hp & Ht & He).
  exists m'. split; [done|]. split; [done|]. split; [done|]. split; [done|].
  split; [done|]. split; [|split; [|split; [|done]]].
  - split; [by rewrite Hf, lookup_insert_eq|].
    rewrite Ha. destruct (actual (FS m) !! name) as [fl|] eqn:Hact; [|done].
    by rewrite (wf_actual m Hwf name fl Hact) in Hnew.
  - by rewrite He, lookup_insert_eq.
  - by rewrite Ht, lookup_insert_eq.
Qed.

End Resolution.

Section Order.
Context {sc : Strconv} {mr : MapRange}.
Local Open Scope list_scope.

(** X7. The error that [Collate] returns is the error of the last [Set]
    of its loop over the environment, which follows the iteration order
    of a map: when the last setting, in that order, with a value in the
    environment is [k], [Collate] returns the error of the conversion of
    that value, nil when it converts, whatever the conversions of the
    settings before did. *)
Theorem Collate_error_of_last_Set os m l1 k fl l2 c err m' :
  wf m →
  range 1 (unvisitedFlags m) = l1 ++ (k, Some fl) :: l2 →
  envValue os m k ≠ "" →
  (∀ k' o, (k', o) ∈ l2 → envValue os m k' = "") →
  heap m !! Value fl = Some c →
  Collate os m = Returned err m' →
  err = (convert c (envValue os m k)).2.
Proof.
  intros Hwf Hrange Hk Hl2 Hc.
  pose proof (range_NoDup 1 (unvisitedFlags m)) as Hnd.
  assert (Hin : ∀ k' o, (k', o) ∈ l1 ++ (k, Some fl) :: l2 →
            ∃ fl', o = Some fl' ∧ unvisited m k' fl').
  { intros k' o Hin. apply (unvisited_range m). by rewrite Hrange. }
  rewrite Hrange, fmap_app, fmap_cons in Hnd.
  apply NoDup_app in Hnd as (Hnd1 & _ & Hnd2). apply NoDup_cons in Hnd2 as [_ Hnd2].
  rewrite Collate_unvisited by done. unfold mbind, M_bind.
  rewrite readConfigurationFiles_eq.
  pose proof (files_final m Hwf os (imap (λ i p, (i, p)) (configFilePaths (this m))) m
                (inv_refl m) (λ i p, elem_of_imap_pair _ i p)) as Hinv1.
  destruct (fold _ _ tt m) as [[] m1|v m1|n m1]; [|done|done]. simpl in Hinv1.
  rewrite Hrange, fold_app. unfold mbind, M_bind.
  destruct (env_loop m Hwf os l1 Hnd1) with (m := m1) (err := @None error)
    as (err1 & m2 & -> & Hinv2 & _); [|done|].
  { intros k' o Hk'. apply Hin, elem_of_app. by left. }
  destruct (Hin k (Some fl)) as (fl' & [= <-] & Hu); [apply elem_of_app; right; by left|].
  destruct (inv_cell m m2 k fl Hwf Hinv2 (proj1 Hu)) as (_ & c2 & Hc2).
  rewrite fold_cons. unfold mbind, M_bind.
  destruct (envEntry_spec m Hwf os m2 err1 k fl c2 Hinv2 Hu Hc2) as (m3 & -> & _ & _ & Hinv3).
  rewrite decide_False by done.
  destruct (env_loop m Hwf os l2 Hnd2) with (m := m3)
    (err := (convert c2 (envValue os m k)).2) as (err3 & m4 & -> & _ & _ & _ & _ & Hsame & _);
    [|done|].
  { intros k' o Hk'. apply Hin, elem_of_app. right. by right. }
  intros [= <- _]. rewrite (Hsame Hl2).
  destruct (ev_kind _ _ (proj1 Hinv2) _ _ Hc) as (c2' & Hc2' & Hkind).
  assert (c2' = c2) as -> by congruence. by rewrite (convert_same_kind c2 c).
Qed.

(** ** Nested configurations *)

Lemma afterParsedAll_app l1 l2 m :
  afterParsedAll (l1 ++ l2) m
  = (afterParsedAll l1 ≫= λ err, match err with
                                 | Some _ => mret err
                                 | None => afterParsedAll l2
                                 end) m.
Proof.
  revert m. induction l1 as [|nc l1 IH]; intros m; [done|].
  simpl. unfold mbind, M_bind.
  destruct (AfterParsed nc m) as [[e|] m1| |]; first [done|apply IH].
Qed.

(** X8. [ParseNested] registers the flags of every nester on a new
    [FlagfigSet], parses, and runs the [AfterParsed] of the nesters in
    order up to the first error. Once the registrations have returned: an
    error of [Parse] is returned and no [AfterParsed] runs; the first
    error of an [AfterParsed] is returned in the state that call left, and
    the nesters after it are not run; without any error the result is nil.
    [MustParseNested] panics with the error in the first two cases and
    returns in the third. *)
Theorem ParseNested_first_error os handling nestedConfigs args m m1 :
  fold (λ _ nc, RegisterFlags nc) nestedConfigs tt
    (set_this (this (NewFlagfigSet "" handling)) m) = Returned tt m1 →
  (∀ e m2, Parse os args m1 = Returned (Some e) m2 →
     ParseNested os handling nestedConfigs args m = Returned (Some e) m2
     ∧ MustParseNested os handling nestedConfigs args m = Panicked (PanicError e) m2)
  ∧ (∀ l1 nc l2 m2 m3 e m4, nestedConfigs = l1 ++ nc :: l2 →
       Parse os args m1 = Returned None m2 →
       afterParsedAll l1 m2 = Returned None m3 →
       AfterParsed nc m3 = Returned (Some e) m4 →
       ParseNested os handling nestedConfigs args m = Returned (Some e) m4
       ∧ MustParseNested os handling nestedConfigs args m = Panicked (PanicError e) m4)
  ∧ (∀ m2 m3, Parse os args m1 = Returned None m2 →
       afterParsedAll nestedConfigs m2 = Returned None m3 →
       ParseNested os handling nestedConfigs args m = Returned None m3
       ∧ MustParseNested os handling nestedConfigs args m = Returned tt m3).
Proof.
  intros Hreg.
  assert (Hstart : ParseNested os handling nestedConfigs args m
            = (Parse os args ≫= λ err, match err with
                                        | Some _ => mret err
                                        | None => afterParsedAll nestedConfigs
                                        end) m1).
  { unfold ParseNested, modify, mbind at 1 2, M_bind. by rewrite Hreg. }
  assert (Hmust : ∀ r m', ParseNested os handling nestedConfigs args m = Returned r m' →
            MustParseNested os handling nestedConfigs args m
            = match r with
              | Some e => Panicked (PanicError e) m'
              | None => Returned tt m'
              end).
  { intros r m' Hr. unfold MustParseNested, mbind, M_bind. rewrite Hr. by destruct r. }
  split; [|split].
  - intros e m2 Hparse.
    assert (Hr : ParseNested os handling nestedConfigs args m = Returned (Some e) m2).
    { rewrite Hstart. unfold mbind, M_bind. by rewrite Hparse. }
    split; [done|]. by rewrite (Hmust _ _ Hr).
  - intros l1 nc l2 m2 m3 e m4 -> Hparse Hl1 Hnc.
    assert (Hr : ParseNested os handling (l1 ++ nc :: l2) args m = Returned (Some e) m4).
    { rewrite Hstart. unfold mbind at 1, M_bind. rewrite Hparse, afterParsedAll_app.
      unfold mbind, M_bind. rewrite Hl1. simpl. unfold mbind, M_bind. by rewrite Hnc. }
    split; [done|]. by rewrite (Hmust _ _ Hr).
  - intros m2 m3 Hparse Hall.
    assert (Hr : ParseNested os handling nestedConfigs args m = Returned None m3).
    { rewrite Hstart. unfold mbind, M_bind. by rewrite Hparse. }
    split; [done|]. by rewrite (Hmust _ _ Hr).
Qed.

End Order.

(** ** The further properties on the application *)

(** X1 on the application: [count] is 1 by default, 1234 in the first
    file and 5678 in the second; [host] is "filehost" in the first file
    and [HOST_ENV] is "db.local". *)
Lemma Collate_resolves_witness :
  heap (final (Collate os_db app_parsed)) !! 4%nat = Some (intValue 5678)
  ∧ heap (final (Collate os_db app_parsed)) !! 3%nat = Some (stringValue "db.local")
  ∧ heap (final (Collate os_db app_parsed)) !! 2%nat = Some (stringValue "explicit").
Proof.
  destruct (Collate_resolves os_db app_parsed None (final (Collate os_db app_parsed)))
    as (_ & Hres & Hkept).
  - exact app_parsed_wf.
  - apply app_parsed_no_redirection.
  - exact app_Collate_os_db.
  - split; [|split].
    + etrans; [apply (Hres "count" (mkFlag "count" "number of workers" 4) (intValue 1))|].
      * split; vm_compute; reflexivity.
      * vm_compute. reflexivity.
      * vm_compute. reflexivity.
    + etrans; [apply (Hres "host" (mkFlag "host" "host to connect to" 3) (stringValue ""))|].
      * split; vm_compute; reflexivity.
      * vm_compute. reflexivity.
      * vm_compute. reflexivity.
    + etrans; [apply (Hkept "name" (mkFlag "name" "name of the service" 2))|].
      * vm_compute. reflexivity.
      * vm_compute. reflexivity.
Defined.

(** X2 on the application. *)
Lemma Collate_returns_iff_witness :
  ∃ err m', Collate os_db app_parsed = Returned err m'.
Proof.
  apply (Collate_returns_iff os_db app_parsed).
  - exact app_parsed_wf.
  - apply app_parsed_no_redirection.
  - apply app_filesOK.
Defined.

(** X3 on the application, for a run that ends in [log.Fatalf]. *)
Lemma Collate_keeps_registry_witness :
  (∀ err m', Collate os_null app_parsed ≠ Returned err m')
  ∧ formal (FS (final (Collate os_null app_parsed))) = formal (FS app_parsed)
  ∧ envNames (this (final (Collate os_null app_parsed))) = envNames (this app_parsed).
Proof.
  destruct (Collate_keeps_registry os_null app_parsed app_parsed_wf)
    as (_ & Hformal & _ & Henv & _).
  split; [|split; [exact Hformal|exact Henv]].
  assert (Hexit : Collate os_null app_parsed
                  = Exited 1 (final (Collate os_null app_parsed)))
    by (vm_compute; reflexivity).
  intros err m' Hret. rewrite Hexit in Hret. discriminate Hret.
Defined.

(** X4 on the application: [mode] is registered with the empty
    environment-variable name; the file gives it [true]. *)
Lemma Collate_blank_environment_witness :
  heap (final (Collate os_db app_parsed)) !! 7%nat = Some (stringValue "true").
Proof.
  etrans; [apply (Collate_blank_environment os_db app_parsed "mode"
                    (mkFlag "mode" "mode of operation" 7) (stringValue "fast") None)|].
  - exact app_parsed_wf.
  - apply app_parsed_no_redirection.
  - split; vm_compute; reflexivity.
  - vm_compute. reflexivity.
  - intros envName Hn. left.
    assert (Hmode : envNames (this app_parsed) !! "mode" = Some "")
      by (vm_compute; reflexivity).
    rewrite Hmode in Hn. injection Hn as <-. reflexivity.
  - exact app_Collate_os_db.
  - vm_compute. reflexivity.
Defined.

(** X5 on the application before its command line is parsed: the path
    variables are empty, no file is read, [host] takes [HOST_ENV]. *)
Lemma Collate_without_config_paths_witness :
  ∃ err m', Collate os_db app_registered = Returned err m'
    ∧ logged m' = []
    ∧ heap m' !! 3%nat = Some (stringValue "db.local").
Proof.
  destruct (Collate_without_config_paths os_db app_registered)
    as (err & m' & Hret & Hlog & Hcell).
  - exact app_registered_wf.
  - intros p Hp. change (configFilePaths (this app_registered)) with [0; 1]%nat in Hp.
    apply elem_of_cons in Hp as [->|Hp]; [|apply list_elem_of_singleton in Hp as ->];
      vm_compute; reflexivity.
  - exists err, m'. split; [exact Hret|]. split; [exact Hlog|].
    etrans; [apply (Hcell "host" (mkFlag "host" "host to connect to" 3) (stringValue ""))|].
    + split; vm_compute; reflexivity.
    + vm_compute. reflexivity.
    + vm_compute. reflexivity.
Defined.

(** X6 on a new [FlagfigSet]: the first declaration gets the variable 0. *)
Lemma declare_fresh_name_witness :
  ∃ m', Int "count" 1 "COUNT_ENV" "number of workers" (NewFlagfigSet "app" ContinueOnError)
        = Returned 0%nat m'
    ∧ heap m' = [intValue 1]
    ∧ flagTypes (this m') !! "count" = Some intType.
Proof.
  destruct (declare_fresh_name intType (intValue 0) (intValue 1) "count" "COUNT_ENV"
              "number of workers" (NewFlagfigSet "app" ContinueOnError))
    as (m' & Hret & _ & Hheap & _ & _ & _ & _ & Htype & _).
  - apply wf_NewFlagfigSet.
  - reflexivity.
  - reflexivity.
  - exists m'. split; [exact Hret|]. split; [exact Hheap|exact Htype].
Defined.

(** X7 on the application: [COUNT_ENV=abc] does not convert, but [host],
    whose [HOST_ENV=db.local] converts, comes last in the order of
    [go_range]: [Collate] returns nil, and [count] is 0. *)
Lemma Collate_error_of_last_Set_witness :
  (∀ err m', Collate os_two app_parsed = Returned err m' → err = None)
  ∧ (∃ err m', Collate os_two app_parsed = Returned err m')
  ∧ heap (final (Collate os_two app_parsed)) !! 4%nat = Some (intValue 0).
Proof.
  split; [|split].
  - intros err m' Hret.
    etrans; [apply (Collate_error_of_last_Set os_two app_parsed
               [("count", Some (mkFlag "count" "number of workers" 4));
                ("mode", Some (mkFlag "mode" "mode of operation" 7));
                ("verbose", Some (mkFlag "verbose" "log more" 8));
                ("ratio", Some (mkFlag "ratio" "sampling ratio" 6));
                ("timeout", Some (mkFlag "timeout" "time to wait" 5))]
               "host" (mkFlag "host" "host to connect to" 3) [] (stringValue "") err m')|].
    + exact app_parsed_wf.
    + vm_compute. reflexivity.
    + vm_compute. discriminate.
    + intros k' o Hin. destruct (not_elem_of_nil _ Hin).
    + vm_compute. reflexivity.
    + exact Hret.
    + vm_compute. reflexivity.
  - eexists _, _. vm_compute. reflexivity.
  - vm_compute. reflexivity.
Defined.

(** X8 on the two nested configurations of the example: the command line
    gives no last name, the [AfterParsed] of the first nester returns its
    error and [MustParseNested] panics with it. *)
Lemma ParseNested_first_error_witness :
  MustParseNested os_no_env ContinueOnError [server_config; inner_config]
    ["-firstName=Ada"] (NewFlagfigSet "" ContinueOnError)
  = Panicked (PanicError (errorString "you do not get in until you tell me your name"))
      nested_parsed.
Proof.
  destruct (ParseNested_first_error os_no_env ContinueOnError
              [server_config; inner_config] ["-firstName=Ada"]
              (NewFlagfigSet "" ContinueOnError) nested_registered)
    as (_ & Hhook & _).
  - vm_compute. reflexivity.
  - apply (Hhook [] server_config [inner_config] nested_parsed nested_parsed).
    + reflexivity.
    + vm_compute. reflexivity.
    + reflexivity.
    + vm_compute. reflexivity.
Defined.

(** * Numbers of a file for integer and Duration settings *)

Lemma digitsValue_ge d n : (0 ≤ n → n ≤ digitsValue d n)%Z.
Proof.
  revert n. induction d; intros n Hn; simpl; [lia|..];
    (etrans; [|apply IHd]; lia).
Qed.

Lemma digitsValue_of_uint_acc d acc :
  Z.pos (Pos.of_uint_acc d acc) = digitsValue d (Z.pos acc).
Proof.
  revert acc. induction d; intros acc; simpl; [done|..]; rewrite IHd; f_equal; lia.
Qed.

Lemma digitsValue_of_uint d : Z.of_N (Pos.of_uint d) = digitsValue d 0.
Proof.
  induction d; simpl; try done; by rewrite digitsValue_of_uint_acc.
Qed.

Lemma digitsValue_to_uint n : digitsValue (N.to_uint n) 0 = Z.of_N n.
Proof.
  rewrite <- digitsValue_of_uint. f_equal. apply DecimalN.Unsigned.of_to.
Qed.

Lemma unorm_head d :
  Decimal.unorm d = Decimal.D0 Decimal.Nil
  ∨ match Decimal.unorm d with Decimal.Nil | Decimal.D0 _ => False | _ => True end.
Proof.
  unfold Decimal.unorm. induction d; simpl; auto.
Qed.

Lemma to_uint_head n :
  N.to_uint n = Decimal.D0 Decimal.Nil
  ∨ match N.to_uint n with Decimal.Nil | Decimal.D0 _ => False | _ => True end.
Proof.
  rewrite <- (DecimalN.Unsigned.of_to n).
  rewrite DecimalN.Unsigned.to_of. apply unorm_head.
Qed.

Lemma maxUint64_eq : maxUint64 = 18446744073709551615%Z.
Proof. reflexivity. Qed.

Ltac eval_digitVal :=
  match goal with
  | |- context [digitVal ?c] =>
      let v := eval vm_compute in (digitVal c) in change (digitVal c) with v
  end.

(** The digit loop of [ParseUint] on the digits [d]. *)
Lemma uintLoop_digits d n :
  (0 ≤ n ≤ maxUint64)%Z →
  uintLoop 10 (NilEmpty.string_of_uint d) n
  = if (digitsValue d n <=? maxUint64)%Z then inl (digitsValue d n) else inr true.
Proof.
  revert n. induction d; intros n Hn; cbn [NilEmpty.string_of_uint uintLoop digitsValue];
    [by rewrite (proj2 (Z.leb_le _ _)) by lia|..];
    eval_digitVal; cbv iota beta zeta;
    change (10 <=? _)%Z with false; cbv iota;
    change (maxUint64 / 10 + 1)%Z with 1844674407370955162%Z;
    match goal with
    | |- context [digitsValue d ?n1] =>
        pose proof (digitsValue_ge d n1) as Hge; rewrite maxUint64_eq in *;
        destruct (Z.leb_spec 1844674407370955162 n);
          [rewrite (proj2 (Z.leb_gt _ _)) by lia; done|];
        replace (n * 10 + _)%Z with n1 by lia;
        destruct (Z.ltb_spec 18446744073709551615 n1);
          [rewrite (proj2 (Z.leb_gt _ _)) by lia; done|];
        rewrite IHd by lia; done
    end.
Qed.

Lemma FormatUint_value n :
  (0 ≤ n)%Z → digitsValue (N.to_uint (Z.to_N n)) 0 = n.
Proof. intros Hn. rewrite digitsValue_to_uint. lia. Qed.

(** [ParseUint] and [ParseInt] on the digits of a number without leading
    zeros, by the digit loop. *)
Lemma parse_digits d :
  (d = Decimal.D0 Decimal.Nil
   ∨ match d with Decimal.Nil | Decimal.D0 _ => False | _ => True end) →
  let s := NilZero.string_of_uint d in
  let un := digitsValue d 0 in
  parseUint0 s = (if (un <=? maxUint64)%Z then (un, None) else (maxUint64, Some true))
  ∧ strconv_ParseInt s
    = (if (un <=? maxInt64)%Z then (un, None)
       else (maxInt64, Some (NumError "ParseInt" s true)))
  ∧ strconv_ParseInt (String.String "-" s)
    = (if (un <=? maxInt64 + 1)%Z then ((- un)%Z, None)
       else ((- (maxInt64 + 1))%Z, Some (NumError "ParseInt" (String.String "-" s) true))).
Proof.
  intros [->|Hd]; [by vm_compute|]. intros s un.
  assert (Hp0 : parseUint0 s
            = match uintLoop 10 (NilEmpty.string_of_uint d) 0 with
              | inl n => (n, None)
              | inr false => (0%Z, Some false)
              | inr true => (maxUint64, Some true)
              end).
  { subst s. by destruct d. }
  assert (Hun : (0 ≤ un)%Z) by (by apply digitsValue_ge).
  assert (Hp : parseUint0 s
            = if (un <=? maxUint64)%Z then (un, None) else (maxUint64, Some true)).
  { rewrite Hp0, uintLoop_digits by (rewrite maxUint64_eq; lia). fold un.
    by destruct (un <=? maxUint64)%Z. }
  split; [done|].
  change maxInt64 with 9223372036854775807%Z. rewrite maxUint64_eq in Hp.
  split.
  - assert (Hs : strconv_ParseInt s
              = let '(un, err) := parseUint0 s in
                if decide (err = Some false) then (0%Z, Some (NumError "ParseInt" s false))
                else if (2 ^ 63 <=? un)%Z
                     then ((2 ^ 63 - 1)%Z, Some (NumError "ParseInt" s true))
                     else (un, None)).
    { subst s. by destruct d. }
    rewrite Hs, Hp. change (2 ^ 63)%Z with 9223372036854775808%Z.
    destruct (Z.leb_spec un 18446744073709551615), (Z.leb_spec un 9223372036854775807);
      try lia; cbv iota beta; rewrite ?decide_False by done;
      [rewrite (proj2 (Z.leb_gt _ _)) by lia|rewrite (proj2 (Z.leb_le _ _)) by lia|]; done.
  - assert (Hs : strconv_ParseInt (String.String "-" s)
              = let '(un, err) := parseUint0 s in
                if decide (err = Some false)
                then (0%Z, Some (NumError "ParseInt" (String.String "-" s) false))
                else if (2 ^ 63 <? un)%Z
                     then ((- 2 ^ 63)%Z, Some (NumError "ParseInt" (String.String "-" s) true))
                     else ((- un)%Z, None)).
    { reflexivity. }
    rewrite Hs, Hp. change (2 ^ 63)%Z with 9223372036854775808%Z.
    destruct (Z.leb_spec un 18446744073709551615),
             (Z.leb_spec un (9223372036854775807 + 1));
      try lia; cbv iota beta; rewrite ?decide_False by done;
      [rewrite (proj2 (Z.ltb_ge _ _)) by lia|rewrite (proj2 (Z.ltb_lt _ _)) by lia|]; done.
Qed.

Lemma FormatUint_digits n :
  (0 ≤ n)%Z →
  ∃ d, strconv_FormatUint n = NilZero.string_of_uint d
     ∧ digitsValue d 0 = n
     ∧ (d = Decimal.D0 Decimal.Nil
        ∨ match d with Decimal.Nil | Decimal.D0 _ => False | _ => True end).
Proof.
  intros Hn. exists (N.to_uint (Z.to_N n)).
  split; [done|]. split; [by apply FormatUint_value|apply to_uint_head].
Qed.

Lemma fixed_point_0 n : fixed_point 0 n = strconv_FormatUint n.
Proof.
  unfold fixed_point, strconv_FormatUint. by destruct (N.to_uint (Z.to_N n)).
Qed.

Lemma scaled_nonneg prec mant e : (0 ≤ scaled prec mant e)%Z.
Proof.
  unfold scaled. set (n := (Z.pos mant * 10 ^ Z.of_nat prec)%Z).
  assert (0 ≤ n)%Z by (subst n; apply Z.mul_nonneg_nonneg; [lia|apply Z.pow_nonneg; lia]).
  destruct (0 <=? e)%Z eqn:He.
  - apply Z.mul_nonneg_nonneg; [done|]. apply Z.pow_nonneg. lia.
  - unfold div_round_even.
    assert (0 < 2 ^ (- e))%Z by (apply Z.pow_pos_nonneg; lia).
    assert (0 ≤ n / 2 ^ (- e))%Z by (apply Z.div_pos; lia).
    destruct (2 * (n mod 2 ^ (- e)) ?= 2 ^ (- e))%Z; [destruct (Z.even _)|..]; lia.
Qed.

(** What [ParseInt] and [ParseUint] make of a finite number printed with
    [%.0f]: the number rounded to an integer, brought into range. *)
Lemma ParseInt_fmt_f (s : bool) mant e :
  let N := scaled 0 mant e in
  (strconv_ParseInt (fmt_f 0 (S754_finite s mant e))).1
  = if s then Z.max (- N) (- (maxInt64 + 1)) else Z.min N maxInt64.
Proof.
  intros N. unfold fmt_f. rewrite fixed_point_0. fold N.
  destruct (FormatUint_digits N (scaled_nonneg 0 mant e)) as (d & -> & Hv & Hd).
  destruct (parse_digits d Hd) as (_ & Hpos & Hneg). rewrite Hv in Hpos, Hneg.
  destruct s.
  - change ("-" ++ NilZero.string_of_uint d)
      with (String.String "-" (NilZero.string_of_uint d)).
    rewrite Hneg. destruct (Z.leb_spec N (maxInt64 + 1)); simpl; lia.
  - change ("" ++ NilZero.string_of_uint d) with (NilZero.string_of_uint d).
    rewrite Hpos. destruct (Z.leb_spec N maxInt64); simpl; lia.
Qed.

Lemma ParseUint_fmt_f (s : bool) mant e :
  let N := scaled 0 mant e in
  (strconv_ParseUint (fmt_f 0 (S754_finite s mant e))).1
  = if s then 0%Z else Z.min N maxUint64.
Proof.
  intros N. unfold fmt_f. rewrite fixed_point_0. fold N. destruct s.
  - reflexivity.
  - change ("" ++ strconv_FormatUint N) with (strconv_FormatUint N).
    destruct (FormatUint_digits N (scaled_nonneg 0 mant e)) as (d & -> & Hv & Hd).
    destruct (parse_digits d Hd) as (Hp & _). rewrite Hv in Hp.
    unfold strconv_ParseUint. rewrite Hp.
    destruct (Z.leb_spec N maxUint64); simpl; lia.
Qed.

Lemma wrap64_small z : (- 2 ^ 63 ≤ z < 2 ^ 63)%Z → wrap64 z = z.
Proof. intros Hz. unfold wrap64. rewrite Z.mod_small; lia. Qed.

Lemma wrap64_over z : (2 ^ 63 ≤ z < 2 ^ 64)%Z → (wrap64 z < 0)%Z.
Proof.
  intros Hz. unfold wrap64.
  replace (z + 2 ^ 63)%Z with ((z - 2 ^ 63) + 1 * 2 ^ 64)%Z by lia.
  rewrite Z.mod_add by lia. rewrite Z.mod_small; lia.
Qed.

Ltac eval_isDigit :=
  match goal with
  | |- context [isDigit ?c] =>
      let v := eval vm_compute in (isDigit c) in change (isDigit c) with v
  end.
Ltac eval_byte_of :=
  match goal with
  | |- context [byte_of ?c] =>
      let v := eval vm_compute in (byte_of c) in change (byte_of c) with v
  end.

(** [leadingInt] on the digits [d] followed by the unit. *)
Lemma leadingInt_digits d x :
  (0 ≤ x ≤ maxInt64)%Z →
  leadingInt (NilEmpty.string_of_uint d ++ "ns") x
  = if (digitsValue d x <=? maxInt64)%Z then Some (digitsValue d x, "ns") else None.
Proof.
  change maxInt64 with 9223372036854775807%Z.
  revert x. induction d; intros x Hx;
    cbn [NilEmpty.string_of_uint digitsValue];
    [change ("" ++ "ns") with "ns"; cbn [leadingInt]; eval_isDigit; cbv iota;
     by rewrite (proj2 (Z.leb_le _ _)) by lia|..];
    match goal with
    | |- context [String.String ?c ?r ++ "ns"] =>
        change (String.String c r ++ "ns") with (String.String c (r ++ "ns"))
    end;
    cbn [leadingInt]; eval_isDigit; cbv iota; eval_byte_of;
    change (maxInt64 / 10)%Z with 922337203685477580%Z;
    match goal with
    | |- context [digitsValue d ?x1] =>
        pose proof (digitsValue_ge d x1) as Hge;
        destruct (Z.ltb_spec 922337203685477580 x);
          [rewrite (proj2 (Z.leb_gt _ _)) by lia; done|];
        cbv zeta; replace (x * 10 + _ - 48)%Z with x1 by lia;
        destruct (Z_lt_le_dec x1 (2 ^ 63)) as [Hlt|Hle];
          [rewrite wrap64_small by lia;
           rewrite (proj2 (Z.ltb_ge _ _)) by lia; apply IHd; lia
          |pose proof (wrap64_over x1 ltac:(lia)) as Hw;
           rewrite (proj2 (Z.ltb_lt _ _)) by done;
           rewrite (proj2 (Z.leb_gt _ _)) by lia; done]
    end.
Qed.

Lemma unit_ns : (list_to_map unitMap : gmap string Z) !! "ns" = Some 1%Z.
Proof. vm_compute. reflexivity. Qed.

(** One turn of the loop of [ParseDuration] on a number followed by
    "ns". *)
Lemma durationLoop_ns orig n c s' :
  isDigit c = true → String.length s' ≠ 1%nat →
  durationLoop orig (S n) (String.String c s') 0
  = match leadingInt (String.String c s') 0 with
    | None => inr (errorString ("time: invalid duration " ++ orig))
    | Some (v, s1) =>
        if decide (s1 = "ns" ∧ 0 ≤ v ≤ maxInt64)%Z then inl v
        else durationLoop orig (S n) (String.String c s') 0
    end.
Proof.
  intros Hc Hlen. destruct (leadingInt (String.String c s') 0) as [[v s1]|] eqn:Hl.
  - destruct (decide _) as [[-> Hv]|]; [|done].
    cbn [durationLoop]. rewrite Hc, orb_true_r, Hl. cbn [negb String.length].
    rewrite (proj2 (Nat.eqb_neq (S (String.length s')) 2)) by lia.
    cbn [negb andb]. change (leadingUnit "ns") with ("ns", ""). cbv iota beta.
    rewrite decide_False by done. rewrite unit_ns.
    change (0 <? 0)%Z with false. cbv iota.
    rewrite Z.div_1_r, Z.mul_1_r, Z.add_0_l.
    rewrite wrap64_small by (change maxInt64 with (2 ^ 63 - 1)%Z in Hv; lia).
    rewrite (proj2 (Z.ltb_ge _ _)) by lia. rewrite (proj2 (Z.ltb_ge _ _)) by lia.
    by destruct n.
  - cbn [durationLoop]. by rewrite Hc, orb_true_r, Hl.
Qed.

Lemma string_app_length (s t : string) :
  String.length (s ++ t) = (String.length s + String.length t)%nat.
Proof. induction s as [|c s IH]; [done|]. simpl. by rewrite IH. Qed.

(** [time.ParseDuration] on the digits of a number without leading zeros
    followed by "ns", with or without a sign. *)
Lemma ParseDuration_digits d :
  (d = Decimal.D0 Decimal.Nil
   ∨ match d with Decimal.Nil | Decimal.D0 _ => False | _ => True end) →
  let s := NilZero.string_of_uint d ++ "ns" in
  let N := digitsValue d 0 in
  (time_ParseDuration s).1 = (if (N <=? maxInt64)%Z then N else 0%Z)
  ∧ (time_ParseDuration (String.String "-" s)).1
    = (if (N <=? maxInt64)%Z then (- N)%Z else 0%Z).
Proof.
  intros [->|Hd]; [by vm_compute|]. intros s N.
  assert (Hs : s = NilEmpty.string_of_uint d ++ "ns") by (subst s; by destruct d).
  assert (HN : (0 ≤ N)%Z) by (by apply digitsValue_ge).
  assert (Hloop : ∀ orig,
            durationLoop orig (String.length s) s 0
            = if (N <=? maxInt64)%Z then inl N
              else inr (errorString ("time: invalid duration " ++ orig))).
  { intros orig.
    pose proof (leadingInt_digits d 0 ltac:(change maxInt64 with (2 ^ 63 - 1)%Z; lia)) as Hl.
    fold N in Hl. rewrite <- Hs in Hl. clear Hs. subst s.
    destruct d; try done;
      cbn [NilZero.string_of_uint NilEmpty.string_of_uint] in *;
      match goal with
      | |- context [String.String ?c ?r ++ "ns"] =>
          change (String.String c r ++ "ns") with (String.String c (r ++ "ns")) in *
      end;
      cbn [String.length];
      rewrite durationLoop_ns
        by first [reflexivity|rewrite string_app_length; simpl; lia];
      rewrite Hl; (destruct (Z.leb_spec N maxInt64); [|done]);
      rewrite decide_True; done. }
  split.
  - assert (Hp : time_ParseDuration s
              = match durationLoop s (String.length s) s 0 with
                | inr err => (0%Z, Some err)
                | inl d => (d, None)
                end).
    { rewrite Hs. by destruct d. }
    rewrite Hp, Hloop. by destruct (N <=? maxInt64)%Z.
  - assert (Hp : time_ParseDuration (String.String "-" s)
              = match durationLoop (String.String "-" s) (String.length s) s 0 with
                | inr err => (0%Z, Some err)
                | inl d => ((- d)%Z, None)
                end).
    { rewrite Hs. by destruct d. }
    rewrite Hp, Hloop. by destruct (N <=? maxInt64)%Z.
Qed.

Lemma trimLeft_spaces n t : trimLeft (repeat_char " " n ++ t) = trimLeft t.
Proof. induction n as [|n IH]; [done|]. simpl. apply IH. Qed.

(** The text of a finite number printed with [%.0f]: a sign and the digits
    of the rounded magnitude; padding and trimming give it back. *)
Lemma fmt_f_0_text (s : bool) mant e :
  ∃ d, fmt_f 0 (S754_finite s mant e)
       = (if s then "-" else "") ++ NilZero.string_of_uint d
     ∧ digitsValue d 0 = scaled 0 mant e
     ∧ (d = Decimal.D0 Decimal.Nil
        ∨ match d with Decimal.Nil | Decimal.D0 _ => False | _ => True end)
     ∧ trimLeft (fmt_pad 18 (fmt_f 0 (S754_finite s mant e)))
       = fmt_f 0 (S754_finite s mant e).
Proof.
  destruct (FormatUint_digits _ (scaled_nonneg 0 mant e)) as (d & Hd & Hv & Hhead).
  exists d. unfold fmt_f. rewrite fixed_point_0, Hd.
  split; [done|]. split; [done|]. split; [done|].
  unfold fmt_pad. rewrite trimLeft_spaces.
  destruct s; [done|]. destruct Hhead as [->|Hhead]; [done|]. by destruct d.
Qed.

(** What one number of a file does to a setting that was not passed on
    the command line: the text the switch prints for the declared kind
    goes through the conversion of the setting. *)
Lemma fileEntry_number m k fl c x text :
  wf m → unvisited m k fl → heap m !! Value fl = Some c →
  render (declaredKind m k) (VFloat64 x) = Some text →
  ∃ m', fileEntry (unvisitedFlags m) tt (k, VFloat64 x) m = Returned tt m'
      ∧ heap m' !! Value fl = Some (convert c text).1
      ∧ logged m' = logged m.
Proof.
  intros Hwf Hu Hc Hr.
  destruct (fileEntry_cases m Hwf m k (VFloat64 x) (inv_refl m))
    as [[HU _]|(fl' & c' & Hu' & Hc' & H)].
  { by destruct (proj1 (unvisitedFlags_None m k) HU fl). }
  assert (fl' = fl) as -> by (destruct Hu, Hu'; congruence).
  assert (c' = c) as -> by congruence.
  simpl in H. destruct H as (m' & Hret & Hheap & Hlog & _).
  exists m'. split; [done|]. split; [|done].
  rewrite Hheap. unfold applyValue. rewrite Hr.
  apply list_lookup_insert_eq. by eapply lookup_lt_Some.
Qed.

(** What the conversions make of any number printed with [%.0f]. *)
Lemma ParseInt_nearest x :
  (strconv_ParseInt (fmt_f 0 x)).1
  = Z.max (- (maxInt64 + 1)) (Z.min (nearest x) maxInt64).
Proof.
  destruct x as [s|s| |s mant e];
    [by destruct s; vm_compute|by destruct s; vm_compute|by vm_compute|].
  rewrite ParseInt_fmt_f. pose proof (scaled_nonneg 0 mant e) as Hn.
  unfold nearest. change maxInt64 with 9223372036854775807%Z. destruct s; lia.
Qed.

Lemma ParseUint_nearest x :
  (strconv_ParseUint (fmt_f 0 x)).1 = Z.max 0 (Z.min (nearest x) maxUint64).
Proof.
  destruct x as [s|s| |s mant e];
    [by destruct s; vm_compute|by destruct s; vm_compute|by vm_compute|].
  rewrite ParseUint_fmt_f. pose proof (scaled_nonneg 0 mant e) as Hn.
  unfold nearest. rewrite maxUint64_eq. destruct s; lia.
Qed.

Lemma convert_duration d0 t :
  (convert (durationValue d0) t).1 = durationValue (time_ParseDuration t).1.
Proof. simpl. by destruct (time_ParseDuration t). Qed.

Lemma ParseDuration_nearest x :
  (- maxInt64 ≤ nearest x ≤ maxInt64)%Z →
  (time_ParseDuration (strings_TrimSpace (fmt_pad 18 (fmt_f 0 x) ++ "ns"))).1 = nearest x.
Proof.
  destruct x as [s|s| |s mant e];
    [by destruct s; vm_compute|by destruct s; vm_compute|by vm_compute|].
  intros Hfit. destruct (fmt_f_0_text s mant e) as (d & Htext & Hv & Hhead & Htrim).
  rewrite duration_text, Htrim, Htext.
  destruct (ParseDuration_digits d Hhead) as [Hpos Hneg]. cbv zeta in Hpos, Hneg.
  rewrite Hv in Hpos, Hneg. unfold nearest in *. destruct s.
  - change (("-" ++ NilZero.string_of_uint d) ++ "ns")
      with (String.String "-" (NilZero.string_of_uint d ++ "ns")).
    rewrite Hneg. by rewrite (proj2 (Z.leb_le _ _)) by lia.
  - change (("" ++ NilZero.string_of_uint d) ++ "ns")
      with (NilZero.string_of_uint d ++ "ns").
    rewrite Hpos. by rewrite (proj2 (Z.leb_le _ _)) by lia.
Qed.

(** X9. A JSON number given by a file to an Int- or Int64-declared setting
    that was not passed on the command line is rounded to the nearest
    integer, ties to even, and brought into the range of int64: the
    setting holds that integer, and nothing is logged or reported. This
    holds for every float64, zero and the integers included. *)
Theorem number_for_Int_setting m k fl c (x : float64) :
  wf m → unvisited m k fl → heap m !! Value fl = Some c →
  kindOf c = intType ∨ kindOf c = int64Type → declaredKind m k = kindOf c →
  let r := Z.max (- (maxInt64 + 1)) (Z.min (nearest x) maxInt64) in
  ∃ m', fileEntry (unvisitedFlags m) tt (k, VFloat64 x) m = Returned tt m'
      ∧ heap m' !! Value fl
        = Some (match c with intValue _ => intValue r | _ => int64Value r end)
      ∧ logged m' = logged m.
Proof.
  intros Hwf Hu Hc Hkind Hdecl r.
  destruct (fileEntry_number m k fl c x (fmt_f 0 x) Hwf Hu Hc) as (m' & Hret & Hheap & Hlog).
  { rewrite Hdecl. by destruct Hkind as [-> | ->]. }
  exists m'. split; [done|]. split; [|done]. rewrite Hheap. f_equal.
  pose proof (ParseInt_nearest x) as Hp. fold r in Hp.
  destruct c; try (by destruct Hkind); simpl;
    destruct (strconv_ParseInt _) as [v err]; simpl in Hp; by rewrite Hp.
Qed.

(** X10. A JSON number given by a file to a Uint- or Uint64-declared
    setting that was not passed on the command line is rounded to the
    nearest integer, ties to even, and cut at the largest uint64; a
    negative number leaves the setting at 0. Nothing is logged or
    reported. This holds for every float64, zero and the integers
    included. *)
Theorem number_for_Uint_setting m k fl c (x : float64) :
  wf m → unvisited m k fl → heap m !! Value fl = Some c →
  kindOf c = uintType ∨ kindOf c = uint64Type → declaredKind m k = kindOf c →
  let r := Z.max 0 (Z.min (nearest x) maxUint64) in
  ∃ m', fileEntry (unvisitedFlags m) tt (k, VFloat64 x) m = Returned tt m'
      ∧ heap m' !! Value fl
        = Some (match c with uintValue _ => uintValue r | _ => uint64Value r end)
      ∧ logged m' = logged m.
Proof.
  intros Hwf Hu Hc Hkind Hdecl r.
  destruct (fileEntry_number m k fl c x (fmt_f 0 x) Hwf Hu Hc) as (m' & Hret & Hheap & Hlog).
  { rewrite Hdecl. by destruct Hkind as [-> | ->]. }
  exists m'. split; [done|]. split; [|done]. rewrite Hheap. f_equal.
  pose proof (ParseUint_nearest x) as Hp. fold r in Hp.
  destruct c; try (by destruct Hkind); simpl;
    destruct (strconv_ParseUint _) as [v err]; simpl in Hp; by rewrite Hp.
Qed.

(** X11. A JSON number given by a file to a Duration-declared setting that
    was not passed on the command line counts nanoseconds: when the
    magnitude of the number rounded to the nearest integer, ties to even,
    is at most the largest int64, the setting holds that integer, with
    its sign. Nothing is logged or reported. This holds for every float64,
    zero and the integers included. *)
Theorem number_for_Duration_setting m k fl d0 (x : float64) :
  wf m → unvisited m k fl → heap m !! Value fl = Some (durationValue d0) →
  declaredKind m k = durationType →
  (- maxInt64 ≤ nearest x ≤ maxInt64)%Z →
  ∃ m', fileEntry (unvisitedFlags m) tt (k, VFloat64 x) m = Returned tt m'
      ∧ heap m' !! Value fl = Some (durationValue (nearest x))
      ∧ logged m' = logged m.
Proof.
  intros Hwf Hu Hc Hdecl Hfit.
  destruct (fileEntry_number m k fl (durationValue d0) x
              (strings_TrimSpace (fmt_pad 18 (fmt_f 0 x) ++ "ns")) Hwf Hu Hc)
    as (m' & Hret & Hheap & Hlog).
  { by rewrite Hdecl. }
  exists m'. split; [done|]. split; [|done].
  by rewrite Hheap, convert_duration, ParseDuration_nearest.
Qed.

Lemma pool_registered_Returned :
  Uint64 "size" 7 "" "size of the pool" (NewFlagfigSet "pool" ContinueOnError)
  = Returned 0%nat pool_registered.
Proof. vm_compute. reflexivity. Qed.

Lemma pool_registered_wf : wf pool_registered.
Proof.
  exact (proj1 (declare_Returned uint64Type (uint64Value 0) (uint64Value 7) "size" ""
                  "size of the pool" (NewFlagfigSet "pool" ContinueOnError) 0 pool_registered
                  (wf_NewFlagfigSet "pool" ContinueOnError) eq_refl pool_registered_Returned)).
Qed.

(** X9 on the application: 2.5 for [count] gives 2, 0 gives 0, and 1e30
    gives the largest int64. *)
Lemma number_for_Int_setting_witness :
  (∃ m', fileEntry (unvisitedFlags app_parsed) tt ("count", json_number "2.5") app_parsed
         = Returned tt m'
       ∧ heap m' !! 4%nat = Some (intValue 2))
  ∧ (∃ m', fileEntry (unvisitedFlags app_parsed) tt ("count", json_number "0") app_parsed
           = Returned tt m'
         ∧ heap m' !! 4%nat = Some (intValue 0))
  ∧ (∃ m', fileEntry (unvisitedFlags app_parsed) tt ("count", json_number "1e30") app_parsed
           = Returned tt m'
         ∧ heap m' !! 4%nat = Some (intValue 9223372036854775807)).
Proof.
  assert (Hu : unvisited app_parsed "count" (mkFlag "count" "number of workers" 4))
    by (split; vm_compute; reflexivity).
  assert (Hc : heap app_parsed !! 4%nat = Some (intValue 1)) by (vm_compute; reflexivity).
  assert (Hd : declaredKind app_parsed "count" = intType) by (vm_compute; reflexivity).
  assert (H1 : json_number "2.5" = VFloat64 (S754_finite false 5629499534213120 (-51)))
    by (vm_compute; reflexivity).
  assert (H0 : json_number "0" = VFloat64 (S754_zero false))
    by (vm_compute; reflexivity).
  assert (H2 : json_number "1e30" = VFloat64 (S754_finite false 7105427357601002 47))
    by (vm_compute; reflexivity).
  rewrite H1, H0, H2. split; [|split].
  - destruct (number_for_Int_setting app_parsed "count" _ (intValue 1)
                (S754_finite false 5629499534213120 (-51))
                app_parsed_wf Hu Hc (or_introl eq_refl) Hd)
      as (m' & Hret & Hheap & _).
    exists m'. split; [exact Hret|]. etrans; [exact Hheap|]. vm_compute. reflexivity.
  - destruct (number_for_Int_setting app_parsed "count" _ (intValue 1)
                (S754_zero false) app_parsed_wf Hu Hc (or_introl eq_refl) Hd)
      as (m' & Hret & Hheap & _).
    exists m'. split; [exact Hret|]. etrans; [exact Hheap|]. vm_compute. reflexivity.
  - destruct (number_for_Int_setting app_parsed "count" _ (intValue 1)
                (S754_finite false 7105427357601002 47)
                app_parsed_wf Hu Hc (or_introl eq_refl) Hd)
      as (m' & Hret & Hheap & _).
    exists m'. split; [exact Hret|]. etrans; [exact Hheap|]. vm_compute. reflexivity.
Defined.

(** X10 on a registry with the Uint64 setting [size]: -7.5 gives 0. *)
Lemma number_for_Uint_setting_witness :
  ∃ m', fileEntry (unvisitedFlags pool_registered) tt ("size", json_number "-7.5")
          pool_registered = Returned tt m'
      ∧ heap m' !! 0%nat = Some (uint64Value 0).
Proof.
  assert (H1 : json_number "-7.5" = VFloat64 (S754_finite true 8444249301319680 (-50)))
    by (vm_compute; reflexivity).
  rewrite H1.
  destruct (number_for_Uint_setting pool_registered "size"
              (mkFlag "size" "size of the pool" 0) (uint64Value 7)
              (S754_finite true 8444249301319680 (-50))) as (m' & Hret & Hheap & _).
  - exact pool_registered_wf.
  - split; vm_compute; reflexivity.
  - vm_compute. reflexivity.
  - right. reflexivity.
  - vm_compute. reflexivity.
  - exists m'. split; [exact Hret|]. etrans; [exact Hheap|]. vm_compute. reflexivity.
Defined.

(** X11 on the application: 1500000000.4 for [timeout] gives a second and
    a half. *)
Lemma number_for_Duration_setting_witness :
  ∃ m', fileEntry (unvisitedFlags app_parsed) tt ("timeout", json_number "1500000000.4")
          app_parsed = Returned tt m'
      ∧ heap m' !! 5%nat = Some (durationValue 1500000000).
Proof.
  assert (H1 : json_number "1500000000.4"
               = VFloat64 (S754_finite false 6291456001677722 (-22)))
    by (vm_compute; reflexivity).
  rewrite H1.
  destruct (number_for_Duration_setting app_parsed "timeout"
              (mkFlag "timeout" "time to wait" 5) 1
              (S754_finite false 6291456001677722 (-22)))
    as (m' & Hret & Hheap & _).
  - exact app_parsed_wf.
  - split; vm_compute; reflexivity.
  - vm_compute. reflexivity.
  - vm_compute. reflexivity.
  - vm_compute. split; discriminate.
  - exists m'. split; [exact Hret|]. etrans; [exact Hheap|]. vm_compute. reflexivity.
Defined.

(** * From the declaration to the resolved value *)

Section Precedence.
Context {sc : Strconv} {mr : MapRange}.

(** Later declarations leave the kind and the environment-variable name
    recorded for a defined flag. *)
Lemma registers_metadata m m' :
  registers m m' → wf m →
  ∀ n fl, formal (FS m) !! n = Some fl →
    flagTypes (this m') !! n = flagTypes (this m) !! n
    ∧ envNames (this m') !! n = envNames (this m) !! n.
Proof.
  induction 1 as [m|m m1 m2 xType zero defaultValue name envName usage p Hreg IH Hk Hd
                  |m m1 m2 name usage p Hreg IH Ha]; intros Hwf n fl Hf.
  - done.
  - destruct (registers_spec m m1 Hreg Hwf) as (Hwf1 & Hf1 & _).
    destruct (declare_Returned _ _ _ _ _ _ _ _ _ Hwf1 Hk Hd)
      as (_ & _ & Hnew & _ & _ & _ & _ & Ht & He).
    destruct (IH Hwf n fl Hf) as [IHt IHe].
    assert (name ≠ n) by (intros ->; rewrite (Hf1 n fl Hf) in Hnew; done).
    by rewrite Ht, He, !lookup_insert_ne.
  - destruct (registers_spec m m1 Hreg Hwf) as (Hwf1 & _).
    destruct (AddConfigFile_Returned name usage m1 p m2 Hwf1 Ha)
      as (_ & _ & _ & _ & _ & _ & _ & Ht & He).
    rewrite Ht, He. by apply (IH Hwf n fl).
Qed.

(** X12. The precedence, from the declaration on. When no configured
    file names a configuration-file flag that was not passed on the
    command line: a setting declared with a default and an
    environment-variable name, when the command line parses and does not
    name it, holds after [Parse]: its default, updated
    by the value of each configured file that names it, in registration
    order of the files, and then converted from the value of its
    environment variable, when that value is not empty. *)
Theorem Parse_resolves_default
    os xType zero defaultValue name envName usage m0 p m1 m2 args m3 err m' :
  wf m0 → kindOf defaultValue = xType →
  declare xType zero defaultValue name envName usage m0 = Returned p m1 →
  registers m1 m2 →
  FlagSet_Parse args m2 = Returned None m3 →
  actual (FS m3) !! name = None →
  no_redirection os m3 →
  Parse os args m2 = Returned err m' →
  let v := foldl (applyValue xType) defaultValue (fileValues os m3 name) in
  heap m' !! p
  = Some (if decide (Getenv os envName = "") then v else (convert v (Getenv os envName)).1).
Proof.
  intros Hwf0 Hk Hdecl Hreg Hparse Hnot Hkeeps Hret v.
  destruct (declare_Returned _ _ _ _ _ _ _ _ _ Hwf0 Hk Hdecl)
    as (Hwf1 & -> & _ & Hh1 & Hf1 & _ & _ & Ht1 & He1).
  destruct (registers_spec m1 m2 Hreg Hwf1) as (Hwf2 & Hf2 & Hh2 & _).
  destruct (FlagSet_Parse_Returned args m2 m3 Hwf2 Hparse) as ((Hev & _ & Hh3 & _) & Hwf3).
  set (fl := mkFlag name usage (length (heap m0))).
  assert (Hfl1 : formal (FS m1) !! name = Some fl) by (by rewrite Hf1, lookup_insert_eq).
  assert (Hfl : formal (FS m2) !! name = Some fl) by (by apply Hf2).
  destruct (registers_metadata m1 m2 Hreg Hwf1 name fl Hfl1) as [Ht2 He2].
  assert (Hcell : heap m3 !! Value fl = Some defaultValue).
  { rewrite (Hh3 name fl Hfl Hnot). apply Hh2. rewrite Hh1. by apply list_lookup_middle. }
  assert (Hu : unvisited m3 name fl).
  { split; [|done]. by rewrite (ev_formal _ _ Hev). }
  rewrite (Parse_Collate os args m2 m3 Hparse) in Hret.
  destruct (Collate_Returned m3 Hwf3 os Hkeeps err m' Hret) as (_ & _ & Hres & _).
  pose proof (Hres name fl defaultValue Hu Hcell) as Hfin. simpl in Hfin.
  rewrite Hfin. f_equal. unfold resolve, applyEnv, envValue, declaredKind.
  rewrite (ev_flagTypes _ _ Hev), (ev_envNames _ _ Hev), Ht2, He2, Ht1, He1.
  by rewrite !lookup_insert_eq.
Qed.

End Precedence.

(** X12 on the application, from the declaration of [verbose]: no file
    names it and [VERBOSE_ENV] is "false" in the environment. *)
Lemma Parse_resolves_default_witness :
  ∃ err m', Parse os_quiet app_args app_registered = Returned err m'
    ∧ heap m' !! 8%nat = Some (boolValue false).
Proof.
  assert (Hret : Parse os_quiet app_args app_registered
                 = Returned None (final (Parse os_quiet app_args app_registered)))
    by (vm_compute; reflexivity).
  eexists _, _. split; [exact Hret|].
  etrans; [apply (Parse_resolves_default os_quiet boolType (boolValue false) (boolValue true)
                    "verbose" "VERBOSE_ENV" "log more" app_before_verbose 8%nat
                    app_registered app_registered app_args app_parsed None
                    (final (Parse os_quiet app_args app_registered)))|].
  - exact app_before_verbose_wf.
  - reflexivity.
  - exact app_verbose_Returned.
  - apply registers_refl.
  - exact app_Parse_Returned.
  - vm_compute. reflexivity.
  - apply app_parsed_no_redirection.
  - exact Hret.
  - vm_compute. reflexivity.
Defined.


(** * The first version of the package *)

Section LegacyFacts.
Context {sc : Strconv} {mr : MapRange}.
Local Open Scope list_scope.

Lemma legacy_bind_Ret {A B} (c : Legacy.L A) (k : A → Legacy.L B) s a s1 :
  c s = Legacy.Ret a s1 → (c ≫= k) s = k a s1.
Proof. unfold mbind, Legacy.L_bind. by intros ->. Qed.

(** A call into the flag package that returns without writing. *)
Lemma legacy_flag_pure {A} (c : M A) s a :
  c (Legacy.flagMachine (Legacy.mem s) (Legacy.FlagSet_ (Legacy.self s)))
  = Returned a (Legacy.flagMachine (Legacy.mem s) (Legacy.FlagSet_ (Legacy.self s))) →
  Legacy.flag c s = Legacy.Ret a s.
Proof. intros Hc. unfold Legacy.flag. rewrite Hc. by destruct s as [h [] l]. Qed.

(** ** Reading the files *)

Lemma addStrings_lookup (l : list (string * value)) (F : gmap string string) k :
  NoDup l.*1 →
  foldl (λ acc e, match e.2 with VString x => <[e.1 := x]> acc | _ => acc end) F l !! k
  = match (list_to_map l : gmap string value) !! k with
    | Some (VString x) => Some x
    | _ => F !! k
    end.
Proof.
  revert F. induction l as [|[k1 v1] l IH]; intros F Hnd; [done|].
  apply NoDup_cons in Hnd as [Hk1 Hnd]. cbn [foldl]. rewrite IH by done. simpl.
  destruct (decide (k = k1)) as [->|Hne].
  - rewrite lookup_insert_eq, (not_elem_of_list_to_map_1 _ _ Hk1).
    destruct v1; try done. by rewrite lookup_insert_eq.
  - rewrite lookup_insert_ne by done.
    destruct (list_to_map l !! k) as [[]|]; try done;
      destruct v1; try done; by rewrite lookup_insert_ne.
Qed.

Lemma addStrings_range i (obj : gmap string value) (F : gmap string string) :
  foldl (λ acc e, match e.2 with VString x => <[e.1 := x]> acc | _ => acc end) F
        (range i obj)
  = Legacy.strings obj ∪ F.
Proof.
  apply map_eq. intros k. rewrite addStrings_lookup by apply range_NoDup.
  assert ((list_to_map (range i obj) : gmap string value) = obj) as ->.
  { rewrite <- (list_to_map_to_list obj) at 2.
    apply list_to_map_proper; [apply range_NoDup|apply range_perm]. }
  unfold Legacy.strings. rewrite lookup_union, lookup_omap.
  destruct (obj !! k) as [[]|]; simpl; by destruct (F !! k).
Qed.

(** The loop over the entries of one file adds its strings to the map,
    and nothing else changes but the log. *)
Lemma legacy_entries path l h fs cps F en sv lg :
  ∃ lg',
    Legacy.fold (Legacy.fileEntry path) l tt
      (Legacy.mkState h (Legacy.mkFlagfigSet fs cps (Some F) en sv) lg)
    = Legacy.Ret tt
        (Legacy.mkState h
           (Legacy.mkFlagfigSet fs cps
              (Some (foldl (λ acc e, match e.2 with
                                     | VString x => <[e.1 := x]> acc
                                     | _ => acc
                                     end) F l)) en sv) lg').
Proof.
  revert F lg. induction l as [|[k v] l IH]; intros F lg; [by eexists|].
  cbn [Legacy.fold foldl]. unfold mbind, Legacy.L_bind.
  destruct v; simpl; apply IH.
Qed.

Lemma legacy_readConfigurationFile os i p path h fs cps F en sv lg :
  h !! p = Some (stringValue path) →
  (path ≠ "" → is_Some (files os !! path)) →
  ∃ lg',
    Legacy.readConfigurationFile os tt (i, p)
      (Legacy.mkState h (Legacy.mkFlagfigSet fs cps (Some F) en sv) lg)
    = Legacy.Ret tt
        (Legacy.mkState h
           (Legacy.mkFlagfigSet fs cps
              (Some (match fileAt os h p with
                     | Some obj => Legacy.strings obj ∪ F
                     | None => F
                     end)) en sv) lg').
Proof.
  intros Hp Hread. unfold Legacy.readConfigurationFile, Legacy.load, mbind, Legacy.L_bind.
  unfold fileAt. cbn [Legacy.mem]. rewrite Hp.
  destruct (decide (String.length path ≠ 0)) as [Hl|Hl].
  - assert (Hne : path ≠ "") by (by intros ->).
    destruct (Hread Hne) as [dat Hdat]. unfold ReadFile. rewrite Hdat.
    destruct dat as [|obj]; cbn [json_Unmarshal].
    + by eexists.
    + rewrite decide_False by done.
      destruct (legacy_entries path (range (2 + i) obj) h fs cps F en sv lg) as [lg' ->].
      exists lg'. by rewrite addStrings_range.
  - assert (path = "") as -> by (destruct path; [done|by destruct Hl]).
    exists lg. unfold mret, Legacy.L_ret. by destruct (files os !! "") as [[]|].
Qed.

Lemma legacy_files os ps h fs cps F en sv lg :
  (∀ i p, (i, p) ∈ ps → ∃ path, h !! p = Some (stringValue path)
                          ∧ (path ≠ "" → is_Some (files os !! path))) →
  ∃ lg',
    Legacy.fold (Legacy.readConfigurationFile os) ps tt
      (Legacy.mkState h (Legacy.mkFlagfigSet fs cps (Some F) en sv) lg)
    = Legacy.Ret tt
        (Legacy.mkState h
           (Legacy.mkFlagfigSet fs cps
              (Some (foldl (λ acc p, match fileAt os h p with
                                     | Some obj => Legacy.strings obj ∪ acc
                                     | None => acc
                                     end) F ps.*2)) en sv) lg').
Proof.
  revert F lg. induction ps as [|[i p] ps IH]; intros F lg Hps; [by eexists|].
  destruct (Hps i p) as (path & Hp & Hread); [by left|].
  cbn [Legacy.fold]. unfold mbind, Legacy.L_bind.
  destruct (legacy_readConfigurationFile os i p path h fs cps F en sv lg Hp Hread)
    as [lg1 ->].
  apply IH. intros i' p' Hin. apply (Hps i'). by right.
Qed.

(** The first look-up reads the files; the later ones find the map. *)
Lemma legacy_readConfigurationFiles os s :
  Legacy.wf s → Legacy.filesReadable os s →
  ∃ lg',
    Legacy.readConfigurationFiles os s
    = Legacy.Ret tt
        (Legacy.mkState (Legacy.mem s)
           (Legacy.set_fileConfigurations
              (Some (match Legacy.fileConfigurations (Legacy.self s) with
                     | Some F => F
                     | None => Legacy.fileStrings os (Legacy.mem s)
                                 (Legacy.configFilePaths (Legacy.self s))
                     end)) (Legacy.self s)) lg').
Proof.
  intros Hwf Hread. destruct s as [h [fs cps fc en sv] lg].
  unfold Legacy.readConfigurationFiles, Legacy.get, mbind, Legacy.L_bind.
  cbn [Legacy.self Legacy.fileConfigurations Legacy.mem].
  destruct fc as [F|]; [by eexists|].
  unfold Legacy.modify_self, Legacy.set_fileConfigurations.
  cbn [Legacy.self Legacy.mem Legacy.log Legacy.FlagSet_ Legacy.configFilePaths
       Legacy.envNames Legacy.stringValues].
  destruct (legacy_files os (imap (λ i p, (i, p)) cps) h fs cps ∅ en sv lg) as [lg' ->].
  - intros i p Hin. apply (elem_of_imap_pair _ i) in Hin.
    destruct (Legacy.wf_paths _ Hwf p Hin) as [path Hp]. exists path. split; [done|].
    intros Hne. by apply (Hread p path).
  - exists lg'. unfold Legacy.fileStrings. by rewrite imap_pair_snd.
Qed.

(** ** The flags that were not passed *)

Lemma allFlags_lookup (fm am : gmap string Flag) n :
  (∀ n f, fm !! n = Some f → Name f = n) →
  (∀ n f, am !! n = Some f → fm !! n = Some f) →
  foldl (λ s fl, <[Name fl := true]> s)
        (foldl (λ s fl, <[Name fl := false]> s) (∅ : gmap string bool) (sortFlags fm))
        (sortFlags am) !! n = Some false
  ↔ is_Some (fm !! n) ∧ am !! n = None.
Proof.
  intros Hname Hsub. rewrite !foldl_insert_const, lookup_empty.
  pose proof (sortFlags_names fm n Hname) as Hf.
  assert (Hnamea : ∀ n f, am !! n = Some f → Name f = n) by (intros; eauto).
  pose proof (sortFlags_names am n Hnamea) as Ha.
  destruct (decide (n ∈ Name <$> sortFlags am)) as [Hina|Hina].
  - apply Ha in Hina as [f Hina]. rewrite Hina. split; [done|by intros [_ ?]].
  - destruct (decide (n ∈ Name <$> sortFlags fm)) as [Hinf|Hinf].
    + split; [|done]. intros _. split; [by apply Hf|].
      apply eq_None_not_Some. intros H. destruct Hina. by apply Ha.
    + split; [done|]. intros [H _]. destruct Hinf. by apply Hf.
Qed.

Lemma legacy_collect_fold s l U0 :
  Legacy.fold (λ unVisitedFlags '(name, visited),
                 if negb visited : bool then
                   fl ← Legacy.flag (FlagSet_Lookup name);
                   mret (unVisitedFlags ++ [fl])
                 else mret unVisitedFlags) l U0 s
  = Legacy.Ret (U0 ++ ((λ e, formal (Legacy.FlagSet_ (Legacy.self s)) !! e.1)
                         <$> filter (λ e, e.2 = false) l)) s.
Proof.
  revert U0. induction l as [|[k b] l IH]; intros U0.
  - simpl. by rewrite app_nil_r.
  - cbn [Legacy.fold]. destruct b; cbn [negb].
    + rewrite (legacy_bind_Ret _ _ s U0 s) by done. rewrite IH.
      by rewrite filter_cons_False by (simpl; done).
    + rewrite (legacy_bind_Ret _ _ s
                 (U0 ++ [formal (Legacy.FlagSet_ (Legacy.self s)) !! k]) s).
      * rewrite IH, filter_cons_True by done. by rewrite <- app_assoc.
      * by rewrite (legacy_bind_Ret _ _ s
                      (formal (Legacy.FlagSet_ (Legacy.self s)) !! k) s)
          by (by apply legacy_flag_pure).
Qed.

(** The first three loops of [Collate] list the flags that were not
    passed, each once, and leave the state as it is. *)
Lemma legacy_Collate_unvisited os s :
  Legacy.wf s →
  ∃ U : list (option Flag),
    Legacy.Collate os s = Legacy.fold (Legacy.collateEntry os) U tt s
    ∧ NoDup U
    ∧ (∀ o, o ∈ U ↔ ∃ fl, o = Some fl ∧ Legacy.unvisited s (Name fl) fl).
Proof.
  intros Hwf. set (fs := Legacy.FlagSet_ (Legacy.self s)).
  set (A1 := foldl (λ s fl, <[Name fl := false]> s) (∅ : gmap string bool)
               (sortFlags (formal fs))).
  set (A2 := foldl (λ s fl, <[Name fl := true]> s) A1 (sortFlags (actual fs))).
  set (F := filter (λ e : string * bool, e.2 = false) (range 0 A2)).
  assert (HA2 : ∀ n, A2 !! n = Some false ↔ is_Some (formal fs !! n) ∧ actual fs !! n = None).
  { intros n. apply allFlags_lookup; [apply (Legacy.wf_name _ Hwf)|apply (Legacy.wf_actual _ Hwf)]. }
  assert (HF : ∀ e, e ∈ F ↔ e.2 = false ∧ is_Some (formal fs !! e.1) ∧ actual fs !! e.1 = None).
  { intros [k b]. unfold F. rewrite list_elem_of_filter, elem_of_range. simpl. split.
    - intros [-> Hk]. split; [done|]. by apply HA2.
    - intros (-> & Hk). split; [done|]. by apply HA2. }
  exists ((λ e, formal fs !! e.1) <$> F). split; [|split].
  - unfold Legacy.Collate.
    rewrite (legacy_bind_Ret _ _ s A1 s) by (by apply legacy_flag_pure).
    rewrite (legacy_bind_Ret _ _ s A2 s) by (by apply legacy_flag_pure).
    by rewrite (legacy_bind_Ret _ _ s _ s) by apply legacy_collect_fold.
  - apply NoDup_fmap_2_strong.
    + intros [k1 b1] [k2 b2] H1 H2 Heq. apply HF in H1 as (Hb1 & [f1 Hf1] & _).
      apply HF in H2 as (Hb2 & [f2 Hf2] & _). simpl in *. subst b1 b2.
      rewrite Hf1, Hf2 in Heq. injection Heq as <-.
      by rewrite <- (Legacy.wf_name _ Hwf k1 f1 Hf1), <- (Legacy.wf_name _ Hwf k2 f1 Hf2).
    + apply NoDup_filter. eapply NoDup_fmap_1, (range_NoDup 0 A2).
  - intros o. rewrite list_elem_of_fmap. split.
    + intros ([k b] & -> & (Hb & [fl Hfl] & Ha)%HF). simpl in *. exists fl.
      pose proof (Legacy.wf_name _ Hwf k fl Hfl) as Hn. rewrite Hn. by repeat split.
    + intros (fl & -> & [Hfl Ha]). exists (Name fl, false). split; [done|].
      apply HF. simpl. eauto.
Qed.

(** ** The loop of [Collate] *)

(** One turn of the loop, once the files are read. *)
Lemma legacy_collateEntry os s fl h lg :
  let t h := Legacy.mkState h
               (Legacy.set_fileConfigurations
                  (Some (Legacy.fileStrings os (Legacy.mem s)
                           (Legacy.configFilePaths (Legacy.self s))))
                  (Legacy.self s)) lg in
  Legacy.collateEntry os tt (Some fl) (t h)
  = match Legacy.strVal os s (Name fl), Legacy.stringValues (Legacy.self s) !! Name fl with
    | Some _, None => Legacy.Panic PanicNilDereference (t h)
    | _, _ => Legacy.Ret tt (t (Legacy.collated os s h (Some fl)))
    end.
Proof.
  intros t. subst t. destruct s as [h0 [fs cps fc en sv] lg0].
  unfold Legacy.collateEntry, Legacy.ConfigFileStringValue,
    Legacy.readConfigurationFiles, Legacy.get, Legacy.collated, Legacy.strVal,
    Legacy.store, Legacy.panic, mbind, Legacy.L_bind, mret, Legacy.L_ret.
  cbn [Legacy.self Legacy.set_fileConfigurations Legacy.fileConfigurations
       Legacy.envNames Legacy.stringValues default Legacy.mem Legacy.configFilePaths
       Legacy.FlagSet_ Legacy.log from_option].
  unfold id. generalize (Legacy.fileStrings os h0 cps !! Name fl). intros fileVal.
  assert (Henv : ∀ envName,
            (if decide (String.length (Getenv os envName) ≠ 0)
             then Some (Getenv os envName) else fileVal)
            = (if decide (Getenv os envName = "") then fileVal
               else Some (Getenv os envName))).
  { intros envName. destruct (decide (Getenv os envName = "")) as [->|Hne]; [done|].
    rewrite decide_True; [done|]. by destruct (Getenv os envName). }
  destruct (en !! Name fl) as [envName|]; rewrite ?Henv.
  - destruct (if decide (Getenv os envName = "") then fileVal
              else Some (Getenv os envName)) as [v|]; [|done].
    simpl. by destruct (sv !! Name fl).
  - destruct fileVal as [v|]; [|done]. simpl. by destruct (sv !! Name fl).
Qed.

Lemma legacy_collate_loop os s U lg :
  let t h := Legacy.mkState h
               (Legacy.set_fileConfigurations
                  (Some (Legacy.fileStrings os (Legacy.mem s)
                           (Legacy.configFilePaths (Legacy.self s))))
                  (Legacy.self s)) lg in
  (∀ o, o ∈ U → ∃ fl, o = Some fl
      ∧ (is_Some (Legacy.strVal os s (Name fl)) →
         is_Some (Legacy.stringValues (Legacy.self s) !! Name fl))) →
  ∀ h, Legacy.fold (Legacy.collateEntry os) U tt (t h)
       = Legacy.Ret tt (t (foldl (Legacy.collated os s) h U)).
Proof.
  intros t. induction U as [|o U IH]; intros HU h; [done|].
  destruct (HU o) as (fl & -> & Hvar); [by left|].
  cbn [Legacy.fold foldl]. unfold mbind, Legacy.L_bind.
  pose proof (legacy_collateEntry os s fl h lg) as He. cbv zeta in He. fold t in He.
  rewrite He.
  destruct (Legacy.strVal os s (Name fl)) as [v|] eqn:Hv;
    [destruct (Hvar ltac:(eauto)) as [p Hp]; rewrite Hp|];
    (apply IH; intros o' Ho'; apply HU; by right).
Qed.

(** The memory after the loop, variable by variable. *)
Lemma collated_length os s U h : length (foldl (Legacy.collated os s) h U) = length h.
Proof.
  revert h. induction U as [|o U IH]; intros h; [done|]. cbn [foldl]. rewrite IH.
  unfold Legacy.collated. destruct o as [fl|]; [|done].
  destruct (Legacy.strVal os s (Name fl)); [|done].
  destruct (Legacy.stringValues (Legacy.self s) !! Name fl); [|done].
  apply length_insert.
Qed.

Lemma collated_other os s U h p :
  (∀ fl, Some fl ∈ U → Legacy.stringValues (Legacy.self s) !! Name fl ≠ Some p) →
  foldl (Legacy.collated os s) h U !! p = h !! p.
Proof.
  revert h. induction U as [|o U IH]; intros h HU; [done|]. cbn [foldl].
  rewrite IH by (intros fl Hin; apply HU; by right).
  unfold Legacy.collated. destruct o as [fl|]; [|done].
  destruct (Legacy.strVal os s (Name fl)); [|done].
  destruct (Legacy.stringValues (Legacy.self s) !! Name fl) as [p'|] eqn:Hp'; [|done].
  apply list_lookup_insert_ne. intros ->. by apply (HU fl); [left|].
Qed.

Lemma collated_lookup os s U h fl p :
  Legacy.wf s → NoDup U →
  (∀ o, o ∈ U → ∃ fl', o = Some fl' ∧ Legacy.unvisited s (Name fl') fl') →
  Some fl ∈ U → Legacy.stringValues (Legacy.self s) !! Name fl = Some p →
  is_Some (h !! p) →
  foldl (Legacy.collated os s) h U !! p
  = match Legacy.strVal os s (Name fl) with
    | Some v => Some (stringValue v)
    | None => h !! p
    end.
Proof.
  intros Hwf. revert h. induction U as [|o U IH]; intros h Hnd HU Hin Hp Hh.
  { by apply not_elem_of_nil in Hin. }
  apply NoDup_cons in Hnd as [Ho Hnd]. cbn [foldl].
  apply elem_of_cons in Hin as [<-|Hin].
  - rewrite collated_other.
    + unfold Legacy.collated. rewrite Hp.
      destruct (Legacy.strVal os s (Name fl)); [|done].
      apply list_lookup_insert_eq. by apply lookup_lt_is_Some.
    + intros fl' Hin' Hp'.
      destruct (HU (Some fl)) as (f1 & [= <-] & [Hf1 _]); [by left|].
      destruct (HU (Some fl')) as (f2 & [= <-] & [Hf2 _]); [by right|].
      pose proof (Legacy.wf_inj _ Hwf _ _ _ Hp' Hp) as Hn. rewrite Hn in Hf2.
      assert (fl' = fl) as -> by congruence. done.
  - rewrite IH; try done.
    + destruct (Legacy.strVal os s (Name fl)); [done|].
      unfold Legacy.collated. destruct o as [fl'|]; [|done].
      destruct (Legacy.strVal os s (Name fl')); [|done].
      destruct (Legacy.stringValues (Legacy.self s) !! Name fl') as [p'|] eqn:Hp'; [|done].
      apply list_lookup_insert_ne. intros ->.
      destruct (HU (Some fl)) as (f1 & [= <-] & [Hf1 _]); [by right|].
      destruct (HU (Some fl')) as (f2 & [= <-] & [Hf2 _]); [by left|].
      pose proof (Legacy.wf_inj _ Hwf _ _ _ Hp' Hp) as Hn. rewrite Hn in Hf2.
      assert (fl' = fl) as -> by congruence. done.
    + intros o' Ho'. apply HU. by right.
    + apply lookup_lt_is_Some. apply lookup_lt_is_Some in Hh.
      unfold Legacy.collated. destruct o as [fl'|]; [|done].
      destruct (Legacy.strVal os s (Name fl')); [|done].
      destruct (Legacy.stringValues (Legacy.self s) !! Name fl'); [|done].
      by rewrite length_insert.
Qed.

(** The first turn of the loop reads the files; it then goes on as the
    later turns do. *)
Lemma legacy_first_entry os s :
  Legacy.wf s → Legacy.filesReadable os s →
  Legacy.fileConfigurations (Legacy.self s) = None →
  ∃ lg, ∀ fl,
    Legacy.collateEntry os tt (Some fl) s
    = Legacy.collateEntry os tt (Some fl)
        (Legacy.mkState (Legacy.mem s)
           (Legacy.set_fileConfigurations
              (Some (Legacy.fileStrings os (Legacy.mem s)
                       (Legacy.configFilePaths (Legacy.self s))))
              (Legacy.self s)) lg).
Proof.
  intros Hwf Hread Hnone.
  destruct (legacy_readConfigurationFiles os s Hwf Hread) as [lg Hfiles].
  rewrite Hnone in Hfiles. exists lg. intros fl.
  unfold Legacy.collateEntry, Legacy.ConfigFileStringValue, mbind, Legacy.L_bind.
  rewrite Hfiles. by destruct s as [h [fs cps fc en sv] lg0].
Qed.

(** The loop of [Collate] stops at a flag that has a value and no
    variable. *)
Lemma legacy_collate_loop_nil os s U lg fl :
  let t h := Legacy.mkState h
               (Legacy.set_fileConfigurations
                  (Some (Legacy.fileStrings os (Legacy.mem s)
                           (Legacy.configFilePaths (Legacy.self s))))
                  (Legacy.self s)) lg in
  (∀ o, o ∈ U → is_Some o) → Some fl ∈ U →
  is_Some (Legacy.strVal os s (Name fl)) →
  Legacy.stringValues (Legacy.self s) !! Name fl = None →
  ∀ h, ∃ h', Legacy.fold (Legacy.collateEntry os) U tt (t h)
             = Legacy.Panic PanicNilDereference (t h').
Proof.
  intros t. induction U as [|o U IH]; intros HU Hin [v Hv] Hp h.
  { by apply not_elem_of_nil in Hin. }
  destruct (HU o) as [fl' ->]; [by left|].
  cbn [Legacy.fold]. unfold mbind, Legacy.L_bind.
  pose proof (legacy_collateEntry os s fl' h lg) as He. cbv zeta in He. fold t in He.
  rewrite He.
  apply elem_of_cons in Hin as [[= <-]|Hin].
  - rewrite Hv, Hp. by exists h.
  - assert (HU' : ∀ o, o ∈ U → is_Some o) by (intros o' Ho'; apply HU; by right).
    destruct (Legacy.strVal os s (Name fl')) as [v'|];
      [destruct (Legacy.stringValues (Legacy.self s) !! Name fl') as [p'|];
       [|by exists h]|];
      (apply IH; [done|done|by eexists|done]).
Qed.

(** X13. [Collate] of the first version of the package, on its first
    call, when every configured file can be read and every flag that was
    not passed and finds a value has a variable: it returns; a String
    setting that was not passed holds the value of its environment
    variable when that is not empty, else the string the last configured
    file that names it with a string gives, else what it held; the other
    variables and the registry are as before. *)
Theorem Legacy_Collate_resolves os s :
  Legacy.wf s → Legacy.filesReadable os s →
  Legacy.fileConfigurations (Legacy.self s) = None →
  (∀ n fl, Legacy.unvisited s n fl → is_Some (Legacy.strVal os s n) →
     is_Some (Legacy.stringValues (Legacy.self s) !! n)) →
  ∃ s', Legacy.Collate os s = Legacy.Ret tt s'
    ∧ Legacy.FlagSet_ (Legacy.self s') = Legacy.FlagSet_ (Legacy.self s)
    ∧ Legacy.configFilePaths (Legacy.self s') = Legacy.configFilePaths (Legacy.self s)
    ∧ Legacy.envNames (Legacy.self s') = Legacy.envNames (Legacy.self s)
    ∧ Legacy.stringValues (Legacy.self s') = Legacy.stringValues (Legacy.self s)
    ∧ length (Legacy.mem s') = length (Legacy.mem s)
    ∧ (∀ n fl p, Legacy.unvisited s n fl →
         Legacy.stringValues (Legacy.self s) !! n = Some p →
         Legacy.mem s' !! p
         = match Legacy.strVal os s n with
           | Some v => Some (stringValue v)
           | None => Legacy.mem s !! p
           end)
    ∧ (∀ p, (∀ n fl, Legacy.unvisited s n fl →
               Legacy.stringValues (Legacy.self s) !! n ≠ Some p) →
         Legacy.mem s' !! p = Legacy.mem s !! p).
Proof.
  intros Hwf Hread Hnone Hvar.
  destruct (legacy_Collate_unvisited os s Hwf) as (U & -> & Hnd & HU).
  destruct U as [|o U].
  { exists s. split; [done|]. do 5 (split; [done|]). split; [|done].
    intros n fl p Hu Hp.
    assert (Hin : Some fl ∈ @nil (option Flag)).
    { apply HU. exists fl. split; [done|].
      by rewrite (Legacy.wf_name _ Hwf n fl (proj1 Hu)). }
    by apply not_elem_of_nil in Hin. }
  destruct (legacy_first_entry os s Hwf Hread Hnone) as [lg Hfirst].
  destruct (proj1 (HU o)) as (fl0 & -> & Hu0); [by left|].
  set (t h := Legacy.mkState h
                (Legacy.set_fileConfigurations
                   (Some (Legacy.fileStrings os (Legacy.mem s)
                            (Legacy.configFilePaths (Legacy.self s))))
                   (Legacy.self s)) lg).
  assert (Hloop : Legacy.fold (Legacy.collateEntry os) (Some fl0 :: U) tt s
                  = Legacy.Ret tt (t (foldl (Legacy.collated os s) (Legacy.mem s)
                                        (Some fl0 :: U)))).
  { pose proof (legacy_collate_loop os s (Some fl0 :: U) lg) as Hl. cbv zeta in Hl.
    etrans; [|exact (Hl ltac:(intros o Ho; destruct (proj1 (HU o) Ho) as (fl & -> & Hu);
                              exists fl; split; [done|]; exact (Hvar _ fl Hu))
                       (Legacy.mem s))].
    cbn [Legacy.fold]. unfold mbind, Legacy.L_bind. by rewrite Hfirst. }
  rewrite Hloop. eexists. split; [done|].
  destruct s as [h [fs cps fc en sv] lg0]. cbn [t Legacy.self Legacy.mem
    Legacy.set_fileConfigurations Legacy.FlagSet_ Legacy.configFilePaths Legacy.envNames
    Legacy.stringValues] in *.
  do 4 (split; [done|]). split; [apply collated_length|]. split.
  - intros n fl p Hu Hp.
    pose proof (Legacy.wf_name _ Hwf n fl (proj1 Hu)) as Hn. subst n.
    apply collated_lookup; try done.
    + intros o Ho. by apply HU.
    + apply HU. by exists fl.
    + by apply (Legacy.wf_alloc _ Hwf (Name fl)).
  - intros p Hp. apply collated_other. intros fl Hin.
    destruct (proj1 (HU (Some fl)) Hin) as (fl' & [= <-] & Hu). by apply (Hp _ fl).
Qed.

(** X14. On its first call, with every configured file readable,
    [Collate] of the first version of the package panics on a nil pointer
    when a flag that was not passed finds a value and has no variable: so
    when a file gives a string under the name of a configuration-file flag
    that was not passed. *)
Theorem Legacy_Collate_nil_variable os s n fl :
  Legacy.wf s → Legacy.filesReadable os s →
  Legacy.fileConfigurations (Legacy.self s) = None →
  Legacy.unvisited s n fl → is_Some (Legacy.strVal os s n) →
  Legacy.stringValues (Legacy.self s) !! n = None →
  ∃ s', Legacy.Collate os s = Legacy.Panic PanicNilDereference s'
      ∧ Legacy.FlagSet_ (Legacy.self s') = Legacy.FlagSet_ (Legacy.self s).
Proof.
  intros Hwf Hread Hnone Hu Hv Hp.
  pose proof (Legacy.wf_name _ Hwf n fl (proj1 Hu)) as Hn. subst n.
  destruct (legacy_Collate_unvisited os s Hwf) as (U & -> & Hnd & HU).
  assert (Hin : Some fl ∈ U) by (apply HU; by exists fl).
  destruct U as [|o U]; [by apply not_elem_of_nil in Hin|].
  destruct (legacy_first_entry os s Hwf Hread Hnone) as [lg Hfirst].
  destruct (proj1 (HU o)) as (fl0 & -> & Hu0); [by left|].
  destruct (legacy_collate_loop_nil os s (Some fl0 :: U) lg fl) with (h := Legacy.mem s)
    as [h' Hloop]; try done.
  { intros o Ho. destruct (proj1 (HU o) Ho) as (fl' & -> & _). by eexists. }
  cbn [Legacy.fold] in *. unfold mbind, Legacy.L_bind in *. rewrite Hfirst, Hloop.
  eexists. split; [done|]. by destruct s as [h [fs cps fc en sv] lg0].
Qed.

End LegacyFacts.

(** * The first version of the package on its applications *)

(** Distinct names have distinct variables when no variable is listed
    twice. *)
Lemma NoDup_variables (sv : gmap string loc) :
  NoDup (map_to_list sv).*2 →
  ∀ n1 n2 p, sv !! n1 = Some p → sv !! n2 = Some p → n1 = n2.
Proof.
  intros Hnd n1 n2 p H1 H2.
  apply elem_of_map_to_list, list_elem_of_lookup in H1 as [i Hi].
  apply elem_of_map_to_list, list_elem_of_lookup in H2 as [j Hj].
  assert (Hi' : (map_to_list sv).*2 !! i = Some p) by (by rewrite list_lookup_fmap, Hi).
  assert (Hj' : (map_to_list sv).*2 !! j = Some p) by (by rewrite list_lookup_fmap, Hj).
  pose proof (NoDup_lookup _ i j p Hnd Hi' Hj') as ->. congruence.
Qed.

Lemma legacy_wf_intro (s : Legacy.state) :
  Forall (λ e, Name e.2 = e.1) (map_to_list (formal (Legacy.FlagSet_ (Legacy.self s)))) →
  Forall (λ e, formal (Legacy.FlagSet_ (Legacy.self s)) !! e.1 = Some e.2)
    (map_to_list (actual (Legacy.FlagSet_ (Legacy.self s)))) →
  Forall (λ e, is_Some (Legacy.mem s !! e.2))
    (map_to_list (Legacy.stringValues (Legacy.self s))) →
  NoDup (map_to_list (Legacy.stringValues (Legacy.self s))).*2 →
  Forall (λ p, ∃ path, Legacy.mem s !! p = Some (stringValue path))
    (Legacy.configFilePaths (Legacy.self s)) →
  Legacy.wf s.
Proof.
  intros Hname Hactual Halloc Hinj Hpaths. split.
  - intros n fl H. apply elem_of_map_to_list in H.
    by apply (proj1 (Forall_forall _ _) Hname (n, fl)).
  - intros n fl H. apply elem_of_map_to_list in H.
    by apply (proj1 (Forall_forall _ _) Hactual (n, fl)).
  - intros n p H. apply elem_of_map_to_list in H.
    by apply (proj1 (Forall_forall _ _) Halloc (n, p)).
  - by apply NoDup_variables.
  - intros p Hp. by apply (proj1 (Forall_forall _ _) Hpaths p).
Qed.

Ltac legacy_wf :=
  apply legacy_wf_intro; vm_compute;
  repeat match goal with
  | |- Forall _ [] => apply List.Forall_nil
  | |- Forall _ (_ :: _) =>
      apply List.Forall_cons; [first [reflexivity|eexists; reflexivity]|]
  | |- NoDup [] => apply NoDup_nil_2
  | |- NoDup (_ :: _) =>
      apply NoDup_cons_2; [apply (bool_decide_unpack _); vm_compute; exact I|]
  end.

Lemma legacy_parsed_wf : Legacy.wf legacy_parsed.
Proof. legacy_wf. Qed.

Lemma legacy_chain_parsed_wf : Legacy.wf legacy_chain_parsed.
Proof. legacy_wf. Qed.

Lemma legacy_variables_intro `{!Strconv} os (s : Legacy.state) :
  Forall (λ e, actual (Legacy.FlagSet_ (Legacy.self s)) !! e.1 = None →
               is_Some (Legacy.strVal os s e.1) →
               is_Some (Legacy.stringValues (Legacy.self s) !! e.1))
    (map_to_list (formal (Legacy.FlagSet_ (Legacy.self s)))) →
  ∀ n fl, Legacy.unvisited s n fl → is_Some (Legacy.strVal os s n) →
    is_Some (Legacy.stringValues (Legacy.self s) !! n).
Proof.
  intros Hall n fl [Hf Ha]. apply elem_of_map_to_list in Hf.
  by apply (proj1 (Forall_forall _ _) Hall (n, fl)).
Qed.

Lemma legacy_parsed_readable env : Legacy.filesReadable (mkOS env app_files) legacy_parsed.
Proof.
  intros p path Hp Hm _.
  change (Legacy.configFilePaths (Legacy.self legacy_parsed)) with [0%nat] in Hp.
  apply list_elem_of_singleton in Hp as ->.
  vm_compute in Hm. injection Hm as <-. vm_compute. eexists. reflexivity.
Qed.

Lemma legacy_parsed_variables env n fl :
  Legacy.unvisited legacy_parsed n fl →
  is_Some (Legacy.strVal (mkOS env app_files) legacy_parsed n) →
  is_Some (Legacy.stringValues (Legacy.self legacy_parsed) !! n).
Proof.
  apply legacy_variables_intro.
  repeat match goal with
  | |- Forall _ (map_to_list ?m) =>
      let l := eval vm_compute in (map_to_list m) in change (map_to_list m) with l
  | |- Forall _ [] => apply List.Forall_nil
  | |- Forall _ (_ :: _) =>
      apply List.Forall_cons;
      [vm_compute; intros Ha; first [discriminate Ha|intros _; eexists; reflexivity]|]
  end.
Qed.

(** X13 on the application: [host] holds the value of the file without
    [HOST_ENV] and that of [HOST_ENV] with it; [port], which no file
    names, holds its default, and [name], which was passed, its
    command-line value. *)
Lemma Legacy_Collate_resolves_witness :
  (∃ s', Legacy.Collate os_no_env legacy_parsed = Legacy.Ret tt s'
       ∧ Legacy.mem s' !! 1%nat = Some (stringValue "filehost")
       ∧ Legacy.mem s' !! 3%nat = Some (stringValue "80")
       ∧ Legacy.mem s' !! 2%nat = Some (stringValue "explicit"))
  ∧ (∃ s', Legacy.Collate os_db legacy_parsed = Legacy.Ret tt s'
         ∧ Legacy.mem s' !! 1%nat = Some (stringValue "db.local")).
Proof.
  assert (Hhost : Legacy.unvisited legacy_parsed "host"
                    (mkFlag "host" "host to connect to" 1))
    by (split; vm_compute; reflexivity).
  assert (Hport : Legacy.unvisited legacy_parsed "port"
                    (mkFlag "port" "port to connect to" 3))
    by (split; vm_compute; reflexivity).
  split.
  - destruct (Legacy_Collate_resolves os_no_env legacy_parsed)
      as (s' & Hret & _ & _ & _ & _ & _ & Hvalue & Hother).
    + exact legacy_parsed_wf.
    + exact (legacy_parsed_readable ∅).
    + vm_compute. reflexivity.
    + exact (legacy_parsed_variables ∅).
    + exists s'. split; [exact Hret|]. split; [|split].
      * etrans; [apply (Hvalue "host" _ 1%nat Hhost)|]; vm_compute; reflexivity.
      * etrans; [apply (Hvalue "port" _ 3%nat Hport)|]; vm_compute; reflexivity.
      * etrans; [apply Hother|vm_compute; reflexivity].
        intros n fl [Hf Ha] Hp.
        assert (n = "name") as ->.
        { apply (NoDup_variables (Legacy.stringValues (Legacy.self legacy_parsed)))
            with (p := 2%nat); [|exact Hp|vm_compute; reflexivity].
          vm_compute.
          repeat match goal with
          | |- NoDup [] => apply NoDup_nil_2
          | |- NoDup (_ :: _) =>
              apply NoDup_cons_2; [apply (bool_decide_unpack _); vm_compute; exact I|]
          end. }
        vm_compute in Ha. discriminate Ha.
  - destruct (Legacy_Collate_resolves os_db legacy_parsed)
      as (s' & Hret & _ & _ & _ & _ & _ & Hvalue & _).
    + exact legacy_parsed_wf.
    + exact (legacy_parsed_readable _).
    + vm_compute. reflexivity.
    + exact (legacy_parsed_variables _).
    + exists s'. split; [exact Hret|].
      etrans; [apply (Hvalue "host" _ 1%nat Hhost)|]; vm_compute; reflexivity.
Defined.

(** X14 on the application with two configuration files: the file of the
    site names [extra], which was not passed. *)
Lemma Legacy_Collate_nil_variable_witness :
  site_json !! "extra" = Some (VString "/etc/extra.json")
  ∧ ∃ s', Legacy.Collate os_chain legacy_chain_parsed
          = Legacy.Panic PanicNilDereference s'.
Proof.
  split; [vm_compute; reflexivity|].
  destruct (Legacy_Collate_nil_variable os_chain legacy_chain_parsed "extra"
              (mkFlag "extra" "file path to one more JSON file" 1))
    as (s' & Hpanic & _).
  - exact legacy_chain_parsed_wf.
  - intros p path Hp Hm Hne.
    change (Legacy.configFilePaths (Legacy.self legacy_chain_parsed)) with [0; 1]%nat in Hp.
    apply elem_of_cons in Hp as [->|Hp]; [|apply list_elem_of_singleton in Hp as ->];
      vm_compute in Hm; injection Hm as <-;
      first [destruct Hne; reflexivity|vm_compute; eexists; reflexivity].
  - vm_compute. reflexivity.
  - split; vm_compute; reflexivity.
  - vm_compute. eexists. reflexivity.
  - vm_compute. reflexivity.
  - exists s'. exact Hpanic.
Defined.
